(** * bridgeview: camera placement, group scaling and mesh simplification

    A shallow embedding of [render.py] and [render/modify.py].

    Conventions of the embedding:
    - Python and numpy floats are idealised as real numbers ([R]); rounding
      is not modelled.
    - A Python exception is a value of [exn]; fallible code returns
      [exn + A] ([inl] raises, [inr] returns).
    - Code that mutates the Blender scene or the file system threads the
      mutated state explicitly; a [while] loop takes a fuel argument and
      answers [None] when the fuel runs out before the loop exits.
    - The random generator is an injected stream of raw draws. *)

From Stdlib Require Import Reals Lra Lia List String ZArith Bool Arith.
Import ListNotations.

Open Scope R_scope.

(** ** Exceptions *)

Inductive exn : Type :=
| ValueError (msg : string)
| KeyError (key : string)
| IndexError
| TypeError
| AssertionError (msg : string)
| RuntimeError (msg : string)
| FileNotFoundError (filename : string).

Definition Exc (A : Type) : Type := (exn + A)%type.

Definition ret {A} (a : A) : Exc A := inr a.
Definition raise {A} (e : exn) : Exc A := inl e.
Definition bind {A B} (m : Exc A) (k : A -> Exc B) : Exc B :=
  match m with
  | inl e => inl e
  | inr a => k a
  end.

Notation "x <- m ;; k" := (bind m (fun x => k))
  (at level 61, m at next level, right associativity).

(** [mapM f l]: a list comprehension whose element expression may raise. *)
Fixpoint mapM {A B} (f : A -> Exc B) (l : list A) : Exc (list B) :=
  match l with
  | [] => ret []
  | a :: l' => b <- f a ;; bs <- mapM f l' ;; ret (b :: bs)
  end.

(** ** Vectors and matrices *)

Record V3 : Type := mk3 { vx : R; vy : R; vz : R }.

Definition zero3 : V3 := mk3 0 0 0.
Definition ones3 : V3 := mk3 1 1 1.

Definition vadd (a b : V3) : V3 := mk3 (vx a + vx b) (vy a + vy b) (vz a + vz b).
Definition vsub (a b : V3) : V3 := mk3 (vx a - vx b) (vy a - vy b) (vz a - vz b).
Definition vneg (a : V3) : V3 := mk3 (- vx a) (- vy a) (- vz a).
Definition vmul (a b : V3) : V3 := mk3 (vx a * vx b) (vy a * vy b) (vz a * vz b).
Definition vscale (k : R) (a : V3) : V3 := mk3 (k * vx a) (k * vy a) (k * vz a).
Definition vdivs (a : V3) (k : R) : V3 := mk3 (vx a / k) (vy a / k) (vz a / k).

(** [v[j]] for [j] in [range(3)]. *)
Definition vnth (v : V3) (j : nat) : R :=
  match j with
  | O => vx v
  | S O => vy v
  | _ => vz v
  end.

(** [v[i]] for an arbitrary Python integer index: negative indices count
    from the end, anything outside [-3, 3) raises [IndexError]. *)
Definition getitem (v : V3) (i : Z) : Exc R :=
  let i' := if (i <? 0)%Z then (i + 3)%Z else i in
  if (i' =? 0)%Z then ret (vx v)
  else if (i' =? 1)%Z then ret (vy v)
  else if (i' =? 2)%Z then ret (vz v)
  else raise IndexError.

(** Euclidean norm: [np.linalg.norm], [Vector.length]. *)
Definition norm (v : V3) : R := sqrt (vx v * vx v + vy v * vy v + vz v * vz v).

Definition dist (a b : V3) : R := norm (vsub a b).

(** A 4x4 matrix, row by row. *)
Record Row4 : Type := mkRow { m0 : R; m1 : R; m2 : R; m3 : R }.
Record Matrix : Type := mkMatrix { row0 : Row4; row1 : Row4; row2 : Row4; row3 : Row4 }.

Definition row_dot (r : Row4) (v : V3) : R :=
  m0 r * vx v + m1 r * vy v + m2 r * vz v + m3 r * 1.

(** [matrix * vector] of mathutils for a 4x4 matrix and a 3D vector: the
    vector is extended by 1 and the first three rows of the product are
    returned. *)
Definition mat_mul (m : Matrix) (v : V3) : V3 :=
  mk3 (row_dot (row0 m) v) (row_dot (row1 m) v) (row_dot (row2 m) v).

Definition identity : Matrix :=
  mkMatrix (mkRow 1 0 0 0) (mkRow 0 1 0 0) (mkRow 0 0 1 0) (mkRow 0 0 0 1).

(** ** Scene objects *)

Record MeshVertex : Type := mkVert { co : V3; select : bool }.

(** What the code reads of a [bpy] object: its world matrix, the corners
    of its local bounding box and the vertices of its mesh.  [bound_box] is
    a fixed 8x3 array of the host, read at the indices 0 to 7 only: it is
    the function from the index to the corner. *)
Record Object : Type := mkObject {
  matrix_world : Matrix;
  bound_box : nat -> V3;
  vertices : list MeshVertex
}.

(** The array with the given rows. *)
Definition array_of (rows : list V3) : nat -> V3 := fun i => nth i rows zero3.

(** ** Python's [min] and [max] on a list of floats *)

Definition py_max (l : list R) : Exc R :=
  match l with
  | [] => raise (ValueError "max() arg is an empty sequence")
  | x :: l' => ret (fold_left Rmax l' x)
  end.

Definition py_min (l : list R) : Exc R :=
  match l with
  | [] => raise (ValueError "min() arg is an empty sequence")
  | x :: l' => ret (fold_left Rmin l' x)
  end.

(** ** The spatial index: [mathutils.kdtree.KDTree] *)

Module KDTree.

(** Modelled from the spec: [mathutils.kdtree.KDTree] is a library of the
    host, outside the repository.  The model keeps the inserted
    [(co, index)] pairs and answers [find] with the closest of them
    (spec 4.1), through the library's interface: [find] returns the
    triple [(co, index, dist)], or [(None, None, None)] on an empty tree,
    [insert] refuses more items than the size given at construction and
    [find] refuses an unbalanced tree. *)
Record t : Type := mk {
  maxsize : nat;
  items : list (V3 * nat);
  count_balance : nat
}.

Definition new (size : nat) : t := mk size [] 0.

Definition insert (tree : t) (p : V3) (index : nat) : Exc t :=
  if (List.length (items tree) <? maxsize tree)%nat
  then ret (mk (maxsize tree) (items tree ++ [(p, index)]) (count_balance tree))
  else raise (RuntimeError "Trying to insert more items than KDTree has room for").

Definition balance (tree : t) : t :=
  mk (maxsize tree) (items tree) (List.length (items tree)).

(** The result triple of [find]; [None] stands for [(None, None, None)]. *)
Definition found : Type := option (V3 * nat * R).

Definition closer (q : V3) (best : found) (item : V3 * nat) : found :=
  let d := dist (fst item) q in
  match best with
  | None => Some (fst item, snd item, d)
  | Some (_, _, bd) =>
      if Rlt_dec d bd then Some (fst item, snd item, d) else best
  end.

Definition nearest (q : V3) (l : list (V3 * nat)) : found :=
  fold_left (closer q) l None.

Definition find (tree : t) (q : V3) : Exc found :=
  if (count_balance tree =? List.length (items tree))%nat
  then ret (nearest q (items tree))
  else raise (RuntimeError "KDTree must be balanced before calling find()").

End KDTree.

(** [enumerate(l)] *)
Fixpoint enumerate_from {A} (n : nat) (l : list A) : list (nat * A) :=
  match l with
  | [] => []
  | a :: l' => (n, a) :: enumerate_from (S n) l'
  end.

Definition enumerate {A} (l : list A) : list (nat * A) := enumerate_from 0 l.

(** The [for] loop of [landscape_tree]: one [insert] per vertex. *)
Fixpoint insert_all (m : Matrix) (tree : KDTree.t) (l : list (nat * MeshVertex))
  : Exc KDTree.t :=
  match l with
  | [] => ret tree
  | (i, vertex) :: l' =>
      tree' <- KDTree.insert tree (mat_mul m (co vertex)) i ;;
      insert_all m tree' l'
  end.

(** [landscape_tree(landscape)] *)
Definition landscape_tree (landscape : Object) : Exc KDTree.t :=
  let tree := KDTree.new (List.length (vertices landscape)) in
  tree <- insert_all (matrix_world landscape) tree (enumerate (vertices landscape)) ;;
  ret (KDTree.balance tree).

(** ** [BoundingSphere] *)

Module BoundingSphere.

Record t : Type := mk { centre : V3; radius : R }.

(** The inner function [minmax(index, axis)] of [__init__]. *)
Definition minmax (index axis : nat) : list R -> Exc R :=
  let is_max := (Nat.shiftr index axis mod 2)%nat in
  let is_max :=
    if (axis =? 0)%nat then Nat.lxor is_max (Nat.shiftr index 1 mod 2) else is_max in
  if (is_max =? 0)%nat then py_min else py_max.

(** [(x.matrix_world * mathutils.Vector(x.bound_box[i]))[j]] *)
Definition world_corner (x : Object) (i : nat) : V3 :=
  mat_mul (matrix_world x) (bound_box x i).

(** One row [box[i]] of the 8x3 array. *)
Definition box_row (objects : list Object) (i : nat) : Exc V3 :=
  b0 <- minmax i 0 (map (fun x => vnth (world_corner x i) 0) objects) ;;
  b1 <- minmax i 1 (map (fun x => vnth (world_corner x i) 1) objects) ;;
  b2 <- minmax i 2 (map (fun x => vnth (world_corner x i) 2) objects) ;;
  ret (mk3 b0 b1 b2).

Definition box (objects : list Object) : Exc (list V3) :=
  mapM (box_row objects) (seq 0 8).

(** [np.sum(box, axis=0)] *)
Definition np_sum (rows : list V3) : V3 := fold_left vadd rows zero3.

(** [np.max] of a one-dimensional array. *)
Definition np_max (l : list R) : Exc R :=
  match l with
  | [] => raise (ValueError "zero-size array to reduction operation maximum which has no identity")
  | x :: l' => ret (fold_left Rmax l' x)
  end.

(** [BoundingSphere.__init__(objects, centre=None)] *)
Definition init (objects : list Object) (centre : option V3) : Exc t :=
  box <- box objects ;;
  let centre := match centre with
                | None => vdivs (np_sum box) 8
                | Some c => c
                end in
  radius <- np_max (map (fun b => norm (vsub b centre)) box) ;;
  ret (mk centre radius).

End BoundingSphere.

(** ** The random generator

    [np.random] is a process-wide generator.  It is modelled as a stream of
    raw draws and a read position: [normal(mu, sigma)] is [mu + sigma * z]
    for a raw standard-normal draw [z], [uniform(low, high)] is
    [low + (high - low) * u] for a raw draw [u] of [[0, 1)]. *)

Record Rng : Type := mkRng { raw : nat -> R; pos : nat }.

Definition draw (g : Rng) : R * Rng := (raw g (pos g), mkRng (raw g) (S (pos g))).

(** [np.random.normal(loc, scale)]: a negative scale raises [ValueError],
    before anything is drawn. *)
Definition random_normal (mu sigma : R) (g : Rng) : Exc R * Rng :=
  if Rlt_dec sigma 0 then (raise (ValueError "scale < 0"), g)
  else let (z, g') := draw g in (ret (mu + sigma * z), g').

Definition random_uniform (low high : R) (g : Rng) : R * Rng :=
  let (u, g') := draw g in (low + (high - low) * u, g').

(** The generator after [n] more draws. *)
Definition skip (n : nat) (g : Rng) : Rng := mkRng (raw g) (n + pos g).

(** [np.random.randn(3)] *)
Definition random_randn3 (g : Rng) : V3 * Rng :=
  let (a, g1) := draw g in
  let (b, g2) := draw g1 in
  let (c, g3) := draw g2 in
  (mk3 a b c, g3).

(** ** [Render] *)

Module Render.

(** The entries of [self.opts] that [random_camera] reads.  A scalar
    [camera_noise] is the vector with three equal entries. *)
Record Opts : Type := mkOpts {
  camera_distance_factor : R * R;
  camera_lens : R * R;
  camera_theta : R * R;
  camera_noise : V3
}.

(** [self.camera.data]: the focal length, and the vertical field of view
    [angle_y] that the host derives from the focal length. *)
Record Camera : Type := mkCamera {
  lens : R;
  angle_y_of_lens : R -> R
}.

Definition angle_y (c : Camera) : R := angle_y_of_lens c (lens c).
Definition set_lens (c : Camera) (focal_length : R) : Camera :=
  mkCamera focal_length (angle_y_of_lens c).

Record t : Type := mk {
  opts : Opts;
  landscape_tree : KDTree.t;
  sphere : BoundingSphere.t;
  camera : Camera
}.

(** [closest_vertex[2]]: [closest_vertex] is the triple returned by
    [KDTree.find], whose entry 2 is the distance ([None] on an empty
    tree). *)
Definition closest_vertex_2 (closest_vertex : KDTree.found) : option R :=
  match closest_vertex with
  | Some (_, _, d) => Some d
  | None => None
  end.

(** [a > b] for a float [a] and an entry [b] of the result triple;
    comparing a float with [None] raises [TypeError]. *)
Definition float_gt (a : R) (b : option R) : Exc bool :=
  match b with
  | Some b => ret (if Rgt_dec a b then true else false)
  | None => raise TypeError
  end.

(** The test of the loop: [closest_vertex = self.landscape_tree.find(location)]
    and [location[2] > closest_vertex[2]]. *)
Definition above_landscape (self : t) (location : V3) : Exc bool :=
  closest_vertex <- KDTree.find (landscape_tree self) location ;;
  float_gt (vnth location 2) (closest_vertex_2 closest_vertex).

(** The candidate drawn by one iteration of the loop, or the error of the
    draw of its distance. *)
Definition candidate (self : t) (min_distance : R) (g : Rng)
  : Exc (R * R * V3) * Rng :=
  match random_normal (min_distance * fst (camera_distance_factor (opts self)))
                      (min_distance * snd (camera_distance_factor (opts self))) g with
  | (inl e, g1) => (inl e, g1)
  | (inr distance, g1) =>
      let (theta, g2) :=
        random_uniform (fst (camera_theta (opts self))) (snd (camera_theta (opts self))) g1 in
      let (phi, g3) := random_uniform 0 (2 * PI) g2 in
      let location :=
        vadd (BoundingSphere.centre (sphere self))
             (vscale distance
                (mk3 (sin theta * sin (- phi)) (sin theta * cos phi) (cos theta))) in
      (inr (theta, phi, location), g3)
  end.

(** The [while True] loop; [fuel] bounds the number of iterations the
    model follows, [None] means the loop is still running after them. *)
Fixpoint sample_loop (fuel : nat) (self : t) (min_distance : R) (g : Rng)
  : option (Exc (R * R * V3) * Rng) :=
  match fuel with
  | O => None
  | S fuel' =>
      match candidate self min_distance g with
      | (inl e, g') => Some (inl e, g')
      | (inr (theta, phi, location), g') =>
          match above_landscape self location with
          | inl e => Some (inl e, g')
          | inr true => Some (inr (theta, phi, location), g')
          | inr false => sample_loop fuel' self min_distance g'
          end
      end
  end.

Record CameraPose : Type := mkPose {
  focal_length : R;
  location : V3;
  rotation : V3
}.

(** [Render.random_camera(self)]; returns the outcome, [self] (with the
    camera's lens set once the focal length is drawn) and the generator. *)
Definition random_camera (fuel : nat) (self : t) (g : Rng)
  : option (Exc CameraPose * t * Rng) :=
  match random_normal 0 (snd (camera_lens (opts self))) g with
  | (inl e, g1) => Some (inl e, self, g1)
  | (inr n, g1) =>
      let focal_length := fst (camera_lens (opts self)) * exp n in
      let self := mk (opts self) (landscape_tree self) (sphere self)
                     (set_lens (camera self) focal_length) in
      let min_distance :=
        BoundingSphere.radius (sphere self) / tan (angle_y (camera self) / 2) in
      match sample_loop fuel self min_distance g1 with
      | None => None
      | Some (inl e, g2) => Some (inl e, self, g2)
      | Some (inr (theta, phi, location), g2) =>
          let rotation := mk3 theta 0 (PI + phi) in
          let (noise, g3) := random_randn3 g2 in
          let rotation := vadd rotation (vmul noise (camera_noise (opts self))) in
          Some (inr (mkPose focal_length location rotation), self, g3)
      end
  end.

(** What the statements of [random_camera] before the loop leave when the
    draw for the lens goes through: the focal length, [self] with the
    camera's lens set, [min_distance] and the generator. *)
Definition before_loop (self : t) (g : Rng) : R * t * R * Rng :=
  let (z, g1) := draw g in
  let n := 0 + snd (camera_lens (opts self)) * z in
  let focal_length := fst (camera_lens (opts self)) * exp n in
  let self := mk (opts self) (landscape_tree self) (sphere self)
                 (set_lens (camera self) focal_length) in
  let min_distance :=
    BoundingSphere.radius (sphere self) / tan (angle_y (camera self) / 2) in
  (focal_length, self, min_distance, g1).

(** What iteration [i] (from 0) of the loop draws when the draw of its
    distance goes through, every iteration taking three draws: the angles
    and the location. *)
Definition drawn (self : t) (min_distance : R) (g : Rng) (i : nat) : R * R * V3 :=
  let p := (3 * i + pos g)%nat in
  let distance :=
    min_distance * fst (camera_distance_factor (opts self))
    + min_distance * snd (camera_distance_factor (opts self)) * raw g p in
  let theta :=
    fst (camera_theta (opts self))
    + (snd (camera_theta (opts self)) - fst (camera_theta (opts self))) * raw g (S p) in
  let phi := 0 + (2 * PI - 0) * raw g (S (S p)) in
  (theta, phi,
   vadd (BoundingSphere.centre (sphere self))
        (vscale distance (mk3 (sin theta * sin (- phi)) (sin theta * cos phi) (cos theta)))).

(** The location tried by iteration [i]. *)
Definition tried (self : t) (min_distance : R) (g : Rng) (i : nat) : V3 :=
  snd (drawn self min_distance g i).

End Render.

(** ** Python dictionaries with string keys

    An association list in insertion order, as [json.load] builds it and
    [json.dump] writes it. *)

Definition dict (V : Type) : Type := list (string * V).

Fixpoint dict_get {V} (d : dict V) (k : string) : option V :=
  match d with
  | [] => None
  | (k', v) :: d' => if String.eqb k k' then Some v else dict_get d' k
  end.

(** [k in d] *)
Definition dict_mem {V} (d : dict V) (k : string) : bool :=
  match dict_get d k with
  | Some _ => true
  | None => false
  end.

(** [d[k] = v]: replaces the value of an existing key in place, appends a
    new key. *)
Fixpoint dict_set {V} (d : dict V) (k : string) (v : V) : dict V :=
  match d with
  | [] => [(k, v)]
  | (k', v') :: d' =>
      if String.eqb k k' then (k', v) :: d' else (k', v') :: dict_set d' k v
  end.

(** [d[k]] *)
Definition subscript {V} (d : dict V) (k : string) : Exc V :=
  match dict_get d k with
  | Some v => ret v
  | None => raise (KeyError k)
  end.

Module Modify.

(** The group definition of [Scale]: the dictionary with the lists of
    object names under the keys ["scale"], ["min"] and ["max"]. *)
Definition Groups : Type := dict (list string).

(** *** The groups document and [write_groups] *)

(** The parsed content of the groups file: group definitions by name
    ([None] is JSON [null], what an undefined [self.groups] dumps to). *)
Definition Document : Type := dict (option Groups).

(** What a file holds: nothing at all (a file just created or truncated),
    or the JSON text of a document. *)
Inductive content : Type :=
| Empty
| Json (data : Document).

Definition FileSystem : Type := dict content.

(** [json.load(file)]: an empty file is not a JSON text. *)
Definition json_load (c : content) : Exc Document :=
  match c with
  | Empty => raise (ValueError "Expecting value: line 1 column 1 (char 0)")
  | Json data => ret data
  end.

(** [Scale.write_groups(self, filename, name, overwrite=True)]; returns the
    outcome and the file system it leaves.  [open(filename, 'w')] creates
    or truncates the file before the body of the [with] runs. *)
Definition write_groups (self_groups : option Groups) (filename name : string)
    (overwrite : bool) (fs : FileSystem) : Exc unit * FileSystem :=
  match dict_get fs filename with
  | None => (raise (FileNotFoundError filename), fs)
  | Some c =>
      match json_load c with
      | inl e => (inl e, fs)
      | inr data =>
          let fs := dict_set fs filename Empty in
          if negb (dict_mem data name) || overwrite
          then
            let data := dict_set data name self_groups in
            (ret tt, dict_set fs filename (Json data))
          else
            (raise (ValueError "Name already exists, specify overwrite to write anyway"),
             fs)
      end
  end.

(** [Scale.load_groups(self, filename, name)]: the new [self.groups]. *)
Definition load_groups (filename name : string) (fs : FileSystem)
  : Exc (option Groups) :=
  match dict_get fs filename with
  | None => raise (FileNotFoundError filename)
  | Some c => data <- json_load c ;; subscript data name
  end.

(** *** The scene and [Scale.scale] *)

(** A 2x3 array: [box[0]] and [box[1]]. *)
Record Box : Type := mkBox { lower : V3; upper : V3 }.

Definition box_sub (a b : Box) : Box :=
  mkBox (vsub (lower a) (lower b)) (vsub (upper a) (upper b)).
Definition box_add (a b : Box) : Box :=
  mkBox (vadd (lower a) (lower b)) (vadd (upper a) (upper b)).

(** A boolean array of three entries: the [axis] mask. *)
Record B3 : Type := mkB3 { b0 : bool; b1 : bool; b2 : bool }.

Definition b2r (b : bool) : R := if b then 1 else 0.
Definition mask (a : B3) : V3 := mk3 (b2r (b0 a)) (b2r (b1 a)) (b2r (b2 a)).

(** [axis = np.zeros(3, dtype=bool); axis[axis_index] = True] *)
Definition set_axis (axis_index : Z) : Exc B3 :=
  let i := if (axis_index <? 0)%Z then (axis_index + 3)%Z else axis_index in
  if (i =? 0)%Z then ret (mkB3 true false false)
  else if (i =? 1)%Z then ret (mkB3 false true false)
  else if (i =? 2)%Z then ret (mkB3 false false true)
  else raise IndexError.

(** A float array of three entries that may hold [nan] or [inf]: such an
    entry, which the real numbers do not represent, is [None]. *)
Record V3x : Type := mk3x { xx : option R; xy : option R; xz : option R }.

Definition finite (v : V3) : V3x := mk3x (Some (vx v)) (Some (vy v)) (Some (vz v)).
Definition broadcast (value : R) : V3x := mk3x (Some value) (Some value) (Some value).

(** numpy's float division: a zero divisor gives [nan] or [inf]. *)
Definition np_div (a b : R) : option R :=
  if Req_dec_T b 0 then None else Some (a / b).

Definition vdiv (a b : V3) : V3x :=
  mk3x (np_div (vx a) (vx b)) (np_div (vy a) (vy b)) (np_div (vz a) (vz b)).

(** [axis*(value - 1) + np.ones(3)] *)
Definition resize_value (axis : B3) (value : V3x) : V3x :=
  let f (a : bool) (v : option R) := option_map (fun v => b2r a * (v - 1) + 1) v in
  mk3x (f (b0 axis) (xx value)) (f (b1 axis) (xy value)) (f (b2 axis) (xz value)).

(** The operators of [bpy.ops.transform] that the code calls, with their
    arguments. *)
Inductive op : Type :=
| Resize (name : string) (value : V3x)
| Translate (group : list string) (value : V3).

(** The Blender scene, as far as [Scale.scale] sees it. *)
Class Host : Type := {
  scene : Type;
  (** [name in bpy.data.objects] *)
  has_object : scene -> string -> bool;
  (** Modelled from the spec: [helpers.bounding_box] is not among the
      sources; it returns the world bounding box of an object as the 2x3
      array of its lower and upper corner (spec 4.4, step 1). *)
  bounding_box : scene -> string -> Box;
  (** [bpy.ops.transform.resize] on all vertices of an object's mesh *)
  transform_resize : string -> V3x -> scene -> scene;
  (** [bpy.ops.transform.translate] on the selected objects *)
  transform_translate : list string -> V3 -> scene -> scene
}.

Section Scale.

Context {host : Host}.

(** The scene together with the record of the operators applied to it. *)
Record World : Type := mkWorld { scn : scene; ops : list op }.

Definition St (A : Type) : Type := World -> Exc A * World.

Definition st_ret {A} (a : A) : St A := fun w => (inr a, w).
Definition st_bind {A B} (m : St A) (k : A -> St B) : St B :=
  fun w => match m w with
           | (inl e, w') => (inl e, w')
           | (inr a, w') => k a w'
           end.
Definition lift {A} (m : Exc A) : St A := fun w => (m, w).

(** [bpy.data.objects[name]] *)
Definition object (name : string) : St string :=
  fun w => if has_object (scn w) name then (ret name, w)
           else (raise (KeyError name), w).

(** [helpers.bounding_box(obj)] *)
Definition get_bounding_box (obj : string) : St Box :=
  fun w => (ret (bounding_box (scn w) obj), w).

(** [translate_group(group, translate)] *)
Fixpoint select_group (group : list string) : St unit :=
  match group with
  | [] => st_ret tt
  | name :: group' => st_bind (object name) (fun _ => select_group group')
  end.

Definition translate_group (group : list string) (translate : V3) : St unit :=
  st_bind (select_group group) (fun _ =>
  fun w => (ret tt, mkWorld (transform_translate group translate (scn w))
                            (ops w ++ [Translate group translate]))).

(** [scale_object(obj, value, axis)] *)
Definition scale_object (obj : string) (value : V3x) (axis : B3) : St unit :=
  fun w => let v := resize_value axis value in
           (ret tt, mkWorld (transform_resize obj v (scn w))
                            (ops w ++ [Resize obj v])).

Notation "x <~ m ;; k" := (st_bind m (fun x => k))
  (at level 61, m at next level, right associativity).

(** One iteration of the loop over [self.groups['scale']]. *)
Definition scale_member (reference : string) (axis : B3) (start_ref end_ref : Box)
    (name : string) : St unit :=
  if String.eqb name reference then st_ret tt
  else
    obj <~ object name ;;
    start_box <~ get_bounding_box obj ;;
    let start_length := vsub (upper start_box) (lower start_box) in
    let end_box := box_add (box_sub start_box start_ref) end_ref in
    let end_length := vsub (upper end_box) (lower end_box) in
    obj <~ object name ;;
    scale_object obj (vdiv end_length start_length) axis.

Fixpoint scale_members (reference : string) (axis : B3) (start_ref end_ref : Box)
    (names : list string) : St unit :=
  match names with
  | [] => st_ret tt
  | name :: names' =>
      _ <~ scale_member reference axis start_ref end_ref name ;;
      scale_members reference axis start_ref end_ref names'
  end.

(** [translate = (end_ref - start_ref)*axis] *)
Definition translation (start_ref end_ref : Box) (axis : B3) : Box :=
  let d := box_sub end_ref start_ref in
  mkBox (vmul (lower d) (mask axis)) (vmul (upper d) (mask axis)).

(** [Scale.scale(self, value, axis_index, reference, base='scale')] *)
Definition scale (self_groups : option Groups) (value : R) (axis_index : Z)
    (reference : string) (base : string) : St unit :=
  match self_groups with
  | None => lift (raise (AssertionError "Groups not defined."))
  | Some groups =>
      axis <~ lift (set_axis axis_index) ;;
      obj <~ object reference ;;
      start_ref <~ get_bounding_box obj ;;
      obj <~ object reference ;;
      _ <~ scale_object obj (broadcast value) axis ;;
      obj <~ object reference ;;
      end_ref <~ get_bounding_box obj ;;
      names <~ lift (subscript groups "scale") ;;
      _ <~ scale_members reference axis start_ref end_ref names ;;
      let translate := translation start_ref end_ref axis in
      if String.eqb base "min" then
        group <~ lift (subscript groups "scale") ;;
        _ <~ translate_group group (vneg (lower translate)) ;;
        group <~ lift (subscript groups "max") ;;
        translate_group group (vsub (upper translate) (lower translate))
      else if String.eqb base "scale" then
        group <~ lift (subscript groups "min") ;;
        _ <~ translate_group group (lower translate) ;;
        group <~ lift (subscript groups "max") ;;
        translate_group group (upper translate)
      else if String.eqb base "max" then
        group <~ lift (subscript groups "min") ;;
        _ <~ translate_group group (vsub (lower translate) (upper translate)) ;;
        group <~ lift (subscript groups "scale") ;;
        translate_group group (vneg (upper translate))
      else
        lift (raise (ValueError
                       ("Translate failed: base group name invalid " ++ base)))
  end.

(** The translation an object has received from the operators of a
    record: the sum of the [Translate] values of the groups it is in. *)
Fixpoint net_translation (l : list op) (name : string) : V3 :=
  match l with
  | [] => zero3
  | Translate group value :: l' =>
      if existsb (String.eqb name) group
      then vadd value (net_translation l' name)
      else net_translation l' name
  | Resize _ _ :: l' => net_translation l' name
  end.

(** An operator that changes nothing: a resize by 1 along every axis, a
    translation by the zero vector. *)
Definition trivial_op (o : op) : Prop :=
  match o with
  | Resize _ value => value = broadcast 1
  | Translate _ value => value = zero3
  end.

End Scale.

(** *** Mesh simplification *)

Definition Mesh : Type := list MeshVertex.

(** [bpy.ops.mesh.select_all(action='DESELECT')] *)
Definition deselect_all (mesh : Mesh) : Mesh :=
  map (fun vert => mkVert (co vert) false) mesh.

(** The [for] loop of [dissolve_near]. *)
Definition select_near (point : V3) (mesh : Mesh) : Mesh :=
  map (fun vert =>
         let length := norm (vsub (co vert) point) in
         if Rlt_dec length (1/2) then mkVert (co vert) true else vert) mesh.

(** [bpy.ops.mesh.dissolve_verts()]: the host removes the selected
    vertices from the mesh (and rebuilds the faces around them, which the
    code never reads); the other vertices keep their order and
    coordinates. *)
Definition dissolve_verts (mesh : Mesh) : Mesh :=
  filter (fun vert => negb (select vert)) mesh.

(** [dissolve_near(point, obj)], on the vertices of [obj]. *)
Definition dissolve_near (point : V3) (mesh : Mesh) : Mesh :=
  dissolve_verts (select_near point (deselect_all mesh)).

(** [dissolve_near_selected_vertex(obj)] *)
Definition dissolve_near_selected_vertex (mesh : Mesh) : Exc Mesh :=
  let selected_vertex := filter select mesh in
  if (List.length selected_vertex =? 1)%nat
  then ret (dissolve_near (co (nth 0 selected_vertex (mkVert zero3 false))) mesh)
  else raise (ValueError "Exactly one vertex must be selected.").

(** The inner function [dissolve_next] of [limit_dissolve]: the scan over
    the vertices [rest] still to visit of the mesh [mesh]. *)
Fixpoint dissolve_next (mesh rest : Mesh) (axis_index : Z) (limit : R)
  : Exc (bool * Mesh) :=
  match rest with
  | [] => ret (false, mesh)
  | vert :: rest' =>
      c <- getitem (co vert) axis_index ;;
      if Rlt_dec c limit
      then ret (true, dissolve_near (co vert) mesh)
      else dissolve_next mesh rest' axis_index limit
  end.

(** [limit_dissolve(obj, axis_index, limit)]: [while dissolve_next(): pass];
    [None] when the loop is still running after [fuel] iterations. *)
Fixpoint limit_dissolve (fuel : nat) (mesh : Mesh) (axis_index : Z) (limit : R)
  : option (Exc Mesh) :=
  match fuel with
  | O => None
  | S fuel' =>
      match dissolve_next mesh mesh axis_index limit with
      | inl e => Some (inl e)
      | inr (true, mesh') => limit_dissolve fuel' mesh' axis_index limit
      | inr (false, mesh') => Some (inr mesh')
      end
  end.

End Modify.

(** ** A scene of boxes

    An instance of the scene for examples: every object is its world
    bounding box, a resize scales the box about its centre and a
    translation shifts it. *)

Module BoxScene.

Import Modify.

Definition resize_interval (k : option R) (lo hi : R) : R * R :=
  match k with
  | Some k => let c := (lo + hi) / 2 in (c + k * (lo - c), c + k * (hi - c))
  | None => (lo, hi)
  end.

Definition resize_box (value : V3x) (b : Box) : Box :=
  let x := resize_interval (xx value) (vx (lower b)) (vx (upper b)) in
  let y := resize_interval (xy value) (vy (lower b)) (vy (upper b)) in
  let z := resize_interval (xz value) (vz (lower b)) (vz (upper b)) in
  mkBox (mk3 (fst x) (fst y) (fst z)) (mk3 (snd x) (snd y) (snd z)).

Definition translate_box (value : V3) (b : Box) : Box :=
  mkBox (vadd (lower b) value) (vadd (upper b) value).

Definition resize (name : string) (value : V3x) (s : dict Box) : dict Box :=
  map (fun e => if String.eqb name (fst e) then (fst e, resize_box value (snd e)) else e) s.

Definition translate (group : list string) (value : V3) (s : dict Box) : dict Box :=
  map (fun e => if existsb (String.eqb (fst e)) group
                then (fst e, translate_box value (snd e)) else e) s.

Definition box_of (s : dict Box) (name : string) : Box :=
  match dict_get s name with
  | Some b => b
  | None => mkBox zero3 zero3
  end.

#[export] Instance host : Host := {
  scene := dict Box;
  has_object := dict_mem;
  bounding_box := box_of;
  transform_resize := resize;
  transform_translate := translate
}.

End BoxScene.

(** ** [Render], continued: the sun and the placement of the camera *)

Module Placement.

(** [Render.random_sun(self)]; of the options it reads the entry
    [sun_theta] only. *)
Definition random_sun (sun_theta : R * R) (g : Rng) : V3 * Rng :=
  let (theta, g1) := random_uniform (fst sun_theta) (snd sun_theta) g in
  let (phi, g2) := random_uniform 0 (2 * PI) g1 in
  (mk3 theta 0 phi, g2).

(** The ranges of polar angles that [_default] sets: [sun_theta] and
    [camera_theta]. *)
Definition default_sun_theta : R * R := (0, 17/18 * PI/2).
Definition default_camera_theta : R * R := (PI/3, 17/18 * PI/2).

(** The renderer together with what [place_camera] sets of the camera
    object besides the lens: [self.camera.location] and
    [self.camera.rotation_euler]. *)
Record t : Type := mk {
  renderer : Render.t;
  location : V3;
  rotation_euler : V3
}.

Definition set_camera_lens (self : Render.t) (focal_length : R) : Render.t :=
  Render.mk (Render.opts self) (Render.landscape_tree self) (Render.sphere self)
            (Render.set_lens (Render.camera self) focal_length).

(** The four assignments at the end of [place_camera].  An argument left at
    [None] cannot be assigned to a vector of the host, which raises
    [TypeError]; the assignments made before it stay. *)
Definition assign (focal_length : R) (location rotation : option V3) (self : t)
  : Exc unit * t :=
  let self := mk (set_camera_lens (renderer self) focal_length)
                 zero3 (rotation_euler self) in
  match rotation with
  | None => (raise TypeError, self)
  | Some rotation =>
      let self := mk (renderer self) (Placement.location self) rotation in
      match location with
      | None => (raise TypeError, self)
      | Some location => (ret tt, mk (renderer self) location (rotation_euler self))
      end
  end.

(** [Render.place_camera(self, focal_length=None, location=None,
    rotation=None)]; [fuel] is that of the loop of [random_camera]. *)
Definition place_camera (fuel : nat) (focal_length : option R)
    (location rotation : option V3) (self : t) (g : Rng)
  : option (Exc unit * t * Rng) :=
  match focal_length with
  | Some focal_length =>
      let (r, self) := assign focal_length location rotation self in
      Some (r, self, g)
  | None =>
      match Render.random_camera fuel (renderer self) g with
      | None => None
      | Some (inl e, renderer, g) =>
          Some (inl e, mk renderer (Placement.location self) (rotation_euler self), g)
      | Some (inr pose, renderer, g) =>
          let self := mk renderer (Placement.location self) (rotation_euler self) in
          let (r, self) :=
            assign (Render.focal_length pose) (Some (Render.location pose))
                   (Some (Render.rotation pose)) self in
          Some (r, self, g)
      end
  end.

End Placement.

(** ** Example scenes *)

Module Examples.

(** The [bound_box] of an axis-aligned box, in the corner order of the
    host: the x bit is the most significant of the index, and along
    [0 1 2 3] the pair (y, z) runs through (lo, lo), (lo, hi), (hi, hi),
    (hi, lo). *)
Definition box_corners (lo hi : V3) : list V3 :=
  [ mk3 (vx lo) (vy lo) (vz lo); mk3 (vx lo) (vy lo) (vz hi);
    mk3 (vx lo) (vy hi) (vz hi); mk3 (vx lo) (vy hi) (vz lo);
    mk3 (vx hi) (vy lo) (vz lo); mk3 (vx hi) (vy lo) (vz hi);
    mk3 (vx hi) (vy hi) (vz hi); mk3 (vx hi) (vy hi) (vz lo) ].

Definition cuboid (lo hi : V3) : Object := mkObject identity (array_of (box_corners lo hi)) [].

(** Two axis-aligned boxes, [0,2]x[0,1]x[0,2] and [1,2]x[1,2]x[0,1]. *)
Definition slab : Object := cuboid (mk3 0 0 0) (mk3 2 1 2).
Definition block : Object := cuboid (mk3 1 1 0) (mk3 2 2 1).

(** The corner order that [minmax] reads: x is at its maximum at the
    indices 1, 2, 5, 6, y at 2, 3, 6, 7 and z at 4 to 7. *)
Definition read_corners (lo hi : V3) : list V3 :=
  [ mk3 (vx lo) (vy lo) (vz lo); mk3 (vx hi) (vy lo) (vz lo);
    mk3 (vx hi) (vy hi) (vz lo); mk3 (vx lo) (vy hi) (vz lo);
    mk3 (vx lo) (vy lo) (vz hi); mk3 (vx hi) (vy lo) (vz hi);
    mk3 (vx hi) (vy hi) (vz hi); mk3 (vx lo) (vy hi) (vz hi) ].

(** A rotation by a half turn about the z axis. *)
Definition half_turn : Matrix :=
  mkMatrix (mkRow (-1) 0 0 0) (mkRow 0 (-1) 0 0) (mkRow 0 0 1 0) (mkRow 0 0 0 1).

(** Two unit cubes with their corners in that order, the second one
    rotated by a half turn: it occupies [-1,0]x[-1,0]x[0,1]. *)
Definition crate : Object := mkObject identity (array_of (read_corners (mk3 0 0 0) (mk3 1 1 1))) [].
Definition turned_crate : Object :=
  mkObject half_turn (array_of (read_corners (mk3 0 0 0) (mk3 1 1 1))) [].

(** A terrain of a single vertex, at height [h] above the origin. *)
Definition peak (h : R) : Object :=
  mkObject identity (array_of []) [mkVert (mk3 0 0 h) false].

Definition peak_tree (h : R) : KDTree.t := KDTree.mk 1 [(mk3 0 0 h, 0%nat)] 1.

(** A generator whose raw draws are all 0. *)
Definition zero_source : Rng := mkRng (fun _ => 0) 0.

(** A renderer over the terrain [peak h]: a bounding sphere of radius 12
    about the origin, a field of view of a right angle, the default
    distance factor [1/3, 1/12] and lens [16, 1/4], and polar angles from
    0 (straight above the centre) to a right angle. *)
Definition overhead (h : R) : Render.t :=
  Render.mk
    (Render.mkOpts (1/3, 1/12) (16, 1/4) (0, PI/2) (mk3 (1/100) (1/100) (1/100)))
    (peak_tree h)
    (BoundingSphere.mk zero3 12)
    (Render.mkCamera 35 (fun _ => PI/2)).

(** [overhead h] once the lens is drawn. *)
Definition overhead_set (h : R) : Render.t :=
  Render.mk (Render.opts (overhead h)) (peak_tree h) (BoundingSphere.mk zero3 12)
            (Render.mkCamera 16 (fun _ => PI/2)).

(** A renderer with the options of [_default] over the terrain [peak h],
    with a sphere of radius 12 about the origin. *)
Definition lookout (h : R) : Render.t :=
  Render.mk
    (Render.mkOpts (4/12, 1/12) (16, 1/4) Placement.default_camera_theta
                   (mk3 (1/100) (1/100) (1/100)))
    (peak_tree h)
    (BoundingSphere.mk zero3 12)
    (Render.mkCamera 35 (fun _ => PI/2)).

(** A generator whose raw draws are all 1/2. *)
Definition half_source : Rng := mkRng (fun _ => 1/2) 0.

(** A landscape without vertices. *)
Definition bare : Object := mkObject identity (array_of []) [].

(** A groups file holding one definition, ["bridge"], and a second
    definition to write. *)
Definition bridge_groups : Modify.Groups :=
  [("scale", ["deck"]); ("min", ["pier_a"]); ("max", ["pier_b"])]%string.

Definition span_groups : Modify.Groups :=
  [("scale", ["span"]); ("min", []); ("max", [])]%string.

Definition groups_file : Modify.FileSystem :=
  [("groups.json"%string, Modify.Json [("bridge"%string, Some bridge_groups)])].

(** A mesh with vertices at z = -1, -1/2, 1/2 and 1, none selected. *)
Definition column : Modify.Mesh :=
  [ mkVert (mk3 0 0 (-1)) false; mkVert (mk3 0 0 (-1/2)) false;
    mkVert (mk3 0 0 (1/2)) false; mkVert (mk3 0 0 1) false ].

(** The same mesh with the vertex at z = 1/2 selected. *)
Definition column_selected : Modify.Mesh :=
  [ mkVert (mk3 0 0 (-1)) false; mkVert (mk3 0 0 (-1/2)) false;
    mkVert (mk3 0 0 (1/2)) true; mkVert (mk3 0 0 1) false ].

(** A deck between two piers, as a scene of boxes; [flat_bridge] has a
    deck without thickness, [sheet_bridge] a sheet without thickness
    lying on the deck. *)
Definition bridge : dict Modify.Box :=
  [ ("deck"%string, Modify.mkBox (mk3 0 0 0) (mk3 10 2 1));
    ("pier_a"%string, Modify.mkBox (mk3 (-1) 0 0) (mk3 0 2 1));
    ("pier_b"%string, Modify.mkBox (mk3 10 0 0) (mk3 11 2 1)) ].

Definition flat_bridge : dict Modify.Box :=
  [ ("deck"%string, Modify.mkBox (mk3 0 0 1) (mk3 10 2 1));
    ("pier_a"%string, Modify.mkBox (mk3 (-1) 0 0) (mk3 0 2 1));
    ("pier_b"%string, Modify.mkBox (mk3 10 0 0) (mk3 11 2 1)) ].

Definition sheet_bridge : dict Modify.Box :=
  [ ("deck"%string, Modify.mkBox (mk3 0 0 0) (mk3 10 2 1));
    ("sheet"%string, Modify.mkBox (mk3 0 0 1) (mk3 10 2 1)) ].

(** A bridge whose deck carries a rail, both in the scale group. *)
Definition railed_bridge : dict Modify.Box :=
  [ ("deck"%string, Modify.mkBox (mk3 0 0 0) (mk3 10 2 1));
    ("rail"%string, Modify.mkBox (mk3 0 0 1) (mk3 10 2 2));
    ("pier_a"%string, Modify.mkBox (mk3 (-1) 0 0) (mk3 0 2 1));
    ("pier_b"%string, Modify.mkBox (mk3 10 0 0) (mk3 11 2 1)) ].

Definition railed_groups : Modify.Groups :=
  [("scale", ["deck"; "rail"]); ("min", ["pier_a"]); ("max", ["pier_b"])]%string.

Definition sheet_groups : Modify.Groups :=
  [("scale", ["deck"; "sheet"]); ("min", []); ("max", [])]%string.

Definition world_of (s : dict Modify.Box) : Modify.World (host := BoxScene.host) :=
  Modify.mkWorld (host := BoxScene.host) s [].

End Examples.

(** ** Notions used in the statements *)

(** What [find] owes for the items [l] and the query [q]: a triple whose
    point is one of [l], with its distance to [q], which no item of [l]
    beats. *)
Definition nearest_of (q : V3) (l : list (V3 * nat)) (r : V3 * nat * R) : Prop :=
  let '(p, i, d) := r in
  In (p, i) l /\ d = dist p q /\ forall p' i', In (p', i') l -> d <= dist p' q.

(** The points the index of a landscape holds: the world positions of the
    vertices, each with its number. *)
Definition world_points (landscape : Object) : list (V3 * nat) :=
  map (fun e => (mat_mul (matrix_world landscape) (co (snd e)), fst e))
      (enumerate (vertices landscape)).

(** Whether the position [c] is at least 0.5 away from [point]: the
    vertices that [dissolve_near] keeps. *)
Definition far_from (point c : V3) : bool :=
  if Rlt_dec (norm (vsub c point)) (1/2) then false else true.

(** A valid index of a vector of three entries. *)
Definition valid_index (i : Z) : Prop := (-3 <= i < 3)%Z.

(** The [Translate] operators of a record, in order. *)
Fixpoint translations (l : list Modify.op) : list (list string * V3) :=
  match l with
  | [] => []
  | Modify.Translate group value :: l' => (group, value) :: translations l'
  | Modify.Resize _ _ :: l' => translations l'
  end.

(** A box with a non-zero extent along every axis. *)
Definition nonflat (b : Modify.Box) : Prop :=
  vx (Modify.upper b) - vx (Modify.lower b) <> 0 /\
  vy (Modify.upper b) - vy (Modify.lower b) <> 0 /\
  vz (Modify.upper b) - vz (Modify.lower b) <> 0.

(** The world [w'] is [w] after operators that change nothing: the same
    scene, and a record extended by trivial operators only. *)
Definition unchanged {host : Modify.Host} (w w' : Modify.World) : Prop :=
  Modify.scn w' = Modify.scn w /\
  exists new, Modify.ops w' = Modify.ops w ++ new /\ Forall Modify.trivial_op new.

(** ** Further notions used in the statements *)

(** Whether a position lies below the limit along the axis: the test of
    [dissolve_next], false where the index is out of range. *)
Definition below_limit (axis_index : Z) (limit : R) (c : V3) : bool :=
  match getitem c axis_index with
  | inr x => if Rlt_dec x limit then true else false
  | inl _ => false
  end.

(** The first vertex of a mesh below the limit, in the order of the scan. *)
Definition first_below (axis_index : Z) (limit : R) (mesh : Modify.Mesh)
  : option MeshVertex :=
  find (fun vert => below_limit axis_index limit (co vert)) mesh.

(** [limit_dissolve] in the words of its description: as long as a scan
    finds a vertex below the limit, the neighbourhood of the first one
    found is dissolved and the scan starts again on the mesh this leaves;
    the result is the mesh in which a full scan finds none. *)
Inductive dissolved_below (axis_index : Z) (limit : R)
  : Modify.Mesh -> Modify.Mesh -> Prop :=
| dissolved_done (mesh : Modify.Mesh) :
    first_below axis_index limit mesh = None ->
    dissolved_below axis_index limit mesh mesh
| dissolved_step (mesh : Modify.Mesh) (vert : MeshVertex) (mesh' : Modify.Mesh) :
    first_below axis_index limit mesh = Some vert ->
    dissolved_below axis_index limit (Modify.dissolve_near (co vert) mesh) mesh' ->
    dissolved_below axis_index limit mesh mesh'.

(** The number of vertices of a mesh below the limit. *)
Definition count_below (axis_index : Z) (limit : R) (mesh : Modify.Mesh) : nat :=
  List.length (filter (fun vert => below_limit axis_index limit (co vert)) mesh).

(** The objects that the [Resize] operators of a record act on, in order. *)
Fixpoint resized (l : list Modify.op) : list string :=
  match l with
  | [] => []
  | Modify.Resize name _ :: l' => name :: resized l'
  | Modify.Translate _ _ :: l' => resized l'
  end.

(** Entry [j] of an array of three entries. *)
Definition xnth (v : Modify.V3x) (j : nat) : option R :=
  match j with
  | O => Modify.xx v
  | S O => Modify.xy v
  | _ => Modify.xz v
  end.

Definition bnth (a : Modify.B3) (j : nat) : bool :=
  match j with
  | O => Modify.b0 a
  | S O => Modify.b1 a
  | _ => Modify.b2 a
  end.

(** The position that a Python index of an array of three entries
    denotes. *)
Definition position (i : Z) : nat := Z.to_nat (i mod 3).

(** * Properties *)

(** ** Arithmetic helpers *)

Ltac rminmax :=
  repeat match goal with
  | |- context [Rmin ?a ?b] =>
      first [ rewrite (Rmin_left a b) by lra | rewrite (Rmin_right a b) by lra ]
  | |- context [Rmax ?a ?b] =>
      first [ rewrite (Rmax_left a b) by lra | rewrite (Rmax_right a b) by lra ]
  end.

Lemma mat_mul_identity (v : V3) : mat_mul identity v = v.
Proof. destruct v; unfold mat_mul, row_dot; cbn; f_equal; lra. Qed.

Lemma norm_sq (v : V3) (s : R) :
  vx v * vx v + vy v * vy v + vz v * vz v = s -> norm v = sqrt s.
Proof. intros <-. reflexivity. Qed.

Lemma norm_nonneg (v : V3) : 0 <= norm v.
Proof. apply sqrt_pos. Qed.

Lemma fold_Rmax_lt (b : R) (l : list R) (x : R) :
  x < b -> Forall (fun y => y < b) l -> fold_left Rmax l x < b.
Proof.
  intros Hx Hl. revert x Hx.
  induction Hl as [|y l Hy _ IH]; intros x Hx; cbn; [assumption|].
  apply IH. apply Rmax_lub_lt; assumption.
Qed.

Lemma fold_Rmax_ge_init (l : list R) (x : R) : x <= fold_left Rmax l x.
Proof.
  revert x. induction l as [|y l IH]; intros x; cbn; [lra|].
  eapply Rle_trans; [apply Rmax_l | apply IH].
Qed.

Lemma fold_Rmax_ge (l : list R) (x y : R) : In y l -> y <= fold_left Rmax l x.
Proof.
  revert x. induction l as [|z l IH]; intros x Hin; [contradiction|].
  cbn. destruct Hin as [->|Hin].
  - eapply Rle_trans; [apply Rmax_r | apply fold_Rmax_ge_init].
  - apply IH, Hin.
Qed.

Lemma fold_Rmax_in (l : list R) (x : R) :
  fold_left Rmax l x = x \/ In (fold_left Rmax l x) l.
Proof.
  revert x. induction l as [|z l IH]; intros x; cbn; [left; reflexivity|].
  destruct (IH (Rmax x z)) as [H|H].
  - rewrite H. unfold Rmax. destruct (Rle_dec x z); auto.
  - right. right. exact H.
Qed.

(** ** [BoundingSphere] *)

Lemma minmax_table (i j : nat) :
  (i < 8)%nat -> (j < 3)%nat ->
  BoundingSphere.minmax i j =
  if nth i (nth j [[false; true; true; false; false; true; true; false];
                   [false; false; true; true; false; false; true; true];
                   [false; false; false; false; true; true; true; true]] []) false
  then py_max else py_min.
Proof.
  intros Hi Hj.
  do 8 (destruct i as [|i]; [ do 3 (destruct j as [|j]; [reflexivity|]); lia | ]).
  lia.
Qed.

Lemma minmax_nonempty (i j : nat) (x : R) (l : list R) :
  exists r, BoundingSphere.minmax i j (x :: l) = inr r.
Proof.
  unfold BoundingSphere.minmax.
  match goal with |- context [if ?c then py_min else py_max] => destruct c end;
    cbn; eexists; reflexivity.
Qed.

Lemma box_row_nonempty (x : Object) (objects : list Object) (i : nat) :
  exists b, BoundingSphere.box_row (x :: objects) i = inr b.
Proof.
  unfold BoundingSphere.box_row. cbn [map].
  destruct (minmax_nonempty i 0 (vnth (BoundingSphere.world_corner x i) 0)
              (map (fun x => vnth (BoundingSphere.world_corner x i) 0) objects)) as [r0 ->].
  destruct (minmax_nonempty i 1 (vnth (BoundingSphere.world_corner x i) 1)
              (map (fun x => vnth (BoundingSphere.world_corner x i) 1) objects)) as [r1 ->].
  destruct (minmax_nonempty i 2 (vnth (BoundingSphere.world_corner x i) 2)
              (map (fun x => vnth (BoundingSphere.world_corner x i) 2) objects)) as [r2 ->].
  cbn. eexists; reflexivity.
Qed.

Lemma mapM_total {A B} (f : A -> Exc B) (l : list A) :
  (forall a, In a l -> exists b, f a = inr b) ->
  exists bs, mapM f l = inr bs /\ List.length bs = List.length l.
Proof.
  induction l as [|a l IH]; intros H; cbn.
  - exists []. split; reflexivity.
  - destruct (H a (or_introl eq_refl)) as [b ->].
    destruct IH as [bs [-> Hlen]]; [intros a' Ha'; apply H; right; exact Ha'|].
    cbn. exists (b :: bs). split; [reflexivity | cbn; f_equal; exact Hlen].
Qed.

(** For a non-empty object set, the 8 composite corners are computed
    without error. *)
Lemma box_nonempty (x : Object) (objects : list Object) :
  exists rows, BoundingSphere.box (x :: objects) = inr rows /\ List.length rows = 8%nat.
Proof.
  unfold BoundingSphere.box.
  destruct (mapM_total (BoundingSphere.box_row (x :: objects)) (seq 0 8)) as [bs [H Hlen]].
  - intros i _. apply box_row_nonempty.
  - exists bs. split; [exact H | exact Hlen].
Qed.

(** C10. When a centre is supplied, for every non-empty object set the
    sphere is built, its centre is the supplied point (the mean of the
    composite corners is not used) and its radius is the maximum Euclidean
    distance from the supplied point to the 8 composite corners: it is the
    distance to one of them and at least the distance to each. *)
Theorem init_explicit_centre (x : Object) (objects : list Object) (c : V3) :
  exists rows s,
    BoundingSphere.box (x :: objects) = inr rows /\
    List.length rows = 8%nat /\
    BoundingSphere.init (x :: objects) (Some c) = inr s /\
    BoundingSphere.centre s = c /\
    (exists b, In b rows /\ BoundingSphere.radius s = norm (vsub b c)) /\
    (forall b, In b rows -> norm (vsub b c) <= BoundingSphere.radius s).
Proof.
  destruct (box_nonempty x objects) as [rows [Hbox Hlen]].
  unfold BoundingSphere.init. rewrite Hbox. cbn [bind].
  destruct rows as [|b0 rows]; [discriminate|].
  cbn [map BoundingSphere.np_max bind ret].
  eexists; eexists. split; [reflexivity|]. split; [exact Hlen|].
  split; [reflexivity|]. cbn [BoundingSphere.centre BoundingSphere.radius].
  split; [reflexivity|]. split.
  - destruct (fold_Rmax_in (map (fun b => norm (vsub b c)) rows) (norm (vsub b0 c)))
      as [H|H].
    + exists b0. split; [left; reflexivity | exact H].
    + apply in_map_iff in H. destruct H as [b [Hb Hin]].
      exists b. split; [right; exact Hin | symmetry; exact Hb].
  - intros b [<-|Hin].
    + apply fold_Rmax_ge_init.
    + apply fold_Rmax_ge. apply in_map_iff. exists b. split; [reflexivity | exact Hin].
Qed.

Import Examples.

Lemma box_slab_block :
  BoundingSphere.box [slab; block] =
  inr [mk3 0 0 0; mk3 1 0 1; mk3 1 2 1; mk3 0 2 0; mk3 2 0 0; mk3 2 0 2; mk3 2 2 2; mk3 2 2 0].
Proof.
  unfold BoundingSphere.box. simpl seq. unfold mapM, BoundingSphere.box_row.
  rewrite !minmax_table by lia.
  unfold BoundingSphere.world_corner, slab, block, cuboid.
  cbn [matrix_world bound_box map array_of]. rewrite !mat_mul_identity.
  cbn. rminmax. reflexivity.
Qed.

(** For the two axis-aligned boxes [slab] and [block] the sphere has
    centre (5/4, 1, 3/4) and radius sqrt(25/8), while the corner (0, 0, 2)
    of [slab] lies at distance sqrt(33/8) from the centre. *)
Lemma sphere_slab_block :
  exists s,
    BoundingSphere.init [slab; block] None = inr s /\
    BoundingSphere.centre s = mk3 (5/4) 1 (3/4) /\
    BoundingSphere.radius s = sqrt (25/8) /\
    BoundingSphere.world_corner slab 1 = mk3 0 0 2 /\
    dist (BoundingSphere.centre s) (BoundingSphere.world_corner slab 1) = sqrt (33/8) /\
    BoundingSphere.radius s < dist (BoundingSphere.centre s) (BoundingSphere.world_corner slab 1).
Proof.
  assert (Hw : BoundingSphere.world_corner slab 1 = mk3 0 0 2).
  { unfold BoundingSphere.world_corner, slab, cuboid. cbn [matrix_world bound_box array_of].
    rewrite mat_mul_identity. reflexivity. }
  unfold BoundingSphere.init. rewrite box_slab_block, Hw.
  cbn [bind BoundingSphere.np_sum fold_left map BoundingSphere.np_max ret].
  eexists. split; [reflexivity|].
  cbn [BoundingSphere.centre BoundingSphere.radius].
  assert (Hc : vdivs (vadd (vadd (vadd (vadd (vadd (vadd (vadd (vadd zero3
            (mk3 0 0 0)) (mk3 1 0 1)) (mk3 1 2 1)) (mk3 0 2 0)) (mk3 2 0 0))
            (mk3 2 0 2)) (mk3 2 2 2)) (mk3 2 2 0)) 8 = mk3 (5/4) 1 (3/4)).
  { unfold vdivs, vadd, zero3; cbn; f_equal; lra. }
  rewrite Hc.
  assert (Hd : dist (mk3 (5/4) 1 (3/4)) (mk3 0 0 2) = sqrt (33/8)).
  { apply norm_sq; cbn; lra. }
  assert (Hr : Rmax (Rmax (Rmax (Rmax (Rmax (Rmax (Rmax
            (norm (vsub (mk3 0 0 0) (mk3 (5/4) 1 (3/4))))
            (norm (vsub (mk3 1 0 1) (mk3 (5/4) 1 (3/4)))))
            (norm (vsub (mk3 1 2 1) (mk3 (5/4) 1 (3/4)))))
            (norm (vsub (mk3 0 2 0) (mk3 (5/4) 1 (3/4)))))
            (norm (vsub (mk3 2 0 0) (mk3 (5/4) 1 (3/4)))))
            (norm (vsub (mk3 2 0 2) (mk3 (5/4) 1 (3/4)))))
            (norm (vsub (mk3 2 2 2) (mk3 (5/4) 1 (3/4)))))
            (norm (vsub (mk3 2 2 0) (mk3 (5/4) 1 (3/4)))) = sqrt (25/8)).
  { rewrite (norm_sq (vsub (mk3 0 0 0) _) (25/8)) by (cbn; lra).
    rewrite (norm_sq (vsub (mk3 1 0 1) _) (9/8)) by (cbn; lra).
    rewrite (norm_sq (vsub (mk3 1 2 1) _) (9/8)) by (cbn; lra).
    rewrite (norm_sq (vsub (mk3 0 2 0) _) (25/8)) by (cbn; lra).
    rewrite (norm_sq (vsub (mk3 2 0 0) _) (17/8)) by (cbn; lra).
    rewrite (norm_sq (vsub (mk3 2 0 2) _) (25/8)) by (cbn; lra).
    rewrite (norm_sq (vsub (mk3 2 2 2) _) (25/8)) by (cbn; lra).
    rewrite (norm_sq (vsub (mk3 2 2 0) _) (17/8)) by (cbn; lra).
    repeat match goal with
    | |- context [Rmax (sqrt ?a) (sqrt ?b)] =>
        first [ rewrite (Rmax_left (sqrt a) (sqrt b)) by (apply sqrt_le_1_alt; lra)
              | rewrite (Rmax_right (sqrt a) (sqrt b)) by (apply sqrt_le_1_alt; lra) ]
    end.
    reflexivity. }
  rewrite Hr, Hd.
  repeat split; try reflexivity.
  apply sqrt_lt_1; lra.
Qed.

Lemma mat_mul_half_turn (v : V3) : mat_mul half_turn v = mk3 (- vx v) (- vy v) (vz v).
Proof. destruct v; unfold mat_mul, row_dot; cbn; f_equal; lra. Qed.

Lemma box_crates :
  BoundingSphere.box [crate; turned_crate] =
  inr [mk3 0 0 0; mk3 1 0 0; mk3 1 1 0; mk3 0 1 0; mk3 0 0 1; mk3 1 0 1; mk3 1 1 1; mk3 0 1 1].
Proof.
  unfold BoundingSphere.box. simpl seq. unfold mapM, BoundingSphere.box_row.
  rewrite !minmax_table by lia.
  unfold BoundingSphere.world_corner, crate, turned_crate.
  cbn [matrix_world bound_box map array_of]. rewrite !mat_mul_identity, !mat_mul_half_turn.
  cbn. rminmax. reflexivity.
Qed.

(** For the unit cube [crate] and its rotated copy [turned_crate], whose
    corners come in the very order that [minmax] reads, the sphere has
    centre (1/2, 1/2, 1/2) and radius sqrt(3/4), while the corner
    (-1, -1, 1) of [turned_crate] lies at distance sqrt(19/4). *)
Lemma sphere_crates :
  exists s,
    BoundingSphere.init [crate; turned_crate] None = inr s /\
    BoundingSphere.centre s = mk3 (1/2) (1/2) (1/2) /\
    BoundingSphere.radius s = sqrt (3/4) /\
    BoundingSphere.world_corner turned_crate 6 = mk3 (-1) (-1) 1 /\
    dist (BoundingSphere.centre s) (BoundingSphere.world_corner turned_crate 6)
      = sqrt (19/4) /\
    BoundingSphere.radius s
      < dist (BoundingSphere.centre s) (BoundingSphere.world_corner turned_crate 6).
Proof.
  assert (Hw : BoundingSphere.world_corner turned_crate 6 = mk3 (-1) (-1) 1).
  { unfold BoundingSphere.world_corner, turned_crate. cbn [matrix_world bound_box array_of].
    rewrite mat_mul_half_turn. reflexivity. }
  unfold BoundingSphere.init. rewrite box_crates, Hw.
  cbn [bind BoundingSphere.np_sum fold_left map BoundingSphere.np_max ret].
  eexists. split; [reflexivity|].
  cbn [BoundingSphere.centre BoundingSphere.radius].
  match goal with
  | |- vdivs ?v 8 = _ /\ _ =>
      assert (Hc : vdivs v 8 = mk3 (1/2) (1/2) (1/2))
        by (unfold vdivs, vadd, zero3; cbn; f_equal; lra)
  end.
  rewrite Hc.
  assert (Hcorner : forall b : V3,
             In b [mk3 0 0 0; mk3 1 0 0; mk3 1 1 0; mk3 0 1 0;
                   mk3 0 0 1; mk3 1 0 1; mk3 1 1 1; mk3 0 1 1] ->
             norm (vsub b (mk3 (1/2) (1/2) (1/2))) = sqrt (3/4)).
  { intros b Hb. apply norm_sq.
    repeat (destruct Hb as [<-|Hb]; [cbn; lra|]). contradiction. }
  rewrite !Hcorner by (cbn; tauto).
  rewrite !(Rmax_left (sqrt (3/4)) (sqrt (3/4))) by lra.
  assert (Hd : dist (mk3 (1/2) (1/2) (1/2)) (mk3 (-1) (-1) 1) = sqrt (19/4)).
  { apply norm_sq; cbn; lra. }
  rewrite Hd.
  repeat split; try reflexivity.
  apply sqrt_lt_1; lra.
Qed.

(** C2, at two failing inputs.  With the corners of every bounding box in
    the order of the host, the sphere around the axis-aligned boxes [slab]
    and [block] does not reach a corner of [slab]; with the corners in the
    order that [minmax] reads, the sphere around [crate] and its rotated
    copy [turned_crate] does not reach a corner of [turned_crate].  In both
    cases [__init__] returns a sphere whose radius is smaller than the
    distance from its centre to a world corner of an input object. *)
Theorem enclosure_misses_corner :
  (exists s,
      BoundingSphere.init [slab; block] None = inr s /\
      BoundingSphere.radius s
        < dist (BoundingSphere.centre s) (BoundingSphere.world_corner slab 1)) /\
  (exists s,
      BoundingSphere.init [crate; turned_crate] None = inr s /\
      BoundingSphere.radius s
        < dist (BoundingSphere.centre s) (BoundingSphere.world_corner turned_crate 6)).
Proof.
  split.
  - destruct sphere_slab_block as [s [Hs [_ [_ [_ [_ Hlt]]]]]].
    exists s. split; [exact Hs | exact Hlt].
  - destruct sphere_crates as [s [Hs [_ [_ [_ [_ Hlt]]]]]].
    exists s. split; [exact Hs | exact Hlt].
Qed.

(** ** The spatial index *)

Section Nearest.

Variable q : V3.

Lemma closer_step (seen : list (V3 * nat)) (r : V3 * nat * R) (item : V3 * nat) :
  nearest_of q seen r ->
  exists r', KDTree.closer q (Some r) item = Some r' /\ nearest_of q (seen ++ [item]) r'.
Proof.
  destruct r as [[p i] d]. intros [Hin [Hd Hmin]].
  unfold KDTree.closer. destruct item as [p1 i1]. cbn [fst snd].
  destruct (Rlt_dec (dist p1 q) d) as [Hlt|Hge].
  - eexists. split; [reflexivity|]. cbn. split; [|split].
    + apply in_or_app. right. left. reflexivity.
    + reflexivity.
    + intros p' i' H. apply in_app_or in H. destruct H as [H|[H|[]]].
      * specialize (Hmin p' i' H). lra.
      * inversion H; subst. lra.
  - eexists. split; [reflexivity|]. cbn. split; [|split].
    + apply in_or_app. left. exact Hin.
    + exact Hd.
    + intros p' i' H. apply in_app_or in H. destruct H as [H|[H|[]]].
      * apply Hmin with i'. exact H.
      * inversion H; subst. lra.
Qed.

Lemma closer_fold (l seen : list (V3 * nat)) (r : V3 * nat * R) :
  nearest_of q seen r ->
  exists r', fold_left (KDTree.closer q) l (Some r) = Some r' /\ nearest_of q (seen ++ l) r'.
Proof.
  revert seen r. induction l as [|item l IH]; intros seen r Hr.
  - exists r. rewrite app_nil_r. split; [reflexivity | exact Hr].
  - cbn [fold_left]. destruct (closer_step seen r item Hr) as [r1 [-> Hr1]].
    destruct (IH (seen ++ [item]) r1 Hr1) as [r2 [Hf Hr2]].
    exists r2. split; [exact Hf|]. rewrite <- app_assoc in Hr2. exact Hr2.
Qed.

Lemma nearest_cons (item : V3 * nat) (l : list (V3 * nat)) :
  exists r, KDTree.nearest q (item :: l) = Some r /\ nearest_of q (item :: l) r.
Proof.
  unfold KDTree.nearest. cbn [fold_left KDTree.closer].
  apply (closer_fold l [item] (fst item, snd item, dist (fst item) q)).
  destruct item as [p i]. cbn. split; [left; reflexivity|]. split; [reflexivity|].
  intros p' i' [H|[]]. inversion H; subst. lra.
Qed.

End Nearest.

Lemma insert_all_ok (m : Matrix) (l : list (nat * MeshVertex)) (tree : KDTree.t) :
  (List.length (KDTree.items tree) + List.length l <= KDTree.maxsize tree)%nat ->
  insert_all m tree l =
  inr (KDTree.mk (KDTree.maxsize tree)
         (KDTree.items tree ++ map (fun e => (mat_mul m (co (snd e)), fst e)) l)
         (KDTree.count_balance tree)).
Proof.
  revert tree. induction l as [|[i vertex] l IH]; intros tree Hlen.
  - cbn. rewrite app_nil_r. destruct tree; reflexivity.
  - cbn [insert_all]. unfold KDTree.insert.
    cbn [List.length] in Hlen.
    destruct (Nat.ltb_spec (List.length (KDTree.items tree)) (KDTree.maxsize tree)); [|lia].
    cbn [bind ret]. rewrite IH.
    + cbn. rewrite <- app_assoc. reflexivity.
    + cbn. rewrite length_app. cbn. lia.
Qed.

Lemma length_enumerate_from {A} (l : list A) (n : nat) :
  List.length (enumerate_from n l) = List.length l.
Proof. revert n. induction l; intros n; cbn; [reflexivity | f_equal; auto]. Qed.

Lemma landscape_tree_ok (landscape : Object) :
  landscape_tree landscape =
  inr (KDTree.mk (List.length (vertices landscape)) (world_points landscape)
         (List.length (world_points landscape))).
Proof.
  unfold landscape_tree. rewrite insert_all_ok.
  - reflexivity.
  - cbn. unfold enumerate. rewrite length_enumerate_from. lia.
Qed.

(** C8, as the code has it.  [landscape_tree] never fails.  On a landscape
    with vertices, [find] returns an indexed point, with its number and its
    distance to the query, and no indexed point is closer to the query; with
    exactly one vertex that vertex's world position is returned whatever the
    query.  On a landscape without vertices the tree is built all the same
    and [find] returns the triple of [None]. *)
Theorem landscape_tree_find (landscape : Object) (q : V3) :
  exists tree,
    landscape_tree landscape = inr tree /\
    match vertices landscape with
    | [] => KDTree.find tree q = inr None
    | v :: rest =>
        exists p i d,
          KDTree.find tree q = inr (Some (p, i, d)) /\
          In (p, i) (world_points landscape) /\
          d = dist p q /\
          (forall p' i', In (p', i') (world_points landscape) -> d <= dist p' q) /\
          (rest = [] -> p = mat_mul (matrix_world landscape) (co v) /\ i = 0%nat)
    end.
Proof.
  eexists. split; [apply landscape_tree_ok|].
  unfold KDTree.find. cbn [KDTree.count_balance KDTree.items].
  rewrite Nat.eqb_refl.
  unfold world_points, enumerate.
  destruct (vertices landscape) as [|v rest] eqn:Hv.
  - reflexivity.
  - cbn [enumerate_from map fst snd].
    match goal with
    | |- context [KDTree.nearest q (?item :: ?l)] =>
        destruct (nearest_cons q item l) as [[[p i] d] [Hn [Hin [Hd Hmin]]]]
    end.
    exists p, i, d. rewrite Hn. split; [reflexivity|].
    split; [exact Hin|]. split; [exact Hd|]. split; [exact Hmin|].
    intros ->. cbn in Hin. destruct Hin as [H|[]]. inversion H. split; reflexivity.
Qed.

(** C8 as stated fails on the landscape [bare], which has no vertices:
    building the index from zero points raises nothing, and [find] on the
    resulting tree returns the triple of [None]. *)
Lemma landscape_tree_empty_no_error :
  vertices Examples.bare = [] /\
  landscape_tree Examples.bare = inr (KDTree.mk 0 [] 0) /\
  KDTree.find (KDTree.mk 0 [] 0) zero3 = inr None.
Proof. repeat split. Qed.

(** ** Camera sampling *)

Lemma skip_skip (n m : nat) (g : Rng) : skip n (skip m g) = skip (n + m) g.
Proof. unfold skip; cbn. f_equal. lia. Qed.

Lemma random_normal_ok (mu sigma : R) (g : Rng) :
  0 <= sigma -> random_normal mu sigma g = (inr (mu + sigma * raw g (pos g)), skip 1 g).
Proof.
  intros H. unfold random_normal. destruct (Rlt_dec sigma 0); [lra | reflexivity].
Qed.

Lemma random_normal_negative (mu sigma : R) (g : Rng) :
  sigma < 0 -> random_normal mu sigma g = (inl (ValueError "scale < 0"), g).
Proof.
  intros H. unfold random_normal. destruct (Rlt_dec sigma 0); [reflexivity | contradiction].
Qed.

Lemma drawn_S (self : Render.t) (md : R) (g : Rng) (i : nat) :
  Render.drawn self md (skip 3 g) i = Render.drawn self md g (S i).
Proof.
  unfold Render.drawn, skip. cbn [raw pos].
  replace (3 * i + (3 + pos g))%nat with (3 * S i + pos g)%nat by lia. reflexivity.
Qed.

Lemma tried_S (self : Render.t) (md : R) (g : Rng) (i : nat) :
  Render.tried self md (skip 3 g) i = Render.tried self md g (S i).
Proof. unfold Render.tried. rewrite drawn_S. reflexivity. Qed.

Lemma drawn_skip (self : Render.t) (md : R) (g : Rng) (k : nat) :
  Render.drawn self md (skip (3 * k) g) 0 = Render.drawn self md g k.
Proof.
  unfold Render.drawn, skip. cbn [raw pos].
  replace (3 * 0 + (3 * k + pos g))%nat with (3 * k + pos g)%nat by lia. reflexivity.
Qed.

(** One draw of a candidate, by the sign of the scale of its distance. *)
Lemma candidate_ok (self : Render.t) (md : R) (g : Rng) :
  0 <= md * snd (Render.camera_distance_factor (Render.opts self)) ->
  Render.candidate self md g = (inr (Render.drawn self md g 0), skip 3 g).
Proof.
  intros H. unfold Render.candidate. rewrite (random_normal_ok _ _ _ H). reflexivity.
Qed.

Lemma candidate_negative (self : Render.t) (md : R) (g : Rng) :
  md * snd (Render.camera_distance_factor (Render.opts self)) < 0 ->
  Render.candidate self md g = (inl (ValueError "scale < 0"), g).
Proof.
  intros H. unfold Render.candidate. rewrite (random_normal_negative _ _ _ H). reflexivity.
Qed.

(** One iteration of the loop, by the outcome of the test. *)
Lemma sample_loop_S (fuel : nat) (self : Render.t) (md : R) (g : Rng) :
  0 <= md * snd (Render.camera_distance_factor (Render.opts self)) ->
  Render.sample_loop (S fuel) self md g =
  match Render.above_landscape self (Render.tried self md g 0) with
  | inl e => Some (inl e, skip 3 g)
  | inr true => Some (inr (Render.drawn self md g 0), skip 3 g)
  | inr false => Render.sample_loop fuel self md (skip 3 g)
  end.
Proof.
  intros H. cbn [Render.sample_loop]. rewrite (candidate_ok _ _ _ H).
  unfold Render.tried.
  destruct (Render.drawn self md g 0) as [[theta phi] location]. reflexivity.
Qed.

Lemma sample_loop_negative (fuel : nat) (self : Render.t) (md : R) (g : Rng) :
  md * snd (Render.camera_distance_factor (Render.opts self)) < 0 ->
  Render.sample_loop (S fuel) self md g = Some (inl (ValueError "scale < 0"), g).
Proof.
  intros H. cbn [Render.sample_loop]. rewrite (candidate_negative _ _ _ H). reflexivity.
Qed.

(** While the candidates are rejected the loop goes on. *)
Lemma sample_loop_rejected (self : Render.t) (md : R) (k : nat) :
  0 <= md * snd (Render.camera_distance_factor (Render.opts self)) ->
  forall g,
    (forall i, (i < k)%nat ->
               Render.above_landscape self (Render.tried self md g i) = inr false) ->
    forall fuel, (fuel <= k)%nat -> Render.sample_loop fuel self md g = None.
Proof.
  intros Hscale. induction k as [|k IH]; intros g Hrej fuel Hfuel.
  - replace fuel with 0%nat by lia. reflexivity.
  - destruct fuel as [|fuel]; [reflexivity|].
    rewrite (sample_loop_S _ _ _ _ Hscale), (Hrej 0%nat) by lia.
    apply IH; [|lia].
    intros i Hi. rewrite tried_S. apply Hrej. lia.
Qed.

(** The first candidate that is not rejected ends the loop, then and for
    every larger number of iterations: it is returned when it passes, and
    the error of its test is raised otherwise. *)
Lemma sample_loop_ends (self : Render.t) (md : R) (k : nat) :
  0 <= md * snd (Render.camera_distance_factor (Render.opts self)) ->
  forall g,
    (forall i, (i < k)%nat ->
               Render.above_landscape self (Render.tried self md g i) = inr false) ->
    Render.above_landscape self (Render.tried self md g k) <> inr false ->
    forall fuel, (k < fuel)%nat ->
      Render.sample_loop fuel self md g =
      Some (match Render.above_landscape self (Render.tried self md g k) with
            | inl e => inl e
            | inr _ => inr (Render.drawn self md g k)
            end, skip (3 * S k) g).
Proof.
  intros Hscale. induction k as [|k IH]; intros g Hrej Hend fuel Hfuel;
    (destruct fuel as [|fuel]; [lia|]); rewrite (sample_loop_S _ _ _ _ Hscale).
  - destruct (Render.above_landscape self (Render.tried self md g 0)) as [e|[|]];
      [reflexivity | reflexivity | contradiction Hend; reflexivity].
  - rewrite (Hrej 0%nat) by lia. rewrite IH.
    + rewrite tried_S, drawn_S, skip_skip.
      replace (3 * S k + 3)%nat with (3 * S (S k))%nat by lia. reflexivity.
    + intros i Hi. rewrite tried_S. apply Hrej. lia.
    + rewrite tried_S. exact Hend.
    + lia.
Qed.

Lemma random_camera_negative (fuel : nat) (self : Render.t) (g : Rng) :
  snd (Render.camera_lens (Render.opts self)) < 0 ->
  Render.random_camera fuel self g = Some (inl (ValueError "scale < 0"), self, g).
Proof.
  intros H. unfold Render.random_camera. rewrite (random_normal_negative _ _ _ H).
  reflexivity.
Qed.

Lemma random_camera_unfold (fuel : nat) (self self' : Render.t) (g g1 : Rng) (f md : R) :
  0 <= snd (Render.camera_lens (Render.opts self)) ->
  Render.before_loop self g = (f, self', md, g1) ->
  Render.random_camera fuel self g =
  match Render.sample_loop fuel self' md g1 with
  | None => None
  | Some (inl e, g2) => Some (inl e, self', g2)
  | Some (inr (theta, phi, location), g2) =>
      Some (inr (Render.mkPose f location
                   (vadd (mk3 theta 0 (PI + phi))
                         (vmul (fst (random_randn3 g2))
                               (Render.camera_noise (Render.opts self'))))),
            self', snd (random_randn3 g2))
  end.
Proof.
  intros Hscale H. unfold Render.random_camera.
  rewrite (random_normal_ok _ _ _ Hscale).
  unfold Render.before_loop, draw in H.
  change (mkRng (raw g) (S (pos g))) with (skip 1 g) in H.
  cbv zeta in H. injection H as <- <- <- <-. cbv zeta.
  cbn [Render.sphere Render.camera Render.opts Render.landscape_tree Render.angle_y
       Render.set_lens Render.lens Render.angle_y_of_lens].
  match goal with
  | |- context [Render.sample_loop fuel ?s ?m ?g0] =>
      destruct (Render.sample_loop fuel s m g0) as [[[e|[[theta phi] location]] g2]|]
  end; reflexivity.
Qed.

(** The statements before the loop leave the options, and with them the
    scale of the distance, as they were. *)
Lemma before_loop_opts (self self' : Render.t) (g g1 : Rng) (f md : R) :
  Render.before_loop self g = (f, self', md, g1) ->
  Render.opts self' = Render.opts self /\
  Render.landscape_tree self' = Render.landscape_tree self /\
  Render.sphere self' = Render.sphere self /\
  g1 = skip 1 g.
Proof.
  unfold Render.before_loop, draw. intros H. inversion H; subst. repeat split.
Qed.

(** C5, as the code has it.  The loop has no bound on its iterations and
    raises no timeout error.  The call ends in these cases only.  With a
    negative scale for the draw of the lens it ends at once, with the
    [ValueError] of [np.random.normal] and the lens untouched; with a
    negative scale for the draw of the distance it ends in the first
    iteration, with the same error.  Otherwise it ends at the first
    candidate that the test does not reject, say that of iteration [k]: it
    is still running after [k] iterations, and from iteration [k + 1] on
    it has returned that candidate's location, when the candidate passes,
    or raised the error of the test.  When every candidate is rejected it
    is still running after any number of iterations. *)
Theorem random_camera_ends_at_first_unrejected
    (self self' : Render.t) (g g1 : Rng) (f md : R) :
  Render.before_loop self g = (f, self', md, g1) ->
  let sigma_lens := snd (Render.camera_lens (Render.opts self)) in
  let sigma_distance := md * snd (Render.camera_distance_factor (Render.opts self)) in
  let test i := Render.above_landscape self' (Render.tried self' md g1 i) in
  (sigma_lens < 0 ->
   forall fuel,
     Render.random_camera fuel self g = Some (inl (ValueError "scale < 0"), self, g)) /\
  (0 <= sigma_lens -> sigma_distance < 0 ->
   Render.random_camera 0 self g = None /\
   forall fuel,
     Render.random_camera (S fuel) self g
     = Some (inl (ValueError "scale < 0"), self', g1)) /\
  (0 <= sigma_lens -> 0 <= sigma_distance ->
   (forall k,
       (forall i, (i < k)%nat -> test i = inr false) ->
       (forall fuel, (fuel <= k)%nat -> Render.random_camera fuel self g = None) /\
       (test k = inr true ->
        exists pose g',
          (forall fuel, (k < fuel)%nat ->
             Render.random_camera fuel self g = Some (inr pose, self', g')) /\
          Render.location pose = Render.tried self' md g1 k /\
          Render.focal_length pose = f) /\
       (forall e, test k = inl e ->
          forall fuel, (k < fuel)%nat ->
            Render.random_camera fuel self g
            = Some (inl e, self', skip (3 * S k) g1))) /\
   ((forall i, test i = inr false) ->
    forall fuel, Render.random_camera fuel self g = None)).
Proof.
  intros Hsetup sigma_lens sigma_distance test.
  destruct (before_loop_opts _ _ _ _ _ _ Hsetup) as [Hopts _].
  split; [intros Hneg fuel; apply random_camera_negative, Hneg|].
  split.
  - intros Hlens Hneg. split.
    + rewrite (random_camera_unfold _ _ _ _ _ _ _ Hlens Hsetup). reflexivity.
    + intros fuel. rewrite (random_camera_unfold _ _ _ _ _ _ _ Hlens Hsetup).
      rewrite sample_loop_negative; [reflexivity|]. rewrite Hopts. exact Hneg.
  - intros Hlens Hdist.
    assert (Hscale : 0 <= md * snd (Render.camera_distance_factor (Render.opts self')))
      by (rewrite Hopts; exact Hdist).
    split.
    + intros k Hrej. split; [|split].
      * intros fuel Hfuel. rewrite (random_camera_unfold _ _ _ _ _ _ _ Hlens Hsetup).
        rewrite (sample_loop_rejected self' md k Hscale g1 Hrej fuel Hfuel). reflexivity.
      * intros Hacc. unfold test in Hacc.
        destruct (Render.drawn self' md g1 k) as [[theta phi] location] eqn:Hdrawn.
        eexists; eexists. split; [|split].
        -- intros fuel Hfuel. rewrite (random_camera_unfold _ _ _ _ _ _ _ Hlens Hsetup).
           rewrite (sample_loop_ends self' md k Hscale g1 Hrej) by (rewrite ?Hacc; congruence || exact Hfuel).
           rewrite Hacc, Hdrawn. reflexivity.
        -- cbn [Render.location]. unfold Render.tried. rewrite Hdrawn. reflexivity.
        -- reflexivity.
      * intros e He fuel Hfuel. unfold test in He.
        rewrite (random_camera_unfold _ _ _ _ _ _ _ Hlens Hsetup).
        rewrite (sample_loop_ends self' md k Hscale g1 Hrej) by (rewrite ?He; congruence || exact Hfuel).
        rewrite He. reflexivity.
    + intros Hrej fuel. rewrite (random_camera_unfold _ _ _ _ _ _ _ Hlens Hsetup).
      rewrite (sample_loop_rejected self' md fuel Hscale g1); [reflexivity | | lia].
      intros i _. apply Hrej.
Qed.

(** *** The renderer [overhead h] with the generator of zeros *)

Import Examples.

Lemma landscape_tree_peak (h : R) : landscape_tree (peak h) = inr (peak_tree h).
Proof.
  rewrite landscape_tree_ok. unfold world_points, peak_tree, peak. cbn.
  rewrite mat_mul_identity. reflexivity.
Qed.

Lemma before_loop_overhead (h : R) :
  Render.before_loop (overhead h) zero_source = (16, overhead_set h, 12, skip 1 zero_source).
Proof.
  unfold Render.before_loop, draw, overhead, zero_source, overhead_set,
    Render.set_lens, Render.angle_y, skip. cbn.
  replace (0 + 1 / 4 * 0) with 0 by lra. rewrite exp_0.
  replace (PI / 2 / 2) with (PI / 4) by lra. rewrite tan_PI4.
  repeat f_equal; lra.
Qed.

Lemma overhead_lens_scale (h : R) :
  0 <= snd (Render.camera_lens (Render.opts (overhead h))).
Proof. cbn. lra. Qed.

Lemma overhead_distance_scale (h : R) :
  0 <= 12 * snd (Render.camera_distance_factor (Render.opts (overhead_set h))).
Proof. cbn. lra. Qed.

Lemma drawn_overhead (h : R) (g : Rng) (i : nat) :
  (forall n, raw g n = 0) ->
  Render.drawn (overhead_set h) 12 g i = (0, 0, mk3 0 0 4).
Proof.
  intros Hraw.
  unfold Render.drawn, overhead_set, overhead.
  cbn [Render.opts Render.sphere Render.camera_distance_factor Render.camera_theta
       BoundingSphere.centre fst snd].
  rewrite !Hraw.
  replace (0 + (PI / 2 - 0) * 0) with 0 by lra.
  replace (0 + (2 * PI - 0) * 0) with 0 by lra.
  rewrite Ropp_0, sin_0, cos_0.
  unfold vadd, vscale, zero3. cbn. repeat f_equal; lra.
Qed.

Lemma tried_overhead (h : R) (g : Rng) (i : nat) :
  (forall n, raw g n = 0) -> Render.tried (overhead_set h) 12 g i = mk3 0 0 4.
Proof.
  intros Hraw. unfold Render.tried. rewrite drawn_overhead; [reflexivity | exact Hraw].
Qed.

Lemma find_peak (h : R) (q : V3) :
  KDTree.find (peak_tree h) q = inr (Some (mk3 0 0 h, 0%nat, dist (mk3 0 0 h) q)).
Proof. reflexivity. Qed.

Lemma dist_vertical (a b : R) : b <= a -> dist (mk3 0 0 a) (mk3 0 0 b) = a - b.
Proof.
  intros H. unfold dist. rewrite (norm_sq _ ((a - b) * (a - b))) by (cbn; lra).
  apply sqrt_square. lra.
Qed.

(** The test for a terrain vertex at height [h] at or above the candidate
    (0, 0, 4): it passes exactly when the vertex is less than 4 away. *)
Lemma above_landscape_overhead (h : R) :
  4 <= h ->
  Render.above_landscape (overhead_set h) (mk3 0 0 4) =
  inr (if Rgt_dec 4 (h - 4) then true else false).
Proof.
  intros Hh. unfold Render.above_landscape. cbn [Render.landscape_tree overhead_set].
  rewrite find_peak. cbn [bind Render.closest_vertex_2 Render.float_gt vnth vz].
  rewrite dist_vertical by exact Hh. reflexivity.
Qed.

(** C1, at the failing input.  The terrain is the single vertex (0, 0, 5)
    and the first candidate is (0, 0, 4), at distance 1 from it.  The test
    compares the candidate's z with entry 2 of the triple that [find]
    returns, the distance: 4 > 1, so the candidate is accepted and returned,
    although it lies below the nearest terrain point. *)
Theorem random_camera_accepts_below_terrain :
  exists pose self' g',
    landscape_tree (peak 5) = inr (peak_tree 5) /\
    Render.random_camera 1 (overhead 5) zero_source = Some (inr pose, self', g') /\
    Render.location pose = mk3 0 0 4 /\
    KDTree.find (peak_tree 5) (Render.location pose) = inr (Some (mk3 0 0 5, 0%nat, 1)) /\
    vz (Render.location pose) < vz (mk3 0 0 5).
Proof.
  rewrite (random_camera_unfold _ _ _ _ _ _ _ (overhead_lens_scale 5)
             (before_loop_overhead 5)).
  rewrite (sample_loop_S _ _ _ _ (overhead_distance_scale 5)).
  rewrite tried_overhead by reflexivity.
  rewrite above_landscape_overhead by lra.
  destruct (Rgt_dec 4 (5 - 4)) as [_|H]; [|exfalso; apply H; lra].
  rewrite drawn_overhead by reflexivity.
  eexists; eexists; eexists.
  split; [apply landscape_tree_peak|].
  split; [reflexivity|]. cbn [Render.location].
  split; [reflexivity|].
  split; [|cbn; lra].
  rewrite find_peak, dist_vertical by lra. repeat f_equal. lra.
Qed.

(** With the terrain vertex at (0, 0, 10) every candidate is (0, 0, 4), at
    distance 6, and is rejected. *)
Lemma overhead_10_rejected (fuel : nat) :
  Render.random_camera fuel (overhead 10) zero_source = None.
Proof.
  rewrite (random_camera_unfold _ _ _ _ _ _ _ (overhead_lens_scale 10)
             (before_loop_overhead 10)).
  rewrite (sample_loop_rejected (overhead_set 10) 12 fuel (overhead_distance_scale 10));
    [reflexivity | | lia].
  intros i _. rewrite tried_overhead by reflexivity.
  rewrite above_landscape_overhead by lra.
  destruct (Rgt_dec 4 (10 - 4)) as [H|_]; [exfalso; lra | reflexivity].
Qed.

(** C5 as stated fails on [overhead 10]: there is no number of iterations
    after which [random_camera] has returned a pose or raised an error. *)
Lemma random_camera_never_ends :
  ~ exists fuel outcome,
      Render.random_camera fuel (overhead 10) zero_source = Some outcome.
Proof.
  intros [fuel [outcome H]]. rewrite overhead_10_rejected in H. discriminate.
Qed.

(** The theorem for C5 at [overhead 5]: candidate 0 is accepted. *)
Lemma random_camera_ends_at_first_unrejected_witness :
  Render.before_loop (overhead 5) zero_source =
    (16, overhead_set 5, 12, skip 1 zero_source) /\
  exists pose g',
    (forall fuel, (0 < fuel)%nat ->
       Render.random_camera fuel (overhead 5) zero_source
       = Some (inr pose, overhead_set 5, g')) /\
    Render.location pose = Render.tried (overhead_set 5) 12 (skip 1 zero_source) 0 /\
    Render.focal_length pose = 16.
Proof.
  split; [apply before_loop_overhead|].
  pose proof (random_camera_ends_at_first_unrejected
                (overhead 5) (overhead_set 5) zero_source (skip 1 zero_source) 16 12
                (before_loop_overhead 5)) as H.
  cbv zeta in H. destruct H as [_ [_ H]].
  destruct (H (overhead_lens_scale 5) (overhead_distance_scale 5)) as [Hk _].
  destruct (Hk 0%nat) as [_ [Hacc _]]; [intros i Hi; lia|].
  apply Hacc.
  rewrite tried_overhead by reflexivity.
  rewrite above_landscape_overhead by lra.
  destruct (Rgt_dec 4 (5 - 4)) as [_|Hn]; [reflexivity | exfalso; apply Hn; lra].
Defined.

(** ** The groups document *)

Import Examples.

Lemma dict_get_set_same {V} (d : dict V) (k : string) (v : V) :
  dict_get (dict_set d k v) k = Some v.
Proof.
  induction d as [|[k' v'] d IH]; cbn.
  - rewrite String.eqb_refl. reflexivity.
  - destruct (String.eqb k k') eqn:E; cbn; rewrite E; [reflexivity | exact IH].
Qed.

(** What [write_groups] does when the name exists and overwrite is not
    requested: it raises the [ValueError], and the file is left empty. *)
Lemma write_groups_conflict (groups : option Modify.Groups) (filename name : string)
    (fs : Modify.FileSystem) (data : Modify.Document) :
  dict_get fs filename = Some (Modify.Json data) ->
  dict_mem data name = true ->
  Modify.write_groups groups filename name false fs =
  (inl (ValueError "Name already exists, specify overwrite to write anyway"),
   dict_set fs filename Modify.Empty).
Proof.
  intros Hfile Hmem. unfold Modify.write_groups. rewrite Hfile. cbn [Modify.json_load ret].
  rewrite Hmem. reflexivity.
Qed.

(** C3, at the failing input.  The file holds the definition ["bridge"];
    writing another definition under that name without overwrite raises the
    [ValueError], but the file it leaves is empty: the document is lost, and
    loading the definition it held now fails. *)
Theorem write_groups_conflict_empties_file :
  Modify.load_groups "groups.json" "bridge" groups_file = inr (Some bridge_groups) /\
  Modify.write_groups (Some span_groups) "groups.json" "bridge" false groups_file =
    (inl (ValueError "Name already exists, specify overwrite to write anyway"),
     [("groups.json"%string, Modify.Empty)]) /\
  Modify.load_groups "groups.json" "bridge" [("groups.json"%string, Modify.Empty)] =
    inl (ValueError "Expecting value: line 1 column 1 (char 0)").
Proof. repeat split. Qed.

(** ** Mesh simplification *)

Lemma norm_self (c : V3) : norm (vsub c c) = 0.
Proof. rewrite (norm_sq _ 0) by (cbn; lra). apply sqrt_0. Qed.

Lemma far_from_self (c : V3) : far_from c c = false.
Proof.
  unfold far_from. rewrite norm_self.
  destruct (Rlt_dec 0 (1/2)) as [_|H]; [reflexivity | exfalso; apply H; lra].
Qed.

(** [dissolve_near] keeps, in order and unselected, the vertices that are
    not within 0.5 of the point. *)
Lemma dissolve_near_filter (point : V3) (mesh : Modify.Mesh) :
  Modify.dissolve_near point mesh =
  map (fun vert => mkVert (co vert) false)
      (filter (fun vert => far_from point (co vert)) mesh).
Proof.
  unfold Modify.dissolve_near, Modify.dissolve_verts, Modify.select_near,
    Modify.deselect_all.
  induction mesh as [|vert mesh IH]; [reflexivity|].
  cbn [map filter]. unfold far_from at 1. cbn [co].
  destruct (Rlt_dec (norm (vsub (co vert) point)) (1/2)); cbn [select negb map].
  - exact IH.
  - f_equal. exact IH.
Qed.

Lemma dissolve_near_co (point : V3) (mesh : Modify.Mesh) :
  map co (Modify.dissolve_near point mesh) = filter (far_from point) (map co mesh).
Proof.
  rewrite dissolve_near_filter.
  induction mesh as [|vert mesh IH]; [reflexivity|].
  cbn [filter map]. destruct (far_from point (co vert)); cbn [map co]; [f_equal|]; exact IH.
Qed.

(** C9.  [dissolve_near_selected_vertex] raises its [ValueError] exactly
    when the number of selected vertices is not one, and raises nothing
    else.  With exactly one vertex selected it returns the mesh of
    [dissolve_near] at that vertex's position, whose vertices are those of
    the mesh less than 0.5 away from that position removed: a position is
    kept exactly when its Euclidean distance to the selected one is not
    below 0.5. *)
Theorem dissolve_near_selected_vertex_spec (mesh : Modify.Mesh) :
  (Modify.dissolve_near_selected_vertex mesh =
     inl (ValueError "Exactly one vertex must be selected.") <->
   List.length (filter select mesh) <> 1%nat) /\
  (forall e, Modify.dissolve_near_selected_vertex mesh = inl e ->
             e = ValueError "Exactly one vertex must be selected.") /\
  (forall v, filter select mesh = [v] ->
     Modify.dissolve_near_selected_vertex mesh = inr (Modify.dissolve_near (co v) mesh) /\
     map co (Modify.dissolve_near (co v) mesh) = filter (far_from (co v)) (map co mesh) /\
     forall c, far_from (co v) c = true <-> 1/2 <= dist c (co v)).
Proof.
  unfold Modify.dissolve_near_selected_vertex.
  split; [|split].
  - destruct (Nat.eqb_spec (List.length (filter select mesh)) 1) as [E|E].
    + split; [discriminate | intros H; contradiction].
    + split; [intros _; exact E | reflexivity].
  - intros e. destruct (List.length (filter select mesh) =? 1)%nat; [discriminate|].
    intros H. inversion H. reflexivity.
  - intros v Hv. rewrite Hv. cbn. split; [reflexivity|].
    split; [apply dissolve_near_co|].
    intros c. unfold far_from, dist.
    destruct (Rlt_dec (norm (vsub c (co v))) (1/2)); split; intros H;
      try reflexivity; try discriminate; lra.
Qed.

Lemma getitem_valid (v : V3) (i : Z) : valid_index i -> exists c, getitem v i = inr c.
Proof.
  unfold valid_index, getitem. intros H.
  destruct (Z.ltb_spec i 0).
  - assert (Hi : (i = -3 \/ i = -2 \/ i = -1)%Z) by lia.
    destruct Hi as [-> | [-> | ->]]; cbn; eexists; reflexivity.
  - assert (Hi : (i = 0 \/ i = 1 \/ i = 2)%Z) by lia.
    destruct Hi as [-> | [-> | ->]]; cbn; eexists; reflexivity.
Qed.

Lemma filter_length_le {A} (f : A -> bool) (l : list A) :
  (List.length (filter f l) <= List.length l)%nat.
Proof. induction l as [|a l IH]; cbn; [lia|]. destruct (f a); cbn; lia. Qed.

Lemma filter_length_lt {A} (f : A -> bool) (l : list A) (a : A) :
  In a l -> f a = false -> (List.length (filter f l) < List.length l)%nat.
Proof.
  induction l as [|b l IH]; intros Hin Hf; [contradiction|].
  cbn. destruct Hin as [->|Hin].
  - rewrite Hf. pose proof (filter_length_le f l). lia.
  - specialize (IH Hin Hf). destruct (f b); cbn; lia.
Qed.

(** Dissolving near a vertex of the mesh removes at least that vertex. *)
Lemma dissolve_near_shrinks (vert : MeshVertex) (mesh : Modify.Mesh) :
  In vert mesh ->
  (List.length (Modify.dissolve_near (co vert) mesh) < List.length mesh)%nat.
Proof.
  intros Hin. rewrite dissolve_near_filter, length_map.
  apply (filter_length_lt _ mesh vert Hin). apply far_from_self.
Qed.

(** The outcome of one scan for a valid axis: either no vertex of [rest]
    is below the limit and the mesh is unchanged, or the neighbourhood of a
    vertex of [rest] has been dissolved. *)
Lemma dissolve_next_spec (mesh rest : Modify.Mesh) (axis_index : Z) (limit : R) :
  valid_index axis_index ->
  (Modify.dissolve_next mesh rest axis_index limit = inr (false, mesh) /\
   forall vert, In vert rest ->
     exists c, getitem (co vert) axis_index = inr c /\ limit <= c) \/
  (exists vert, In vert rest /\
     Modify.dissolve_next mesh rest axis_index limit =
     inr (true, Modify.dissolve_near (co vert) mesh)).
Proof.
  intros Hax. induction rest as [|vert rest IH].
  - left. split; [reflexivity | intros vert []].
  - cbn [Modify.dissolve_next].
    destruct (getitem_valid (co vert) axis_index Hax) as [c Hc]. rewrite Hc. cbn [bind].
    destruct (Rlt_dec c limit) as [Hlt|Hge].
    + right. exists vert. split; [left; reflexivity | reflexivity].
    + destruct IH as [[Hnext Hall]|[v [Hin Hnext]]].
      * left. split; [exact Hnext|].
        intros v [<-|Hin]; [exists c; split; [exact Hc | lra] | apply Hall, Hin].
      * right. exists v. split; [right; exact Hin | exact Hnext].
Qed.

Lemma limit_dissolve_terminates (axis_index : Z) (limit : R) (fuel : nat) :
  valid_index axis_index ->
  forall mesh : Modify.Mesh,
    (List.length mesh < fuel)%nat ->
    exists mesh',
      Modify.limit_dissolve fuel mesh axis_index limit = Some (inr mesh') /\
      forall vert, In vert mesh' ->
        exists c, getitem (co vert) axis_index = inr c /\ limit <= c.
Proof.
  intros Hax. induction fuel as [|fuel IH]; intros mesh Hlen; [lia|].
  cbn [Modify.limit_dissolve].
  destruct (dissolve_next_spec mesh mesh axis_index limit Hax)
    as [[Hnext Hall]|[vert [Hin Hnext]]]; rewrite Hnext.
  - exists mesh. split; [reflexivity | exact Hall].
  - apply IH. pose proof (dissolve_near_shrinks vert mesh Hin). lia.
Qed.

(** One scan is the search for the first vertex below the limit. *)
Lemma dissolve_next_first (mesh rest : Modify.Mesh) (axis_index : Z) (limit : R) :
  valid_index axis_index ->
  Modify.dissolve_next mesh rest axis_index limit =
  match first_below axis_index limit rest with
  | Some vert => inr (true, Modify.dissolve_near (co vert) mesh)
  | None => inr (false, mesh)
  end.
Proof.
  intros Hax. unfold first_below. induction rest as [|vert rest IH]; [reflexivity|].
  cbn [Modify.dissolve_next find]. unfold below_limit at 1.
  destruct (getitem_valid (co vert) axis_index Hax) as [c ->]. cbn [bind].
  destruct (Rlt_dec c limit); [reflexivity | exact IH].
Qed.

Lemma first_below_in (axis_index : Z) (limit : R) (mesh : Modify.Mesh) (vert : MeshVertex) :
  first_below axis_index limit mesh = Some vert -> In vert mesh.
Proof. intros H. apply find_some in H. apply H. Qed.

(** The loop follows the description, and ends within one more iteration
    than the mesh has vertices. *)
Lemma limit_dissolve_follows (axis_index : Z) (limit : R) (fuel : nat) :
  valid_index axis_index ->
  forall mesh : Modify.Mesh,
    (List.length mesh < fuel)%nat ->
    exists mesh',
      Modify.limit_dissolve fuel mesh axis_index limit = Some (inr mesh') /\
      dissolved_below axis_index limit mesh mesh'.
Proof.
  intros Hax. induction fuel as [|fuel IH]; intros mesh Hlen; [lia|].
  cbn [Modify.limit_dissolve]. rewrite (dissolve_next_first _ _ _ _ Hax).
  destruct (first_below axis_index limit mesh) as [vert|] eqn:Hfirst.
  - destruct (IH (Modify.dissolve_near (co vert) mesh)) as [mesh' [Hrun Hd]].
    + pose proof (dissolve_near_shrinks vert mesh (first_below_in _ _ _ _ Hfirst)). lia.
    + exists mesh'. split; [exact Hrun|]. apply (dissolved_step _ _ mesh vert); assumption.
  - exists mesh. split; [reflexivity|]. apply dissolved_done, Hfirst.
Qed.

(** C6.  For every mesh, valid axis and limit, [limit_dissolve] terminates:
    one more iteration than the mesh has vertices is enough for the loop to
    exit, without an error.  The mesh it leaves is the one its description
    gives: the neighbourhood of the first vertex found below the limit is
    dissolved and the scan starts again, until a full scan finds no such
    vertex (so that a mesh with no vertex below the limit is left as it
    is); and no vertex of the mesh it leaves has a coordinate below the
    limit along the axis. *)
Theorem limit_dissolve_total (mesh : Modify.Mesh) (axis_index : Z) (limit : R) :
  valid_index axis_index ->
  exists mesh',
    Modify.limit_dissolve (S (List.length mesh)) mesh axis_index limit = Some (inr mesh') /\
    dissolved_below axis_index limit mesh mesh' /\
    (first_below axis_index limit mesh = None -> mesh' = mesh) /\
    forall vert, In vert mesh' ->
      exists c, getitem (co vert) axis_index = inr c /\ ~ c < limit.
Proof.
  intros Hax.
  destruct (limit_dissolve_terminates axis_index limit (S (List.length mesh)) Hax mesh)
    as [mesh' [Hrun Hall]]; [lia|].
  destruct (limit_dissolve_follows axis_index limit (S (List.length mesh)) Hax mesh)
    as [mesh'' [Hrun' Hd]]; [lia|].
  assert (Heq : mesh'' = mesh') by congruence. subst mesh''.
  exists mesh'. split; [exact Hrun|]. split; [exact Hd|]. split.
  - intros Hnone. inversion Hd as [m H0 | m vert m' H0 H1]; subst; [reflexivity|].
    rewrite Hnone in H0. discriminate.
  - intros vert Hin. destruct (Hall vert Hin) as [c [Hc Hle]].
    exists c. split; [exact Hc | lra].
Qed.

(** The theorem for C6 on the mesh [column], along z, with limit 0. *)
Lemma limit_dissolve_total_witness :
  valid_index 2 /\
  exists mesh',
    Modify.limit_dissolve 5 column 2 0 = Some (inr mesh') /\
    dissolved_below 2 0 column mesh' /\
    forall vert, In vert mesh' ->
      exists c, getitem (co vert) 2 = inr c /\ ~ c < 0.
Proof.
  assert (Hax : valid_index 2) by (unfold valid_index; lia).
  split; [exact Hax|].
  destruct (limit_dissolve_total column 2 0 Hax) as [mesh' [Hrun [Hd [_ Hall]]]].
  exists mesh'. split; [exact Hrun|]. split; [exact Hd | exact Hall].
Defined.

(** ** Group scaling *)

Section ScaleProperties.

Import Modify.
Context {host : Host}.

(** *** The steps of the state monad *)

Lemma st_bind_cases {A B} (m : St A) (k : A -> St B) (w w' : World) (r : Exc B) :
  st_bind m k w = (r, w') ->
  (exists e, m w = (inl e, w') /\ r = inl e) \/
  (exists a w1, m w = (inr a, w1) /\ k a w1 = (r, w')).
Proof.
  unfold st_bind. destruct (m w) as [[e|a] w1]; intros H.
  - left. exists e. inversion H. split; reflexivity.
  - right. exists a, w1. split; [reflexivity | exact H].
Qed.

Lemma lift_run {A} (m : Exc A) (w w' : World) (r : Exc A) :
  lift m w = (r, w') -> r = m /\ w' = w.
Proof. unfold lift. intros H. inversion H. split; reflexivity. Qed.

Lemma object_run (name : string) (w w' : World) (r : Exc string) :
  object name w = (r, w') -> w' = w /\ (r = inr name \/ exists e, r = inl e).
Proof.
  unfold object. destruct (has_object (scn w) name); intros H; inversion H;
    (split; [reflexivity|]); [left; reflexivity | right; eexists; reflexivity].
Qed.

Lemma get_bounding_box_run (obj : string) (w w' : World) (r : Exc Box) :
  get_bounding_box obj w = (r, w') -> w' = w /\ r = inr (bounding_box (scn w) obj).
Proof. unfold get_bounding_box. intros H. inversion H. split; reflexivity. Qed.

Lemma scale_object_run (obj : string) (value : V3x) (axis : B3) (w w' : World)
    (r : Exc unit) :
  scale_object obj value axis w = (r, w') ->
  r = inr tt /\
  w' = mkWorld (transform_resize obj (resize_value axis value) (scn w))
               (ops w ++ [Resize obj (resize_value axis value)]).
Proof. unfold scale_object. intros H. inversion H. split; reflexivity. Qed.

Lemma select_group_run (group : list string) (w w' : World) (r : Exc unit) :
  select_group group w = (r, w') -> w' = w.
Proof.
  revert w w' r. induction group as [|name group IH]; intros w w' r H.
  - inversion H. reflexivity.
  - cbn [select_group] in H. apply st_bind_cases in H.
    destruct H as [[e [H _]]|[a [w1 [H1 H2]]]].
    + apply object_run in H. apply H.
    + apply object_run in H1. destruct H1 as [-> _]. apply (IH _ _ _ H2).
Qed.

Lemma translate_group_run (group : list string) (value : V3) (w w' : World)
    (r : Exc unit) :
  translate_group group value w = (r, w') ->
  (w' = w /\ exists e, r = inl e) \/
  (r = inr tt /\
   w' = mkWorld (transform_translate group value (scn w))
                (ops w ++ [Translate group value])).
Proof.
  unfold translate_group. intros H. apply st_bind_cases in H.
  destruct H as [[e [H ->]]|[a [w1 [H1 H2]]]].
  - left. split; [apply (select_group_run _ _ _ _ H) | eexists; reflexivity].
  - right. apply select_group_run in H1. subst w1. inversion H2. split; reflexivity.
Qed.

(** *** The record of a run *)

(** The loop over the scale group applies resizes only. *)
Lemma scale_members_ops (reference : string) (axis : B3) (start_ref end_ref : Box)
    (names : list string) :
  forall (w w' : World) (r : Exc unit),
    scale_members reference axis start_ref end_ref names w = (r, w') ->
    exists resizes, ops w' = ops w ++ resizes /\ translations resizes = [].
Proof.
  induction names as [|name names IH]; intros w w' r H.
  - inversion H. exists []. rewrite app_nil_r. split; reflexivity.
  - cbn [scale_members] in H. apply st_bind_cases in H.
    assert (Hmember : forall w1 r1,
               scale_member reference axis start_ref end_ref name w = (r1, w1) ->
               exists resizes, ops w1 = ops w ++ resizes /\ translations resizes = []).
    { intros w1 r1 Hm. unfold scale_member in Hm.
      destruct (String.eqb name reference).
      - inversion Hm. exists []. rewrite app_nil_r. split; reflexivity.
      - apply st_bind_cases in Hm. destruct Hm as [[e [Hm _]]|[a [w2 [Hm1 Hm]]]];
          [apply object_run in Hm; destruct Hm as [-> _]; exists [];
           rewrite app_nil_r; split; reflexivity|].
        apply object_run in Hm1. destruct Hm1 as [-> _].
        apply st_bind_cases in Hm. destruct Hm as [[e [Hm _]]|[b [w3 [Hm1 Hm]]]];
          [apply get_bounding_box_run in Hm; destruct Hm as [_ Hm]; discriminate|].
        apply get_bounding_box_run in Hm1. destruct Hm1 as [-> _].
        apply st_bind_cases in Hm. destruct Hm as [[e [Hm _]]|[c [w4 [Hm1 Hm]]]];
          [apply object_run in Hm; destruct Hm as [-> _]; exists [];
           rewrite app_nil_r; split; reflexivity|].
        apply object_run in Hm1. destruct Hm1 as [-> _].
        apply scale_object_run in Hm. destruct Hm as [_ ->]. cbn [ops].
        eexists. split; reflexivity. }
    destruct H as [[e [H _]]|[a [w1 [H1 H2]]]].
    + apply (Hmember _ _ H).
    + destruct (Hmember _ _ H1) as [rs1 [Hops1 Ht1]].
      destruct (IH _ _ _ H2) as [rs2 [Hops2 Ht2]].
      exists (rs1 ++ rs2). rewrite Hops2, Hops1, app_assoc. split; [reflexivity|].
      clear - Ht1 Ht2. induction rs1 as [|[n v|g v] rs1 IHr]; cbn in *;
        [exact Ht2 | apply IHr, Ht1 | discriminate].
Qed.

Lemma translations_app (l1 l2 : list op) :
  translations (l1 ++ l2) = translations l1 ++ translations l2.
Proof.
  induction l1 as [|[n v|g v] l1 IH]; cbn; [reflexivity | exact IH | f_equal; exact IH].
Qed.

Lemma net_translation_app (l1 l2 : list op) (name : string) :
  translations l1 = [] ->
  net_translation (l1 ++ l2) name = net_translation l2 name.
Proof.
  induction l1 as [|[n v|g v] l1 IH]; cbn; intros H;
    [reflexivity | apply IH, H | discriminate].
Qed.

Lemma existsb_eqb_false (name : string) (group : list string) :
  ~ In name group -> existsb (String.eqb name) group = false.
Proof.
  induction group as [|n group IH]; intros H; [reflexivity|].
  cbn. destruct (String.eqb_spec name n) as [->|_].
  - exfalso. apply H. left. reflexivity.
  - apply IH. intros Hin. apply H. right. exact Hin.
Qed.

Lemma net_translation_two (g1 g2 : list string) (v1 v2 : V3) (name : string) :
  ~ In name g1 -> ~ In name g2 ->
  net_translation [Translate g1 v1; Translate g2 v2] name = zero3.
Proof.
  intros H1 H2. cbn. rewrite (existsb_eqb_false _ _ H1), (existsb_eqb_false _ _ H2).
  reflexivity.
Qed.

(** C4, as the code has it.  A call of [scale] that returns has applied,
    after the resizes, exactly two translations, to the two groups other
    than the base and by the vectors of the base's formula, where
    [translate] is the change of the reference's bounding box masked by
    the axis; the members of the base group that belong to no other group
    receive no translation.  (The two vectors may themselves be zero.) *)
Theorem scale_translations (groups : Groups) (value : R) (axis_index : Z)
    (reference base : string) (w w' : World) :
  scale (Some groups) value axis_index reference base w = (inr tt, w') ->
  exists axis new,
    set_axis axis_index = inr axis /\
    ops w' = ops w ++ new /\
    let start_ref := bounding_box (scn w) reference in
    let end_ref :=
      bounding_box (transform_resize reference (resize_value axis (broadcast value))
                      (scn w)) reference in
    let translate := translation start_ref end_ref axis in
    (base = "scale"%string /\
     exists gmin gmax,
       dict_get groups "min" = Some gmin /\ dict_get groups "max" = Some gmax /\
       translations new = [(gmin, lower translate); (gmax, upper translate)] /\
       forall name, ~ In name gmin -> ~ In name gmax ->
                    net_translation new name = zero3) \/
    (base = "min"%string /\
     exists gscale gmax,
       dict_get groups "scale" = Some gscale /\ dict_get groups "max" = Some gmax /\
       translations new =
         [(gscale, vneg (lower translate));
          (gmax, vsub (upper translate) (lower translate))] /\
       forall name, ~ In name gscale -> ~ In name gmax ->
                    net_translation new name = zero3) \/
    (base = "max"%string /\
     exists gmin gscale,
       dict_get groups "min" = Some gmin /\ dict_get groups "scale" = Some gscale /\
       translations new =
         [(gmin, vsub (lower translate) (upper translate));
          (gscale, vneg (upper translate))] /\
       forall name, ~ In name gmin -> ~ In name gscale ->
                    net_translation new name = zero3).
Proof.
  intros H. unfold scale in H.
  apply st_bind_cases in H. destruct H as [[e [_ H]]|[axis [w1 [H1 H]]]]; [discriminate|].
  apply lift_run in H1. destruct H1 as [Haxis ->].
  apply st_bind_cases in H. destruct H as [[e [_ H]]|[o1 [w1 [H1 H]]]]; [discriminate|].
  apply object_run in H1. destruct H1 as [-> [Ho|[e Ho]]]; [|discriminate]. inversion Ho; subst o1.
  apply st_bind_cases in H. destruct H as [[e [_ H]]|[start_ref [w1 [H1 H]]]]; [discriminate|].
  apply get_bounding_box_run in H1. destruct H1 as [-> Hb]. inversion Hb; subst start_ref.
  apply st_bind_cases in H. destruct H as [[e [_ H]]|[o2 [w1 [H1 H]]]]; [discriminate|].
  apply object_run in H1. destruct H1 as [-> [Ho2|[e Ho2]]]; [|discriminate]. inversion Ho2; subst o2.
  apply st_bind_cases in H. destruct H as [[e [_ H]]|[u [w1 [H1 H]]]]; [discriminate|].
  apply scale_object_run in H1. destruct H1 as [_ ->].
  apply st_bind_cases in H. destruct H as [[e [_ H]]|[o3 [w1 [H1 H]]]]; [discriminate|].
  apply object_run in H1. destruct H1 as [-> [Ho3|[e Ho3]]]; [|discriminate]. inversion Ho3; subst o3.
  apply st_bind_cases in H. destruct H as [[e [_ H]]|[end_ref [w1 [H1 H]]]]; [discriminate|].
  apply get_bounding_box_run in H1. destruct H1 as [-> Hb']. inversion Hb'; subst end_ref.
  cbn [scn] in H.
  apply st_bind_cases in H. destruct H as [[e [_ H]]|[names [w1 [H1 H]]]]; [discriminate|].
  apply lift_run in H1. destruct H1 as [Hnames ->].
  apply st_bind_cases in H. destruct H as [[e [_ H]]|[u' [w2 [H1 H]]]]; [discriminate|].
  apply scale_members_ops in H1. destruct H1 as [resizes [Hops2 Hres]]. cbn [ops] in Hops2.
  set (translate := translation _ _ _) in *.
  assert (Hrun : forall key1 key2 v1 v2,
    st_bind (lift (subscript groups key1)) (fun group =>
      st_bind (translate_group group v1) (fun _ =>
        st_bind (lift (subscript groups key2)) (fun group =>
          translate_group group v2))) w2 = (inr tt, w') ->
    exists g1 g2,
      dict_get groups key1 = Some g1 /\ dict_get groups key2 = Some g2 /\
      ops w' = ops w2 ++ [Translate g1 v1; Translate g2 v2]).
  { intros key1 key2 v1 v2 Hr.
    apply st_bind_cases in Hr. destruct Hr as [[e [_ Hr]]|[g1 [w3 [Hr1 Hr]]]]; [discriminate|].
    apply lift_run in Hr1. destruct Hr1 as [Hg1 ->].
    apply st_bind_cases in Hr. destruct Hr as [[e [_ Hr]]|[u1 [w3 [Hr1 Hr]]]]; [discriminate|].
    apply translate_group_run in Hr1.
    destruct Hr1 as [[_ [e He]]|[_ ->]]; [discriminate|].
    apply st_bind_cases in Hr. destruct Hr as [[e [_ Hr]]|[g2 [w4 [Hr1 Hr]]]]; [discriminate|].
    apply lift_run in Hr1. destruct Hr1 as [Hg2 ->].
    apply translate_group_run in Hr.
    destruct Hr as [[_ [e He]]|[_ ->]]; [discriminate|].
    exists g1, g2. unfold subscript in Hg1, Hg2.
    destruct (dict_get groups key1); [|discriminate].
    destruct (dict_get groups key2); [|discriminate].
    inversion Hg1; inversion Hg2; subst.
    split; [reflexivity|]. split; [reflexivity|].
    cbn [ops]. rewrite <- app_assoc. reflexivity. }
  assert (Hnew : forall g1 g2 v1 v2,
    ops w' = ops w2 ++ [Translate g1 v1; Translate g2 v2] ->
    exists new,
      ops w' = ops w ++ new /\
      translations new = [(g1, v1); (g2, v2)] /\
      forall name, ~ In name g1 -> ~ In name g2 -> net_translation new name = zero3).
  { intros g1 g2 v1 v2 Hops.
    exists ((Resize reference (resize_value axis (broadcast value)) :: resizes)
              ++ [Translate g1 v1; Translate g2 v2]).
    split; [|split].
    - rewrite Hops, Hops2, <- !app_assoc. reflexivity.
    - rewrite translations_app. cbn [translations]. rewrite Hres. reflexivity.
    - intros name Hn1 Hn2. rewrite net_translation_app by exact Hres.
      apply net_translation_two; assumption. }
  exists axis.
  destruct (String.eqb_spec base "min") as [Hbase|_];
    [|destruct (String.eqb_spec base "scale") as [Hbase|_];
      [|destruct (String.eqb_spec base "max") as [Hbase|_]]].
  - destruct (Hrun _ _ _ _ H) as [g1 [g2 [Hg1 [Hg2 Hops]]]].
    destruct (Hnew _ _ _ _ Hops) as [new [Hn [Ht Hz]]].
    exists new. split; [symmetry; exact Haxis|]. split; [exact Hn|].
    right. left. split; [exact Hbase|]. exists g1, g2. repeat split; assumption.
  - destruct (Hrun _ _ _ _ H) as [g1 [g2 [Hg1 [Hg2 Hops]]]].
    destruct (Hnew _ _ _ _ Hops) as [new [Hn [Ht Hz]]].
    exists new. split; [symmetry; exact Haxis|]. split; [exact Hn|].
    left. split; [exact Hbase|]. exists g1, g2. repeat split; assumption.
  - destruct (Hrun _ _ _ _ H) as [g1 [g2 [Hg1 [Hg2 Hops]]]].
    destruct (Hnew _ _ _ _ Hops) as [new [Hn [Ht Hz]]].
    exists new. split; [symmetry; exact Haxis|]. split; [exact Hn|].
    right. right. split; [exact Hbase|]. exists g1, g2. repeat split; assumption.
  - apply lift_run in H. destruct H as [H _]. discriminate.
Qed.

(** *** Scaling by 1 *)

Lemma unchanged_refl (w : World) : unchanged w w.
Proof. split; [reflexivity|]. exists []. rewrite app_nil_r. split; [reflexivity | constructor]. Qed.

Lemma unchanged_trans (w1 w2 w3 : World) :
  unchanged w1 w2 -> unchanged w2 w3 -> unchanged w1 w3.
Proof.
  intros [Hs1 [n1 [Ho1 Hf1]]] [Hs2 [n2 [Ho2 Hf2]]]. split; [congruence|].
  exists (n1 ++ n2). rewrite Ho2, Ho1, app_assoc. split; [reflexivity|].
  apply Forall_app. split; assumption.
Qed.

Lemma resize_value_one (axis : B3) : resize_value axis (broadcast 1) = broadcast 1.
Proof.
  unfold resize_value, broadcast. cbn. repeat f_equal; lra.
Qed.

Lemma translation_same (b : Box) (axis : B3) :
  translation b b axis = mkBox zero3 zero3.
Proof.
  unfold translation, box_sub, vmul, vsub, zero3. cbn. repeat f_equal; lra.
Qed.

Lemma vneg_zero3 : vneg zero3 = zero3.
Proof. unfold vneg, zero3. cbn. f_equal; lra. Qed.

Lemma vsub_zero3 : vsub zero3 zero3 = zero3.
Proof. unfold vsub, zero3. cbn. f_equal; lra. Qed.

(** The ratio of the lengths of a box that is not flat, moved by the
    change of a reference box that has not changed. *)
Lemma vdiv_same (start_box ref : Box) (axis : B3) :
  nonflat start_box ->
  resize_value axis
    (vdiv (vsub (upper (box_add (box_sub start_box ref) ref))
                (lower (box_add (box_sub start_box ref) ref)))
          (vsub (upper start_box) (lower start_box))) = broadcast 1.
Proof.
  intros [Hx [Hy Hz]]. unfold vdiv, np_div, resize_value, broadcast. cbn.
  destruct (Req_dec_T (vx (upper start_box) - vx (lower start_box)) 0) as [E|_];
    [contradiction|].
  destruct (Req_dec_T (vy (upper start_box) - vy (lower start_box)) 0) as [E|_];
    [contradiction|].
  destruct (Req_dec_T (vz (upper start_box) - vz (lower start_box)) 0) as [E|_];
    [contradiction|].
  cbn. f_equal; f_equal; field; assumption.
Qed.

Section ByOne.

(** The host resizes by 1 and translates by 0 without changing the
    scene. *)
Hypothesis resize_by_one : forall name s, transform_resize name (broadcast 1) s = s.
Hypothesis translate_by_zero : forall group s, transform_translate group zero3 s = s.

Lemma translate_group_zero (group : list string) (w w' : World) (r : Exc unit) :
  translate_group group zero3 w = (r, w') -> unchanged w w'.
Proof.
  intros H. apply translate_group_run in H. destruct H as [[-> _]|[_ ->]].
  - apply unchanged_refl.
  - split; cbn; [apply translate_by_zero|].
    eexists. split; [reflexivity|]. constructor; [reflexivity | constructor].
Qed.

Lemma scale_members_by_one (reference : string) (axis : B3) (ref : Box)
    (names : list string) :
  forall (w w' : World) (r : Exc unit),
    (forall name, In name names -> name <> reference ->
                  nonflat (bounding_box (scn w) name)) ->
    scale_members reference axis ref ref names w = (r, w') ->
    unchanged w w'.
Proof.
  induction names as [|name names IH]; intros w w' r Hflat H.
  - inversion H. apply unchanged_refl.
  - cbn [scale_members] in H. apply st_bind_cases in H.
    assert (Hmember : forall w1 r1,
               scale_member reference axis ref ref name w = (r1, w1) ->
               unchanged w w1).
    { intros w1 r1 Hm. unfold scale_member in Hm.
      destruct (String.eqb_spec name reference) as [_|Hne].
      - inversion Hm. apply unchanged_refl.
      - apply st_bind_cases in Hm. destruct Hm as [[e [Hm _]]|[a [w2 [Hm1 Hm]]]];
          [apply object_run in Hm; destruct Hm as [-> _]; apply unchanged_refl|].
        apply object_run in Hm1. destruct Hm1 as [-> Ha].
        apply st_bind_cases in Hm. destruct Hm as [[e [Hm _]]|[b [w3 [Hm1 Hm]]]];
          [apply get_bounding_box_run in Hm; destruct Hm as [_ Hm]; discriminate|].
        apply get_bounding_box_run in Hm1. destruct Hm1 as [-> Hb].
        apply st_bind_cases in Hm. destruct Hm as [[e [Hm _]]|[c [w4 [Hm1 Hm]]]];
          [apply object_run in Hm; destruct Hm as [-> _]; apply unchanged_refl|].
        apply object_run in Hm1. destruct Hm1 as [-> _].
        apply scale_object_run in Hm. destruct Hm as [_ ->].
        destruct Ha as [Ha|[e Ha]]; [|discriminate]. inversion Ha; subst a.
        inversion Hb; subst b.
        rewrite vdiv_same by (apply Hflat; [left; reflexivity | exact Hne]).
        split; cbn; [apply resize_by_one|].
        eexists. split; [reflexivity|]. constructor; [reflexivity | constructor]. }
    destruct H as [[e [H _]]|[a [w1 [H1 H2]]]].
    + apply (Hmember _ _ H).
    + pose proof (Hmember _ _ H1) as Hu.
      apply (unchanged_trans _ _ _ Hu).
      apply (IH _ _ _) with (2 := H2).
      intros n Hin Hne. destruct Hu as [-> _]. apply Hflat; [right; exact Hin | exact Hne].
Qed.

(** C7, as the code has it.  On a host that resizes by 1 and translates
    by 0 without changing the scene, and when the members of the scale
    group other than the reference have a bounding box with a non-zero
    extent along every axis, a call of [scale] with factor 1 leaves the
    scene as it was, whatever the axis, the base and the outcome: every
    resize it applies is by 1 along every axis and every translation is
    by the zero vector. *)
Theorem scale_by_one_changes_nothing (groups : Groups) (axis_index : Z)
    (reference base : string) (w w' : World) (r : Exc unit) :
  (forall names name,
      dict_get groups "scale" = Some names -> In name names -> name <> reference ->
      nonflat (bounding_box (scn w) name)) ->
  scale (Some groups) 1 axis_index reference base w = (r, w') ->
  scn w' = scn w /\
  exists new, ops w' = ops w ++ new /\ Forall trivial_op new.
Proof.
  intros Hflat H. change (unchanged w w'). unfold scale in H.
  apply st_bind_cases in H. destruct H as [[e [H _]]|[axis [w1 [H1 H]]]];
    [apply lift_run in H; destruct H as [_ ->]; apply unchanged_refl|].
  apply lift_run in H1. destruct H1 as [_ ->].
  apply st_bind_cases in H. destruct H as [[e [H _]]|[o1 [w1 [H1 H]]]];
    [apply object_run in H; destruct H as [-> _]; apply unchanged_refl|].
  apply object_run in H1. destruct H1 as [-> Ho1].
  destruct Ho1 as [Ho1|[e Ho1]]; [|discriminate]. inversion Ho1; subst o1.
  apply st_bind_cases in H. destruct H as [[e [H _]]|[start_ref [w1 [H1 H]]]];
    [apply get_bounding_box_run in H; destruct H as [_ H]; discriminate|].
  apply get_bounding_box_run in H1. destruct H1 as [-> Hb]. inversion Hb; subst start_ref.
  apply st_bind_cases in H. destruct H as [[e [H _]]|[o2 [w1 [H1 H]]]];
    [apply object_run in H; destruct H as [-> _]; apply unchanged_refl|].
  apply object_run in H1. destruct H1 as [-> Ho2].
  destruct Ho2 as [Ho2|[e Ho2]]; [|discriminate]. inversion Ho2; subst o2.
  apply st_bind_cases in H. destruct H as [[e [H _]]|[u [w1 [H1 H]]]];
    [apply scale_object_run in H; destruct H as [H _]; discriminate|].
  apply scale_object_run in H1. destruct H1 as [_ ->].
  rewrite resize_value_one, resize_by_one in H.
  set (w1 := mkWorld (scn w) (ops w ++ [Resize reference (broadcast 1)])) in H.
  assert (Hw1 : unchanged w w1).
  { split; [reflexivity|]. eexists. split; [reflexivity|].
    constructor; [reflexivity | constructor]. }
  apply (unchanged_trans _ _ _ Hw1).
  apply st_bind_cases in H. destruct H as [[e [H _]]|[o3 [w2 [H1 H]]]];
    [apply object_run in H; destruct H as [-> _]; apply unchanged_refl|].
  apply object_run in H1. destruct H1 as [-> Ho3].
  destruct Ho3 as [Ho3|[e Ho3]]; [|discriminate]. inversion Ho3; subst o3.
  apply st_bind_cases in H. destruct H as [[e [H _]]|[end_ref [w2 [H1 H]]]];
    [apply get_bounding_box_run in H; destruct H as [_ H]; discriminate|].
  apply get_bounding_box_run in H1. destruct H1 as [-> Hb']. inversion Hb'; subst end_ref.
  cbn [scn w1] in H.
  apply st_bind_cases in H. destruct H as [[e [H _]]|[names [w2 [H1 H]]]];
    [apply lift_run in H; destruct H as [_ ->]; apply unchanged_refl|].
  apply lift_run in H1. destruct H1 as [Hnames ->].
  apply st_bind_cases in H.
  assert (Hloop : forall r2 w2,
             scale_members reference axis (bounding_box (scn w) reference)
               (bounding_box (scn w) reference) names w1 = (r2, w2) ->
             unchanged w1 w2).
  { intros r2 w2 Hm. apply (scale_members_by_one _ _ _ _ _ _ _) with (2 := Hm).
    intros name Hin Hne. cbn [scn w1]. apply (Hflat names name); [|exact Hin | exact Hne].
    unfold subscript in Hnames. destruct (dict_get groups "scale"); [|discriminate].
    inversion Hnames. reflexivity. }
  destruct H as [[e [H _]]|[u' [w2 [H1 H]]]]; [apply (Hloop _ _ H)|].
  apply (unchanged_trans _ _ _ (Hloop _ _ H1)).
  rewrite translation_same in H. cbn [lower upper] in H.
  rewrite ?vneg_zero3, ?vsub_zero3 in H.
  assert (Hrun : forall key1 key2,
    st_bind (lift (subscript groups key1)) (fun group =>
      st_bind (translate_group group zero3) (fun _ =>
        st_bind (lift (subscript groups key2)) (fun group =>
          translate_group group zero3))) w2 = (r, w') ->
    unchanged w2 w').
  { intros key1 key2 Hr.
    apply st_bind_cases in Hr. destruct Hr as [[e [Hr _]]|[g1 [w3 [Hr1 Hr]]]];
      [apply lift_run in Hr; destruct Hr as [_ ->]; apply unchanged_refl|].
    apply lift_run in Hr1. destruct Hr1 as [_ ->].
    apply st_bind_cases in Hr. destruct Hr as [[e [Hr _]]|[u1 [w3 [Hr1 Hr]]]];
      [apply (translate_group_zero _ _ _ _ Hr)|].
    apply (unchanged_trans _ _ _ (translate_group_zero _ _ _ _ Hr1)).
    apply st_bind_cases in Hr. destruct Hr as [[e [Hr _]]|[g2 [w4 [Hr1' Hr]]]];
      [apply lift_run in Hr; destruct Hr as [_ ->]; apply unchanged_refl|].
    apply lift_run in Hr1'. destruct Hr1' as [_ ->].
    apply (translate_group_zero _ _ _ _ Hr). }
  destruct (String.eqb base "min"); [apply (Hrun _ _ H)|].
  destruct (String.eqb base "scale"); [apply (Hrun _ _ H)|].
  destruct (String.eqb base "max"); [apply (Hrun _ _ H)|].
  apply lift_run in H. destruct H as [_ ->]. apply unchanged_refl.
Qed.

End ByOne.

End ScaleProperties.

(** *** Group scaling on scenes of boxes *)

Import Examples.

Lemma resize_box_one (b : Modify.Box) : BoxScene.resize_box (Modify.broadcast 1) b = b.
Proof.
  destruct b as [[x0 y0 z0] [x1 y1 z1]].
  unfold BoxScene.resize_box, BoxScene.resize_interval. cbn.
  f_equal; f_equal; lra.
Qed.

Lemma box_scene_resize_one (name : string) (s : dict Modify.Box) :
  BoxScene.resize name (Modify.broadcast 1) s = s.
Proof.
  unfold BoxScene.resize. induction s as [|[n b] s IH]; [reflexivity|].
  cbn [map fst snd]. rewrite IH, resize_box_one. destruct (String.eqb name n); reflexivity.
Qed.

Lemma translate_box_zero (b : Modify.Box) : BoxScene.translate_box zero3 b = b.
Proof.
  destruct b as [[x0 y0 z0] [x1 y1 z1]].
  unfold BoxScene.translate_box, vadd, zero3. cbn. f_equal; f_equal; lra.
Qed.

Lemma box_scene_translate_zero (group : list string) (s : dict Modify.Box) :
  BoxScene.translate group zero3 s = s.
Proof.
  unfold BoxScene.translate. induction s as [|[n b] s IH]; [reflexivity|].
  cbn [map fst snd]. rewrite IH, translate_box_zero.
  destruct (existsb (String.eqb n) group); reflexivity.
Qed.

(** The theorem for C4 on [bridge]: the deck is doubled along x, the scale
    group being the base. *)
Lemma scale_translations_witness :
  let run := Modify.scale (host := BoxScene.host) (Some bridge_groups) 2 0 "deck" "scale"
               (world_of bridge) in
  run = (inr tt, snd run) /\
  exists axis new,
    Modify.set_axis 0 = inr axis /\
    Modify.ops (snd run) = Modify.ops (world_of bridge) ++ new.
Proof.
  intros run.
  assert (Hrun : run = (inr tt, snd run)) by reflexivity.
  split; [exact Hrun|].
  destruct (scale_translations (host := BoxScene.host) bridge_groups 2 0 "deck" "scale"
              (world_of bridge) (snd run) Hrun) as [axis [new [Haxis [Hops _]]]].
  exists axis, new. split; [exact Haxis | exact Hops].
Defined.

(** C4 as stated fails on [flat_bridge], whose deck has no thickness:
    doubling it along z changes nothing, both translations are by the zero
    vector, and all three groups, not the base alone, have undergone zero net
    translation. *)
Lemma scale_flat_reference_moves_no_group :
  exists w',
    Modify.scale (host := BoxScene.host) (Some bridge_groups) 2 2 "deck" "scale"
      (world_of flat_bridge) = (inr tt, w') /\
    2 <> 1 /\
    translations (Modify.ops w') = [(["pier_a"%string], zero3); (["pier_b"%string], zero3)] /\
    Modify.net_translation (Modify.ops w') "deck" = zero3 /\
    Modify.net_translation (Modify.ops w') "pier_a" = zero3 /\
    Modify.net_translation (Modify.ops w') "pier_b" = zero3.
Proof.
  eexists. split; [cbn; reflexivity|]. split; [lra|].
  assert (Hz : forall a b c d : R,
             vmul (vsub (mk3 a b ((1 + 1) / 2 + (1 * (2 - 1) + 1) * (1 - (1 + 1) / 2)))
                        (mk3 c d 1))
                  (Modify.mask {| Modify.b0 := false; Modify.b1 := false; Modify.b2 := true |})
             = zero3).
  { intros. unfold vmul, vsub, Modify.mask, Modify.b2r, zero3. cbn. f_equal; lra. }
  cbn. rewrite !Hz.
  repeat split; unfold vadd, zero3; cbn; f_equal; lra.
Qed.

(** The theorem for C7 on [railed_bridge]: the box scene obeys the two
    laws, the rail is not flat, and the call changes nothing. *)
Lemma scale_by_one_changes_nothing_witness :
  nonflat (BoxScene.box_of railed_bridge "rail") /\
  let run := Modify.scale (host := BoxScene.host) (Some railed_groups) 1 0 "deck" "min"
               (world_of railed_bridge) in
  Modify.scn (snd run) = railed_bridge /\
  exists new, Modify.ops (snd run) = [] ++ new /\ Forall Modify.trivial_op new.
Proof.
  assert (Hrail : nonflat (BoxScene.box_of railed_bridge "rail")).
  { unfold nonflat. cbn. repeat split; lra. }
  split; [exact Hrail|].
  apply (scale_by_one_changes_nothing (host := BoxScene.host)
           box_scene_resize_one box_scene_translate_zero
           railed_groups 0 "deck" "min" (world_of railed_bridge)
           (snd (Modify.scale (host := BoxScene.host) (Some railed_groups) 1 0 "deck" "min"
                   (world_of railed_bridge)))
           (fst (Modify.scale (host := BoxScene.host) (Some railed_groups) 1 0 "deck" "min"
                   (world_of railed_bridge)))).
  - intros names name Hnames Hin Hne. cbn in Hnames. inversion Hnames; subst names.
    destruct Hin as [<-|[<-|[]]]; [contradiction Hne; reflexivity | exact Hrail].
  - apply surjective_pairing.
Defined.

(** C7 as stated fails on [sheet_bridge], where a sheet without thickness
    belongs to the scale group: with factor 1 its length ratio along z is
    0/0, and the resize applied to it is not by 1 along every axis. *)
Lemma scale_by_one_flat_member :
  exists w' value,
    Modify.scale (host := BoxScene.host) (Some sheet_groups) 1 2 "deck" "scale"
      (world_of sheet_bridge) = (inr tt, w') /\
    In (Modify.Resize "sheet" value) (Modify.ops w') /\
    Modify.xz value = None /\
    ~ Modify.trivial_op (Modify.Resize "sheet" value).
Proof.
  eexists. eexists. split; [cbn; reflexivity|].
  split; [cbn; right; left; reflexivity|].
  assert (Hnone : forall v : Modify.V3x, Modify.xz v = None -> v <> Modify.broadcast 1).
  { intros v Hv Heq. rewrite Heq in Hv. discriminate. }
  cbn.
  match goal with
  | |- ?x = None /\ _ => assert (Hx : x = None)
  end.
  { unfold Modify.np_div.
    match goal with
    | |- context [Req_dec_T ?a 0] => destruct (Req_dec_T a 0) as [_|H]
    end; [reflexivity | exfalso; apply H; lra]. }
  split; [exact Hx|]. apply Hnone. exact Hx.
Qed.

(** ** More on mesh simplification *)

Lemma filter_map_swap {A B} (f : B -> bool) (g : A -> B) (l : list A) :
  filter f (map g l) = map g (filter (fun a => f (g a)) l).
Proof.
  induction l as [|a l IH]; [reflexivity|].
  cbn. destruct (f (g a)); cbn; [f_equal|]; exact IH.
Qed.

Lemma filter_filter_and {A} (f g : A -> bool) (l : list A) :
  filter f (filter g l) = filter (fun a => g a && f a) l.
Proof.
  induction l as [|a l IH]; [reflexivity|].
  cbn. destruct (g a); cbn; [destruct (f a); [f_equal|]|]; exact IH.
Qed.

Lemma far_from_dist (point c : V3) : far_from point c = true <-> 1/2 <= dist c point.
Proof.
  unfold far_from, dist. destruct (Rlt_dec (norm (vsub c point)) (1/2)); split; intros H;
    try reflexivity; try discriminate; lra.
Qed.

(** X1.  [dissolve_near] keeps exactly the vertices at distance 0.5 or
    more from the point, in their order and all unselected; every vertex it
    leaves is a vertex of the mesh; and the selection the mesh came with
    plays no part: two meshes with the same positions give the same
    result. *)
Theorem dissolve_near_keeps_far (point : V3) (mesh : Modify.Mesh) :
  map co (Modify.dissolve_near point mesh) = filter (far_from point) (map co mesh) /\
  Forall (fun vert => select vert = false /\ 1/2 <= dist (co vert) point)
         (Modify.dissolve_near point mesh) /\
  (forall vert, In vert mesh -> 1/2 <= dist (co vert) point ->
                In (mkVert (co vert) false) (Modify.dissolve_near point mesh)) /\
  (forall other, map co other = map co mesh ->
                 Modify.dissolve_near point other = Modify.dissolve_near point mesh).
Proof.
  split; [apply dissolve_near_co|]. split; [|split].
  - rewrite dissolve_near_filter. apply Forall_forall. intros vert Hin.
    apply in_map_iff in Hin. destruct Hin as [v [<- Hv]].
    apply filter_In in Hv. destruct Hv as [_ Hfar].
    split; [reflexivity | apply far_from_dist, Hfar].
  - intros vert Hin Hfar. rewrite dissolve_near_filter.
    apply in_map_iff. exists vert. split; [reflexivity|].
    apply filter_In. split; [exact Hin | apply far_from_dist, Hfar].
  - intros other. rewrite !dissolve_near_filter. revert other.
    induction mesh as [|v mesh IH]; intros [|o other] H; try discriminate; [reflexivity|].
    cbn in H. inversion H as [[Hco Hrest]]. cbn [filter]. rewrite Hco.
    destruct (far_from point (co v)); cbn [map]; rewrite ?Hco; [f_equal|]; apply IH, Hrest.
Qed.

Lemma dissolve_near_twice (p q : V3) (mesh : Modify.Mesh) :
  Modify.dissolve_near p (Modify.dissolve_near q mesh) =
  map (fun vert => mkVert (co vert) false)
      (filter (fun vert => far_from q (co vert) && far_from p (co vert)) mesh).
Proof.
  rewrite (dissolve_near_filter p), (dissolve_near_filter q).
  rewrite filter_map_swap, map_map. cbn [co].
  rewrite filter_filter_and. reflexivity.
Qed.

(** X2.  Dissolving near two points gives the same mesh in either order,
    and dissolving near the same point a second time changes nothing. *)
Theorem dissolve_near_commutes (p q : V3) (mesh : Modify.Mesh) :
  Modify.dissolve_near p (Modify.dissolve_near q mesh) =
  Modify.dissolve_near q (Modify.dissolve_near p mesh) /\
  Modify.dissolve_near p (Modify.dissolve_near p mesh) = Modify.dissolve_near p mesh.
Proof.
  split.
  - rewrite !dissolve_near_twice. f_equal. apply filter_ext.
    intros vert. apply andb_comm.
  - rewrite dissolve_near_twice, dissolve_near_filter. f_equal. apply filter_ext.
    intros vert. destruct (far_from p (co vert)); reflexivity.
Qed.

Lemma filter_select_dissolve_near (point : V3) (mesh : Modify.Mesh) :
  filter select (Modify.dissolve_near point mesh) = [].
Proof.
  rewrite dissolve_near_filter, filter_map_swap. cbn [select].
  induction (filter _ mesh) as [|v l IH]; [reflexivity | exact IH].
Qed.

(** X3.  A call of [dissolve_near_selected_vertex] that goes through removes
    at least the selected vertex and leaves no vertex selected, so that the
    same call on the mesh it leaves raises the [ValueError]. *)
Theorem dissolve_near_selected_vertex_once (mesh mesh' : Modify.Mesh) :
  Modify.dissolve_near_selected_vertex mesh = inr mesh' ->
  (List.length mesh' < List.length mesh)%nat /\
  Forall (fun vert => select vert = false) mesh' /\
  Modify.dissolve_near_selected_vertex mesh' =
    inl (ValueError "Exactly one vertex must be selected.").
Proof.
  unfold Modify.dissolve_near_selected_vertex at 1.
  destruct (filter select mesh) as [|v [|v' l]] eqn:Hsel; try discriminate.
  cbn. intros H. inversion H as [Hmesh]. clear H.
  assert (Hin : In v mesh).
  { assert (Hv : In v (filter select mesh)) by (rewrite Hsel; left; reflexivity).
    apply filter_In in Hv. apply Hv. }
  split; [apply dissolve_near_shrinks, Hin|]. split.
  - rewrite dissolve_near_filter. apply Forall_forall. intros vert Hv.
    apply in_map_iff in Hv. destruct Hv as [u [<- _]]. reflexivity.
  - unfold Modify.dissolve_near_selected_vertex.
    rewrite filter_select_dissolve_near. reflexivity.
Qed.

(** The theorem for X3 on [column_selected], whose vertex at z = 1/2 is
    selected. *)
Lemma dissolve_near_selected_vertex_once_witness :
  exists mesh',
    Modify.dissolve_near_selected_vertex column_selected = inr mesh' /\
    (List.length mesh' < List.length column_selected)%nat /\
    Modify.dissolve_near_selected_vertex mesh' =
      inl (ValueError "Exactly one vertex must be selected.").
Proof.
  eexists. split; [reflexivity|].
  destruct (dissolve_near_selected_vertex_once column_selected _ eq_refl) as [Hlt [_ Hnext]].
  split; [exact Hlt | exact Hnext].
Defined.

(** *** The loop of [limit_dissolve] *)

Lemma below_limit_spec (axis_index : Z) (limit : R) (c : V3) :
  valid_index axis_index ->
  exists x, getitem c axis_index = inr x /\
            (below_limit axis_index limit c = true <-> x < limit).
Proof.
  intros Hax. destruct (getitem_valid c axis_index Hax) as [x Hx].
  exists x. split; [exact Hx|]. unfold below_limit. rewrite Hx.
  destruct (Rlt_dec x limit); split; intros H; try reflexivity; try discriminate; lra.
Qed.

(** One scan, by the positions below the limit: without one the mesh is
    left as it is, otherwise the neighbourhood of one of them is
    dissolved. *)
Lemma dissolve_next_below (mesh rest : Modify.Mesh) (axis_index : Z) (limit : R) :
  valid_index axis_index ->
  (Modify.dissolve_next mesh rest axis_index limit = inr (false, mesh) /\
   forall vert, In vert rest -> below_limit axis_index limit (co vert) = false) \/
  (exists vert, In vert rest /\ below_limit axis_index limit (co vert) = true /\
     Modify.dissolve_next mesh rest axis_index limit =
     inr (true, Modify.dissolve_near (co vert) mesh)).
Proof.
  intros Hax. induction rest as [|vert rest IH].
  - left. split; [reflexivity | intros vert []].
  - cbn [Modify.dissolve_next].
    destruct (below_limit_spec axis_index limit (co vert) Hax) as [x [Hx Hbelow]].
    rewrite Hx. cbn [bind].
    destruct (Rlt_dec x limit) as [Hlt|Hge].
    + right. exists vert. split; [left; reflexivity|].
      split; [apply Hbelow, Hlt | reflexivity].
    + destruct IH as [[Hnext Hall]|[v [Hin [Hv Hnext]]]].
      * left. split; [exact Hnext|].
        intros v [Heq|Hin]; [subst v | apply Hall, Hin].
        destruct (below_limit axis_index limit (co vert)) eqn:E; [|reflexivity].
        exfalso. apply Hge, Hbelow. reflexivity.
      * right. exists v. split; [right; exact Hin|]. split; [exact Hv | exact Hnext].
Qed.

Lemma filter_and_length_lt {A} (f g : A -> bool) (l : list A) (a : A) :
  In a l -> f a = true -> g a = false ->
  (List.length (filter (fun x => g x && f x) l) < List.length (filter f l))%nat.
Proof.
  intros Hin Hf Hg. induction l as [|b l IH]; [contradiction|].
  assert (Hle : (List.length (filter (fun x => g x && f x) l)
                 <= List.length (filter f l))%nat).
  { clear. induction l as [|c l IHl]; [cbn; lia|].
    cbn. destruct (g c), (f c); cbn; lia. }
  cbn. destruct Hin as [->|Hin].
  - rewrite Hf, Hg. cbn. lia.
  - specialize (IH Hin). destruct (g b), (f b); cbn; lia.
Qed.

Lemma count_below_dissolve_near (axis_index : Z) (limit : R) (vert : MeshVertex)
    (mesh : Modify.Mesh) :
  In vert mesh -> below_limit axis_index limit (co vert) = true ->
  (count_below axis_index limit (Modify.dissolve_near (co vert) mesh)
   < count_below axis_index limit mesh)%nat.
Proof.
  intros Hin Hbelow. unfold count_below.
  rewrite dissolve_near_filter, filter_map_swap, length_map. cbn [co].
  rewrite filter_filter_and.
  apply (filter_and_length_lt (fun v => below_limit axis_index limit (co v))
           (fun v => far_from (co vert) (co v)) mesh vert Hin Hbelow).
  apply far_from_self.
Qed.

Lemma count_below_0 (axis_index : Z) (limit : R) (mesh : Modify.Mesh) :
  count_below axis_index limit mesh = 0%nat ->
  forall vert, In vert mesh -> below_limit axis_index limit (co vert) = false.
Proof.
  unfold count_below. intros H vert Hin.
  destruct (below_limit axis_index limit (co vert)) eqn:E; [|reflexivity].
  assert (Hv : In vert (filter (fun v => below_limit axis_index limit (co v)) mesh))
    by (apply filter_In; split; assumption).
  destruct (filter _ mesh); [contradiction | discriminate].
Qed.

Lemma limit_dissolve_within (axis_index : Z) (limit : R) (fuel : nat) :
  valid_index axis_index ->
  forall mesh : Modify.Mesh,
    (count_below axis_index limit mesh < fuel)%nat ->
    exists mesh',
      Modify.limit_dissolve fuel mesh axis_index limit = Some (inr mesh') /\
      count_below axis_index limit mesh' = 0%nat.
Proof.
  intros Hax. induction fuel as [|fuel IH]; intros mesh Hlen; [lia|].
  cbn [Modify.limit_dissolve].
  destruct (dissolve_next_below mesh mesh axis_index limit Hax)
    as [[Hnext Hall]|[vert [Hin [Hbelow Hnext]]]]; rewrite Hnext.
  - exists mesh. split; [reflexivity|]. unfold count_below.
    clear - Hall. induction mesh as [|v mesh IH]; [reflexivity|].
    cbn. rewrite (Hall v) by (left; reflexivity). apply IH.
    intros u Hu. apply Hall. right. exact Hu.
  - apply IH. pose proof (count_below_dissolve_near axis_index limit vert mesh Hin Hbelow).
    lia.
Qed.

(** X4.  For a valid axis, [limit_dissolve] dissolves at most once per
    vertex below the limit: one more iteration than the mesh has vertices
    below the limit is enough for the loop to exit, and the mesh it leaves
    has none. *)
Theorem limit_dissolve_bound (mesh : Modify.Mesh) (axis_index : Z) (limit : R) :
  valid_index axis_index ->
  exists mesh',
    Modify.limit_dissolve (S (count_below axis_index limit mesh)) mesh axis_index limit
      = Some (inr mesh') /\
    count_below axis_index limit mesh' = 0%nat.
Proof.
  intros Hax. apply limit_dissolve_within; [exact Hax | lia].
Qed.

(** The theorem for X4 on [column]: two vertices are below 0 along z, and
    three iterations are enough. *)
Lemma limit_dissolve_bound_witness :
  valid_index 2 /\
  exists mesh',
    Modify.limit_dissolve (S (count_below 2 0 column)) column 2 0 = Some (inr mesh') /\
    count_below 2 0 mesh' = 0%nat.
Proof.
  split; [unfold valid_index; lia|].
  apply (limit_dissolve_bound column 2 0). unfold valid_index. lia.
Defined.

Lemma getitem_invalid (v : V3) (i : Z) : ~ valid_index i -> getitem v i = inl IndexError.
Proof.
  unfold valid_index, getitem. intros H.
  destruct (Z.ltb_spec i 0).
  - destruct (Z.eqb_spec (i + 3) 0); [lia|].
    destruct (Z.eqb_spec (i + 3) 1); [lia|].
    destruct (Z.eqb_spec (i + 3) 2); [lia|]. reflexivity.
  - destruct (Z.eqb_spec i 0); [lia|].
    destruct (Z.eqb_spec i 1); [lia|].
    destruct (Z.eqb_spec i 2); [lia|]. reflexivity.
Qed.

(** X5.  With an axis index outside -3..2, [limit_dissolve] raises the
    [IndexError] of the first vertex's coordinate lookup, in its first
    iteration, whatever the limit; only on a mesh without vertices does it
    return, the index never being used. *)
Theorem limit_dissolve_invalid_axis (axis_index : Z) (limit : R) (fuel : nat) :
  ~ valid_index axis_index ->
  (forall vert rest,
      Modify.limit_dissolve (S fuel) (vert :: rest) axis_index limit
      = Some (inl IndexError)) /\
  Modify.limit_dissolve (S fuel) [] axis_index limit = Some (inr []).
Proof.
  intros Hax. split; [|reflexivity].
  intros vert rest. cbn [Modify.limit_dissolve Modify.dissolve_next].
  rewrite (getitem_invalid _ _ Hax). reflexivity.
Qed.

(** The theorem for X5 on [column], with the index 3. *)
Lemma limit_dissolve_invalid_axis_witness :
  ~ valid_index 3 /\
  Modify.limit_dissolve 1 column 3 0 = Some (inl IndexError).
Proof.
  assert (H : ~ valid_index 3) by (unfold valid_index; lia).
  split; [exact H|].
  apply (proj1 (limit_dissolve_invalid_axis 3 0 0 H)).
Defined.

Lemma limit_dissolve_nothing_below (axis_index : Z) (limit : R) (mesh : Modify.Mesh)
    (fuel : nat) :
  valid_index axis_index ->
  count_below axis_index limit mesh = 0%nat ->
  Modify.limit_dissolve (S fuel) mesh axis_index limit = Some (inr mesh).
Proof.
  intros Hax Hcount. cbn [Modify.limit_dissolve].
  destruct (dissolve_next_below mesh mesh axis_index limit Hax)
    as [[Hnext _]|[vert [Hin [Hbelow _]]]].
  - rewrite Hnext. reflexivity.
  - rewrite (count_below_0 _ _ _ Hcount vert Hin) in Hbelow. discriminate.
Qed.

Lemma limit_dissolve_result (axis_index : Z) (limit : R) (fuel : nat) :
  valid_index axis_index ->
  forall mesh mesh' : Modify.Mesh,
    Modify.limit_dissolve fuel mesh axis_index limit = Some (inr mesh') ->
    count_below axis_index limit mesh' = 0%nat.
Proof.
  intros Hax. induction fuel as [|fuel IH]; intros mesh mesh' H; [discriminate|].
  cbn [Modify.limit_dissolve] in H.
  destruct (dissolve_next_below mesh mesh axis_index limit Hax)
    as [[Hnext Hall]|[vert [Hin [Hbelow Hnext]]]]; rewrite Hnext in H.
  - inversion H; subst mesh'. unfold count_below.
    clear - Hall. induction mesh as [|v mesh IH]; [reflexivity|].
    cbn. rewrite (Hall v) by (left; reflexivity). apply IH.
    intros u Hu. apply Hall. right. exact Hu.
  - apply (IH _ _ H).
Qed.

(** X6.  For a valid axis, a mesh without a vertex below the limit comes
    back from [limit_dissolve] exactly as it was, selection included, after
    one iteration; and so does every mesh that [limit_dissolve] has
    returned: a second run changes nothing. *)
Theorem limit_dissolve_idempotent (mesh : Modify.Mesh) (axis_index : Z) (limit : R) :
  valid_index axis_index ->
  (count_below axis_index limit mesh = 0%nat ->
   forall fuel, Modify.limit_dissolve (S fuel) mesh axis_index limit = Some (inr mesh)) /\
  (forall fuel mesh',
      Modify.limit_dissolve fuel mesh axis_index limit = Some (inr mesh') ->
      forall fuel', Modify.limit_dissolve (S fuel') mesh' axis_index limit
                    = Some (inr mesh')).
Proof.
  intros Hax. split.
  - intros Hcount fuel. apply limit_dissolve_nothing_below; assumption.
  - intros fuel mesh' H fuel'. apply limit_dissolve_nothing_below; [exact Hax|].
    apply (limit_dissolve_result axis_index limit fuel Hax mesh mesh' H).
Qed.

(** The theorem for X6 on [column], along z with limit 0. *)
Lemma limit_dissolve_idempotent_witness :
  valid_index 2 /\
  forall fuel mesh',
    Modify.limit_dissolve fuel column 2 0 = Some (inr mesh') ->
    forall fuel', Modify.limit_dissolve (S fuel') mesh' 2 0 = Some (inr mesh').
Proof.
  assert (H : valid_index 2) by (unfold valid_index; lia).
  split; [exact H|].
  apply (proj2 (limit_dissolve_idempotent column 2 0 H)).
Defined.

Lemma dissolve_near_co_in (point c : V3) (mesh : Modify.Mesh) :
  In c (map co (Modify.dissolve_near point mesh)) <->
  In c (map co mesh) /\ far_from point c = true.
Proof. rewrite dissolve_near_co. apply filter_In. Qed.

(** X7.  What [limit_dissolve] removes, for a valid axis.  Every position
    of the mesh it returns is a position of the mesh it was given; and a
    vertex that is not below the limit and lies 0.5 or more away from every
    vertex below the limit is still there.  (A vertex that is not below the
    limit but closer than 0.5 to one that is may be removed with it.) *)
Theorem limit_dissolve_survivors (mesh mesh' : Modify.Mesh) (axis_index : Z) (limit : R)
    (fuel : nat) :
  valid_index axis_index ->
  Modify.limit_dissolve fuel mesh axis_index limit = Some (inr mesh') ->
  (forall c, In c (map co mesh') -> In c (map co mesh)) /\
  (forall c, In c (map co mesh) ->
             below_limit axis_index limit c = false ->
             (forall u, In u (map co mesh) -> below_limit axis_index limit u = true ->
                        1/2 <= dist c u) ->
             In c (map co mesh')).
Proof.
  intros Hax. revert mesh. induction fuel as [|fuel IH]; intros mesh H; [discriminate|].
  cbn [Modify.limit_dissolve] in H.
  destruct (dissolve_next_below mesh mesh axis_index limit Hax)
    as [[Hnext Hall]|[vert [Hin [Hbelow Hnext]]]]; rewrite Hnext in H.
  - inversion H; subst mesh'. split; [intros c Hc; exact Hc | intros c Hc _ _; exact Hc].
  - destruct (IH _ H) as [Hsub Hkeep]. split.
    + intros c Hc. apply (dissolve_near_co_in (co vert) c mesh), Hsub, Hc.
    + intros c Hc Hnb Hfar. apply Hkeep.
      * apply dissolve_near_co_in. split; [exact Hc|].
        apply far_from_dist, Hfar; [apply in_map, Hin | exact Hbelow].
      * exact Hnb.
      * intros u Hu. apply Hfar. apply (dissolve_near_co_in (co vert) u mesh), Hu.
Qed.

(** The theorem for X7 on [column], along z with limit 0. *)
Lemma limit_dissolve_survivors_witness :
  valid_index 2 /\
  exists mesh',
    Modify.limit_dissolve 5 column 2 0 = Some (inr mesh') /\
    forall c, In c (map co mesh') -> In c (map co column).
Proof.
  assert (H : valid_index 2) by (unfold valid_index; lia).
  split; [exact H|].
  destruct (limit_dissolve_terminates 2 0 5 H column) as [mesh' [Hrun _]]; [cbn; lia|].
  exists mesh'. split; [exact Hrun|].
  apply (proj1 (limit_dissolve_survivors column mesh' 2 0 5 H Hrun)).
Defined.

(** ** More on the groups document *)

Lemma dict_get_set_other {V} (d : dict V) (k k' : string) (v : V) :
  k' <> k -> dict_get (dict_set d k v) k' = dict_get d k'.
Proof.
  intros Hne. induction d as [|[k0 v0] d IH]; cbn.
  - destruct (String.eqb_spec k' k); [contradiction | reflexivity].
  - destruct (String.eqb_spec k k0) as [->|Hk]; cbn.
    + destruct (String.eqb_spec k' k0); [contradiction | reflexivity].
    + destruct (String.eqb k' k0); [reflexivity | exact IH].
Qed.

(** What [write_groups] does when it writes. *)
Lemma write_groups_writes (groups : option Modify.Groups) (filename name : string)
    (overwrite : bool) (fs : Modify.FileSystem) (data : Modify.Document) :
  dict_get fs filename = Some (Modify.Json data) ->
  dict_mem data name = false \/ overwrite = true ->
  Modify.write_groups groups filename name overwrite fs =
  (inr tt,
   dict_set (dict_set fs filename Modify.Empty) filename
            (Modify.Json (dict_set data name groups))).
Proof.
  intros Hfile Hcond. unfold Modify.write_groups. rewrite Hfile. cbn [Modify.json_load ret].
  destruct Hcond as [->| ->]; [reflexivity|].
  rewrite orb_true_r. reflexivity.
Qed.

(** X8.  Round trip.  On a file that holds a document, when the name is new
    or overwrite is requested, [write_groups] goes through and [load_groups]
    of the same name then returns the definition written. *)
Theorem write_groups_then_load (groups : option Modify.Groups) (filename name : string)
    (overwrite : bool) (fs : Modify.FileSystem) (data : Modify.Document) :
  dict_get fs filename = Some (Modify.Json data) ->
  dict_mem data name = false \/ overwrite = true ->
  exists fs',
    Modify.write_groups groups filename name overwrite fs = (inr tt, fs') /\
    Modify.load_groups filename name fs' = inr groups.
Proof.
  intros Hfile Hcond. eexists. split; [apply (write_groups_writes _ _ _ _ _ _ Hfile Hcond)|].
  unfold Modify.load_groups. rewrite dict_get_set_same. cbn [Modify.json_load bind ret].
  unfold subscript. rewrite dict_get_set_same. reflexivity.
Qed.

(** The theorem for X8: the definition ["span"] is added to [groups_file]. *)
Lemma write_groups_then_load_witness :
  exists fs',
    Modify.write_groups (Some span_groups) "groups.json" "span" false groups_file
      = (inr tt, fs') /\
    Modify.load_groups "groups.json" "span" fs' = inr (Some span_groups).
Proof.
  apply (write_groups_then_load (Some span_groups) "groups.json" "span" false groups_file
           [("bridge"%string, Some bridge_groups)]).
  - reflexivity.
  - left. reflexivity.
Defined.

(** X9.  A write that goes through touches nothing else: every other name
    of the document loads as before (with the same value or the same
    error), and every other file is as it was. *)
Theorem write_groups_frame (groups : option Modify.Groups) (filename name : string)
    (overwrite : bool) (fs fs' : Modify.FileSystem) :
  Modify.write_groups groups filename name overwrite fs = (inr tt, fs') ->
  (forall other, other <> name ->
     Modify.load_groups filename other fs' = Modify.load_groups filename other fs) /\
  (forall file, file <> filename -> dict_get fs' file = dict_get fs file).
Proof.
  unfold Modify.write_groups. intros H.
  destruct (dict_get fs filename) as [c|] eqn:Hfile; [|discriminate].
  destruct c as [|data]; cbn [Modify.json_load raise ret] in H; [discriminate|].
  destruct (negb (dict_mem data name) || overwrite); [|discriminate].
  inversion H; subst fs'. split.
  - intros other Hne. unfold Modify.load_groups.
    rewrite dict_get_set_same, Hfile. cbn [Modify.json_load bind ret].
    unfold subscript. rewrite (dict_get_set_other _ _ _ _ Hne). reflexivity.
  - intros file Hne. rewrite !(dict_get_set_other _ _ _ _ Hne). reflexivity.
Qed.

(** The theorem for X9: adding ["span"] to [groups_file] leaves ["bridge"]
    loading as before. *)
Lemma write_groups_frame_witness :
  Modify.load_groups "groups.json" "bridge"
    (snd (Modify.write_groups (Some span_groups) "groups.json" "span" false groups_file))
  = Modify.load_groups "groups.json" "bridge" groups_file.
Proof.
  apply (proj1 (write_groups_frame (Some span_groups) "groups.json" "span" false groups_file
                  _ eq_refl)).
  discriminate.
Defined.

(** X10.  [write_groups] cannot create or repair a groups file.  On a
    missing file it raises [FileNotFoundError], on a file that holds no
    JSON text the [ValueError] of [json.load]; either way before it opens
    the file for writing, so that the file system stays as it was, whatever
    the name and the overwrite flag. *)
Theorem write_groups_unreadable (groups : option Modify.Groups) (filename name : string)
    (overwrite : bool) (fs : Modify.FileSystem) :
  (dict_get fs filename = None ->
   Modify.write_groups groups filename name overwrite fs
   = (inl (FileNotFoundError filename), fs)) /\
  (dict_get fs filename = Some Modify.Empty ->
   Modify.write_groups groups filename name overwrite fs
   = (inl (ValueError "Expecting value: line 1 column 1 (char 0)"), fs)).
Proof.
  unfold Modify.write_groups. split; intros ->; reflexivity.
Qed.

(** X11.  After a write refused for an existing name the file is of no use
    any more: it is empty, so that [load_groups] of any name and every
    further [write_groups], with overwrite or without, raise the
    [ValueError] of [json.load] and leave it empty. *)
Theorem write_groups_conflict_is_final (groups : option Modify.Groups)
    (filename name : string) (fs : Modify.FileSystem) (data : Modify.Document) :
  dict_get fs filename = Some (Modify.Json data) ->
  dict_mem data name = true ->
  exists fs',
    Modify.write_groups groups filename name false fs
    = (inl (ValueError "Name already exists, specify overwrite to write anyway"), fs') /\
    (forall other,
        Modify.load_groups filename other fs'
        = inl (ValueError "Expecting value: line 1 column 1 (char 0)")) /\
    (forall groups' other overwrite,
        Modify.write_groups groups' filename other overwrite fs'
        = (inl (ValueError "Expecting value: line 1 column 1 (char 0)"), fs')).
Proof.
  intros Hfile Hmem. eexists. split; [apply (write_groups_conflict _ _ _ _ _ Hfile Hmem)|].
  split.
  - intros other. unfold Modify.load_groups. rewrite dict_get_set_same. reflexivity.
  - intros groups' other overwrite. unfold Modify.write_groups.
    rewrite dict_get_set_same. reflexivity.
Qed.

(** The theorem for X11 on [groups_file], which holds ["bridge"]. *)
Lemma write_groups_conflict_is_final_witness :
  exists fs',
    Modify.write_groups (Some span_groups) "groups.json" "bridge" false groups_file
    = (inl (ValueError "Name already exists, specify overwrite to write anyway"), fs') /\
    Modify.write_groups (Some span_groups) "groups.json" "bridge" true fs'
    = (inl (ValueError "Expecting value: line 1 column 1 (char 0)"), fs').
Proof.
  destruct (write_groups_conflict_is_final (Some span_groups) "groups.json" "bridge"
              groups_file [("bridge"%string, Some bridge_groups)] eq_refl eq_refl)
    as [fs' [Hw [_ Hnext]]].
  exists fs'. split; [exact Hw | apply Hnext].
Defined.

(** ** More on group scaling *)

Section ScaleSteps.

Import Modify.
Context {host : Host}.

Lemma select_group_all (group : list string) (w : World) :
  forallb (has_object (scn w)) group = true -> select_group group w = (inr tt, w).
Proof.
  induction group as [|name group IH]; intros H; [reflexivity|].
  cbn in H. apply andb_prop in H. destruct H as [Hname Hrest].
  cbn [select_group]. unfold st_bind, object. rewrite Hname. apply IH, Hrest.
Qed.

Lemma select_group_missing (present : list string) (name : string) (rest : list string)
    (w : World) :
  forallb (has_object (scn w)) present = true ->
  has_object (scn w) name = false ->
  select_group (present ++ name :: rest) w = (inl (KeyError name), w).
Proof.
  induction present as [|n present IH]; intros Hall Hname.
  - cbn [app select_group]. unfold st_bind, object. rewrite Hname. reflexivity.
  - cbn in Hall. apply andb_prop in Hall. destruct Hall as [Hn Hrest].
    cbn [app select_group]. unfold st_bind at 1, object at 1. rewrite Hn.
    apply IH; assumption.
Qed.

(** X12.  [translate_group] looks every name of the group up before it
    translates anything.  When all are objects of the scene it applies one
    translation, to the whole group at once (also when the group is
    empty); when one is not, it raises the [KeyError] of the first such
    name and no object has been moved. *)
Theorem translate_group_all_or_nothing (group : list string) (value : V3) (w : World) :
  (forallb (has_object (scn w)) group = true ->
   translate_group group value w =
   (inr tt, mkWorld (transform_translate group value (scn w))
                    (ops w ++ [Translate group value]))) /\
  (forall present name rest,
      group = present ++ name :: rest ->
      forallb (has_object (scn w)) present = true ->
      has_object (scn w) name = false ->
      translate_group group value w = (inl (KeyError name), w)).
Proof.
  split.
  - intros H. unfold translate_group, st_bind. rewrite (select_group_all _ _ H). reflexivity.
  - intros present name rest -> Hall Hname. unfold translate_group, st_bind.
    rewrite (select_group_missing _ _ _ _ Hall Hname). reflexivity.
Qed.

Lemma set_axis_invalid (axis_index : Z) :
  ~ valid_index axis_index -> set_axis axis_index = inl IndexError.
Proof.
  unfold valid_index, set_axis. intros H.
  destruct (Z.ltb_spec axis_index 0).
  - destruct (Z.eqb_spec (axis_index + 3) 0); [lia|].
    destruct (Z.eqb_spec (axis_index + 3) 1); [lia|].
    destruct (Z.eqb_spec (axis_index + 3) 2); [lia|]. reflexivity.
  - destruct (Z.eqb_spec axis_index 0); [lia|].
    destruct (Z.eqb_spec axis_index 1); [lia|].
    destruct (Z.eqb_spec axis_index 2); [lia|]. reflexivity.
Qed.

Lemma set_axis_valid (axis_index : Z) :
  valid_index axis_index ->
  exists axis,
    set_axis axis_index = inr axis /\
    forall j, (j < 3)%nat -> bnth axis j = (j =? position axis_index)%nat.
Proof.
  unfold valid_index. intros H.
  assert (Hi : (axis_index = -3 \/ axis_index = -2 \/ axis_index = -1 \/
                axis_index = 0 \/ axis_index = 1 \/ axis_index = 2)%Z) by lia.
  destruct Hi as [-> | [-> | [-> | [-> | [-> | ->]]]]];
    (eexists; split; [reflexivity|]; intros j Hj;
     destruct j as [|[|[|j]]]; [reflexivity | reflexivity | reflexivity | lia]).
Qed.

Lemma set_axis_error (axis_index : Z) (e : exn) :
  set_axis axis_index = inl e -> e = IndexError.
Proof.
  unfold set_axis.
  repeat match goal with
         | |- context [if ?c then _ else _] => destruct c
         end; intros H; inversion H; reflexivity.
Qed.

(** X13.  The resize that [scale_object] applies for a factor acts along
    the chosen axis only: for an index from -3 to 2 the value passed to
    the host is the factor at the position the index denotes (negative
    ones counting from the end) and 1 at the two others; any other index
    raises [IndexError] when the axis is set. *)
Theorem scale_object_along_axis (axis_index : Z) (value : R) :
  (valid_index axis_index ->
   exists axis,
     set_axis axis_index = inr axis /\
     forall (obj : string) (w : World),
       scale_object obj (broadcast value) axis w =
       (inr tt, mkWorld (transform_resize obj (resize_value axis (broadcast value)) (scn w))
                        (ops w ++ [Resize obj (resize_value axis (broadcast value))])) /\
       forall j, (j < 3)%nat ->
         xnth (resize_value axis (broadcast value)) j =
         Some (if (j =? position axis_index)%nat then value else 1)) /\
  (~ valid_index axis_index -> set_axis axis_index = inl IndexError).
Proof.
  split; [|apply set_axis_invalid].
  intros Hax. destruct (set_axis_valid axis_index Hax) as [axis [Haxis Hbits]].
  exists axis. split; [exact Haxis|]. intros obj w. split; [reflexivity|].
  intros j Hj. specialize (Hbits j Hj).
  destruct (j =? position axis_index)%nat; destruct axis as [a0 a1 a2];
    destruct j as [|[|[|j]]]; try lia; cbn in Hbits; subst; cbn; f_equal; lra.
Qed.

(** X14.  [scale] fails before it touches the scene when the groups are
    not defined ([AssertionError]), when the axis index is out of range
    ([IndexError]) and when the reference is not an object of the scene
    ([KeyError]): the scene is as it was and no operator has been applied. *)
Theorem scale_fails_before_mutation (groups : Groups) (value : R) (axis_index : Z)
    (reference base : string) (w : World) :
  scale None value axis_index reference base w
  = (inl (AssertionError "Groups not defined."), w) /\
  (~ valid_index axis_index ->
   scale (Some groups) value axis_index reference base w = (inl IndexError, w)) /\
  (valid_index axis_index -> has_object (scn w) reference = false ->
   scale (Some groups) value axis_index reference base w = (inl (KeyError reference), w)).
Proof.
  split; [reflexivity|]. split.
  - intros Hax. unfold scale, st_bind, lift. rewrite (set_axis_invalid _ Hax). reflexivity.
  - intros Hax Href. destruct (set_axis_valid _ Hax) as [axis [Haxis _]].
    unfold scale, st_bind at 1, lift at 1. rewrite Haxis.
    unfold st_bind at 1, object at 1. rewrite Href. reflexivity.
Qed.

(** One iteration of the loop over the scale group, as an equation. *)
Lemma scale_member_eq (reference : string) (axis : B3) (start_ref end_ref : Box)
    (name : string) (w : World) :
  scale_member reference axis start_ref end_ref name w =
  if String.eqb name reference then (inr tt, w)
  else if has_object (scn w) name then
    let start_box := bounding_box (scn w) name in
    let end_box := box_add (box_sub start_box start_ref) end_ref in
    let v := resize_value axis
               (vdiv (vsub (upper end_box) (lower end_box))
                     (vsub (upper start_box) (lower start_box))) in
    (inr tt, mkWorld (transform_resize name v (scn w)) (ops w ++ [Resize name v]))
  else (inl (KeyError name), w).
Proof.
  unfold scale_member, st_bind, object, get_bounding_box, scale_object.
  destruct (String.eqb name reference); [reflexivity|].
  destruct (has_object (scn w) name) eqn:Hobj; cbn [ret raise]; rewrite ?Hobj; reflexivity.
Qed.

Lemma resized_app (l1 l2 : list op) : resized (l1 ++ l2) = resized l1 ++ resized l2.
Proof.
  induction l1 as [|[n v|g v] l1 IH]; cbn; [reflexivity | f_equal; exact IH | exact IH].
Qed.

(** The loop over the scale group: what it has applied when it ends, and
    the only error it raises. *)
Lemma scale_members_run (reference : string) (axis : B3) (start_ref end_ref : Box)
    (names : list string) :
  forall (w w' : World) (r : Exc unit),
    scale_members reference axis start_ref end_ref names w = (r, w') ->
    exists resizes,
      ops w' = ops w ++ resizes /\ translations resizes = [] /\
      match r with
      | inr _ => resized resizes = filter (fun n => negb (String.eqb n reference)) names
      | inl e => exists name, e = KeyError name
      end.
Proof.
  induction names as [|name names IH]; intros w w' r H.
  - inversion H. exists []. rewrite app_nil_r. repeat split.
  - cbn [scale_members] in H. unfold st_bind in H. rewrite scale_member_eq in H.
    cbn [filter]. destruct (String.eqb name reference); cbn [negb].
    + apply (IH _ _ _ H).
    + destruct (has_object (scn w) name).
      * cbv zeta in H. destruct (IH _ _ _ H) as [resizes [Hops [Ht Hr]]].
        cbn [ops] in Hops. eexists (_ :: resizes).
        split; [rewrite Hops, <- app_assoc; reflexivity|].
        split; [exact Ht|].
        destruct r as [e|u]; [exact Hr | cbn [resized]; f_equal; exact Hr].
      * inversion H. exists []. rewrite app_nil_r. split; [reflexivity|].
        split; [reflexivity|]. eexists; reflexivity.
Qed.

(** [scale] step by step, as an equation: the look-ups, the resize of the
    reference, the loop over the scale group and the translations chosen
    by the base. *)
Lemma scale_eq (groups : Groups) (value : R) (axis_index : Z) (reference base : string)
    (w : World) :
  scale (Some groups) value axis_index reference base w =
  match set_axis axis_index with
  | inl e => (inl e, w)
  | inr axis =>
      if has_object (scn w) reference then
        let start_ref := bounding_box (scn w) reference in
        let v := resize_value axis (broadcast value) in
        let w1 := mkWorld (transform_resize reference v (scn w))
                          (ops w ++ [Resize reference v]) in
        if has_object (scn w1) reference then
          let end_ref := bounding_box (scn w1) reference in
          match subscript groups "scale" with
          | inl e => (inl e, w1)
          | inr names =>
              match scale_members reference axis start_ref end_ref names w1 with
              | (inl e, w2) => (inl e, w2)
              | (inr _, w2) =>
                  let translate := translation start_ref end_ref axis in
                  let pair key1 v1 key2 v2 :=
                    st_bind (lift (subscript groups key1)) (fun group =>
                    st_bind (translate_group group v1) (fun _ =>
                    st_bind (lift (subscript groups key2)) (fun group =>
                    translate_group group v2))) in
                  if String.eqb base "min" then
                    pair "scale"%string (vneg (lower translate))
                         "max"%string (vsub (upper translate) (lower translate)) w2
                  else if String.eqb base "scale" then
                    pair "min"%string (lower translate) "max"%string (upper translate) w2
                  else if String.eqb base "max" then
                    pair "min"%string (vsub (lower translate) (upper translate))
                         "scale"%string (vneg (upper translate)) w2
                  else
                    (inl (ValueError ("Translate failed: base group name invalid " ++ base)),
                     w2)
              end
          end
        else (inl (KeyError reference), w1)
      else (inl (KeyError reference), w)
  end.
Proof.
  unfold scale, st_bind, lift, object, get_bounding_box, scale_object.
  destruct (set_axis axis_index) as [e|axis]; [reflexivity|].
  destruct (has_object (scn w) reference) eqn:Href; [|reflexivity].
  cbn [ret raise scn ops]. rewrite ?Href. cbn [ret raise scn ops].
  match goal with
  | |- context [has_object (transform_resize ?a ?b ?c) reference] =>
      destruct (has_object (transform_resize a b c) reference) eqn:Href'
  end; [|reflexivity].
  cbn [ret raise scn ops].
  destruct (subscript groups "scale") as [e|names]; [reflexivity|].
  cbn [ret raise scn ops].
  destruct (scale_members _ _ _ _ names _) as [[e|u] w2]; [reflexivity|].
  destruct (String.eqb base "min"); [reflexivity|].
  destruct (String.eqb base "scale"); [reflexivity|].
  destruct (String.eqb base "max"); reflexivity.
Qed.

Lemma subscript_error {V} (d : dict V) (k : string) (e : exn) :
  subscript d k = inl e -> e = KeyError k.
Proof.
  unfold subscript. destruct (dict_get d k); intros H; inversion H. reflexivity.
Qed.

(** X15.  With a base other than ["min"], ["scale"] and ["max"], [scale]
    never succeeds, and its [ValueError] for the base comes last: when it
    is raised, the reference and the scale group have already been
    resized, no group has been translated, and nothing is undone. *)
Theorem scale_invalid_base (groups : Groups) (value : R) (axis_index : Z)
    (reference base : string) (w w' : World) (r : Exc unit) :
  base <> "min"%string -> base <> "scale"%string -> base <> "max"%string ->
  scale (Some groups) value axis_index reference base w = (r, w') ->
  r <> inr tt /\
  (r = inl (ValueError ("Translate failed: base group name invalid " ++ base)) ->
   exists axis names resizes,
     set_axis axis_index = inr axis /\
     dict_get groups "scale" = Some names /\
     ops w' = ops w ++ Resize reference (resize_value axis (broadcast value)) :: resizes /\
     resized resizes = filter (fun n => negb (String.eqb n reference)) names /\
     translations resizes = []).
Proof.
  intros Hmin Hscale Hmax H. rewrite scale_eq in H.
  destruct (set_axis axis_index) as [e|axis] eqn:Haxis.
  { apply set_axis_error in Haxis. subst e. inversion H.
    split; [discriminate | intros; discriminate]. }
  destruct (has_object (scn w) reference);
    [|inversion H; split; [discriminate | intros; discriminate]].
  cbv zeta in H.
  destruct (has_object _ reference);
    [|inversion H; split; [discriminate | intros; discriminate]].
  destruct (subscript groups "scale") as [e|names] eqn:Hnames.
  { apply subscript_error in Hnames. subst e. inversion H.
    split; [discriminate | intros; discriminate]. }
  destruct (scale_members _ _ _ _ names _) as [[e|u] w2] eqn:Hloop.
  { apply scale_members_run in Hloop. destruct Hloop as [_ [_ [_ [k ->]]]].
    inversion H. split; [discriminate | intros; discriminate]. }
  destruct (String.eqb_spec base "min"); [contradiction|].
  destruct (String.eqb_spec base "scale"); [contradiction|].
  destruct (String.eqb_spec base "max"); [contradiction|].
  inversion H; subst r w'. split; [discriminate|]. intros _.
  apply scale_members_run in Hloop. destruct Hloop as [resizes [Hops [Ht Hr]]].
  cbn [ops] in Hops. exists axis, names, resizes.
  split; [reflexivity|]. split.
  - unfold subscript in Hnames. destruct (dict_get groups "scale"); [|discriminate].
    inversion Hnames. reflexivity.
  - split; [rewrite Hops, <- app_assoc; reflexivity|]. split; assumption.
Qed.

Lemma translate_group_eq (group : list string) (value : V3) (w w' : World) :
  translate_group group value w = (inr tt, w') ->
  ops w' = ops w ++ [Translate group value].
Proof.
  intros H. apply translate_group_run in H.
  destruct H as [[_ [e He]]|[_ ->]]; [discriminate | reflexivity].
Qed.

Lemma translate_pair_run (m1 m2 : Exc (list string)) (v1 v2 : V3) (w w' : World) :
  st_bind (lift m1) (fun group =>
  st_bind (translate_group group v1) (fun _ =>
  st_bind (lift m2) (fun group =>
  translate_group group v2))) w = (inr tt, w') ->
  exists g1 g2, ops w' = ops w ++ [Translate g1 v1; Translate g2 v2].
Proof.
  unfold st_bind at 1, lift at 1.
  destruct m1 as [e|g1]; [discriminate|].
  unfold st_bind at 1.
  destruct (translate_group g1 v1 w) as [[e|u] w1] eqn:H1; [discriminate|].
  unfold st_bind at 1, lift at 1.
  destruct m2 as [e|g2]; [discriminate|].
  intros H2. destruct u. apply translate_group_eq in H1. apply translate_group_eq in H2.
  exists g1, g2. rewrite H2, H1, <- app_assoc. reflexivity.
Qed.

(** X16.  A call of [scale] that returns has resized the reference first,
    by the factor, and then every other member of the scale group once, in
    the order of the group; the reference itself is skipped in the loop,
    also when the group names it more than once, and the members of the
    other groups are never resized. *)
Theorem scale_resizes_each_member_once (groups : Groups) (value : R) (axis_index : Z)
    (reference base : string) (w w' : World) :
  scale (Some groups) value axis_index reference base w = (inr tt, w') ->
  exists axis names rest,
    set_axis axis_index = inr axis /\
    dict_get groups "scale" = Some names /\
    ops w' = ops w ++ Resize reference (resize_value axis (broadcast value)) :: rest /\
    resized rest = filter (fun n => negb (String.eqb n reference)) names.
Proof.
  intros H. rewrite scale_eq in H.
  destruct (set_axis axis_index) as [e|axis]; [discriminate|].
  destruct (has_object (scn w) reference); [|discriminate].
  cbv zeta in H.
  destruct (has_object _ reference); [|discriminate].
  destruct (subscript groups "scale") as [e|names] eqn:Hnames; [discriminate|].
  destruct (scale_members _ _ _ _ names _) as [[e|u] w2] eqn:Hloop; [discriminate|].
  apply scale_members_run in Hloop. destruct Hloop as [resizes [Hops [_ Hr]]].
  cbn [ops] in Hops.
  assert (Hend : exists g1 g2 v1 v2,
             ops w' = ops w2 ++ [Translate g1 v1; Translate g2 v2]).
  { destruct (String.eqb base "min");
      [apply translate_pair_run in H; destruct H as [g1 [g2 H]]; eauto|].
    destruct (String.eqb base "scale");
      [apply translate_pair_run in H; destruct H as [g1 [g2 H]]; eauto|].
    destruct (String.eqb base "max");
      [apply translate_pair_run in H; destruct H as [g1 [g2 H]]; eauto|].
    discriminate. }
  destruct Hend as [g1 [g2 [v1 [v2 Hend]]]].
  exists axis, names, (resizes ++ [Translate g1 v1; Translate g2 v2]).
  split; [reflexivity|]. split.
  - unfold subscript in Hnames. destruct (dict_get groups "scale"); [|discriminate].
    inversion Hnames. reflexivity.
  - split.
    + rewrite Hend, Hops, <- !app_assoc. reflexivity.
    + rewrite resized_app. cbn [resized]. rewrite app_nil_r. exact Hr.
Qed.

(** X17.  The factor for a member of the scale group.  For a member other
    than the reference, present in the scene and with a bounding box that
    is not flat, one iteration of the loop applies one resize to it, whose
    value is 1 off the scaled axis and, along it, the factor that takes
    the member's length to that length plus the change of the reference's
    length. *)
Theorem scale_member_factor (reference name : string) (axis : B3)
    (start_ref end_ref : Box) (w : World) :
  name <> reference ->
  has_object (scn w) name = true ->
  nonflat (bounding_box (scn w) name) ->
  exists value,
    scale_member reference axis start_ref end_ref name w =
    (inr tt, mkWorld (transform_resize name value (scn w))
                     (ops w ++ [Resize name value])) /\
    forall j, (j < 3)%nat ->
      exists f,
        xnth value j = Some f /\
        let length (b : Box) := vnth (vsub (upper b) (lower b)) j in
        f * length (bounding_box (scn w) name) =
        length (bounding_box (scn w) name)
        + b2r (bnth axis j) * (length end_ref - length start_ref).
Proof.
  intros Hne Hobj [Hx [Hy Hz]]. rewrite scale_member_eq.
  destruct (String.eqb_spec name reference); [contradiction|]. rewrite Hobj.
  eexists. split; [reflexivity|].
  intros j Hj. unfold vdiv, np_div, resize_value. cbn.
  destruct (Req_dec_T (vx (upper (bounding_box (scn w) name))
                       - vx (lower (bounding_box (scn w) name))) 0); [contradiction|].
  destruct (Req_dec_T (vy (upper (bounding_box (scn w) name))
                       - vy (lower (bounding_box (scn w) name))) 0); [contradiction|].
  destruct (Req_dec_T (vz (upper (bounding_box (scn w) name))
                       - vz (lower (bounding_box (scn w) name))) 0); [contradiction|].
  destruct j as [|[|[|j]]]; [| | |lia]; cbn; eexists; (split; [reflexivity|]);
    field; assumption.
Qed.

End ScaleSteps.

(** *** Group scaling on scenes of boxes, continued *)

(** The theorem for X15 on [bridge], with the base ["top"]. *)
Lemma scale_invalid_base_witness :
  let run := Modify.scale (host := BoxScene.host) (Some bridge_groups) 2 0 "deck" "top"
               (world_of bridge) in
  fst run = inl (ValueError "Translate failed: base group name invalid top") /\
  exists axis names resizes,
    Modify.set_axis 0 = inr axis /\
    dict_get bridge_groups "scale" = Some names /\
    Modify.ops (snd run) =
      [] ++ Modify.Resize "deck" (Modify.resize_value axis (Modify.broadcast 2)) :: resizes /\
    resized resizes = filter (fun n => negb (String.eqb n "deck")) names /\
    translations resizes = [].
Proof.
  intros run.
  assert (Hrun : fst run = inl (ValueError "Translate failed: base group name invalid top"))
    by (cbn; reflexivity).
  split; [exact Hrun|].
  apply (proj2 (scale_invalid_base (host := BoxScene.host) bridge_groups 2 0 "deck" "top"
                  (world_of bridge) (snd run) (fst run)
                  ltac:(discriminate) ltac:(discriminate) ltac:(discriminate)
                  (surjective_pairing run))).
  exact Hrun.
Defined.

(** The theorem for X16 on [railed_bridge]: the deck is doubled along x,
    the rail follows. *)
Lemma scale_resizes_each_member_once_witness :
  let run := Modify.scale (host := BoxScene.host) (Some railed_groups) 2 0 "deck" "min"
               (world_of railed_bridge) in
  run = (inr tt, snd run) /\
  exists axis names rest,
    Modify.set_axis 0 = inr axis /\
    dict_get railed_groups "scale" = Some names /\
    Modify.ops (snd run) =
      [] ++ Modify.Resize "deck" (Modify.resize_value axis (Modify.broadcast 2)) :: rest /\
    resized rest = filter (fun n => negb (String.eqb n "deck")) names.
Proof.
  intros run.
  assert (Hrun : run = (inr tt, snd run)) by reflexivity.
  split; [exact Hrun|].
  apply (scale_resizes_each_member_once (host := BoxScene.host) railed_groups 2 0
           "deck" "min" (world_of railed_bridge) (snd run) Hrun).
Defined.

(** The theorem for X17 on [railed_bridge]: the rail, when the deck grows
    from [0, 10] to [-5, 15] along x. *)
Lemma scale_member_factor_witness :
  nonflat (Modify.bounding_box (Modify.scn (world_of railed_bridge)) "rail") /\
  exists value,
    Modify.scale_member (host := BoxScene.host) "deck"
      (Modify.mkB3 true false false)
      (Modify.mkBox (mk3 0 0 0) (mk3 10 2 1)) (Modify.mkBox (mk3 (-5) 0 0) (mk3 15 2 1))
      "rail" (world_of railed_bridge)
    = (inr tt,
       Modify.mkWorld (Modify.transform_resize "rail" value
                         (Modify.scn (world_of railed_bridge)))
                      (Modify.ops (world_of railed_bridge) ++ [Modify.Resize "rail" value])) /\
    exists f, xnth value 0 = Some f /\ f * (10 - 0) = (10 - 0) + 1 * ((15 - -5) - (10 - 0)).
Proof.
  assert (Hflat : nonflat (Modify.bounding_box (Modify.scn (world_of railed_bridge)) "rail")).
  { unfold nonflat. cbn. repeat split; lra. }
  split; [exact Hflat|].
  destruct (scale_member_factor (host := BoxScene.host) "deck" "rail"
              (Modify.mkB3 true false false)
              (Modify.mkBox (mk3 0 0 0) (mk3 10 2 1)) (Modify.mkBox (mk3 (-5) 0 0) (mk3 15 2 1))
              (world_of railed_bridge) ltac:(discriminate) eq_refl Hflat)
    as [value [Hrun Hfactor]].
  exists value. split; [exact Hrun|].
  destruct (Hfactor 0%nat ltac:(lia)) as [f [Hf Heq]].
  exists f. split; [exact Hf | exact Heq].
Defined.

(** ** More on camera sampling *)

(** A loop that ends with a candidate ends with the first one that passes
    the test, the scale of the distances not being negative. *)
Lemma sample_loop_returns (self : Render.t) (md : R) (fuel : nat) :
  forall (g g' : Rng) (theta phi : R) (location : V3),
    Render.sample_loop fuel self md g = Some (inr (theta, phi, location), g') ->
    0 <= md * snd (Render.camera_distance_factor (Render.opts self)) /\
    exists k,
      (k < fuel)%nat /\
      Render.drawn self md g k = (theta, phi, location) /\
      location = Render.tried self md g k /\
      Render.above_landscape self location = inr true /\
      (forall i, (i < k)%nat ->
         Render.above_landscape self (Render.tried self md g i) = inr false) /\
      g' = skip (3 * S k) g.
Proof.
  destruct (Rlt_dec (md * snd (Render.camera_distance_factor (Render.opts self))) 0)
    as [Hneg|Hscale].
  { intros g g' theta phi location H. destruct fuel as [|fuel]; [discriminate|].
    rewrite (sample_loop_negative _ _ _ _ Hneg) in H. discriminate. }
  apply Rnot_lt_le in Hscale.
  induction fuel as [|fuel IH]; intros g g' theta phi location H; [discriminate|].
  split; [exact Hscale|].
  rewrite (sample_loop_S _ _ _ _ Hscale) in H.
  destruct (Render.above_landscape self (Render.tried self md g 0)) as [e|[|]] eqn:Htest.
  - discriminate.
  - assert (Hc : Render.drawn self md g 0 = (theta, phi, location)) by congruence.
    assert (Hg : g' = skip 3 g) by congruence.
    exists 0%nat. split; [lia|]. split; [exact Hc|].
    assert (Hloc : location = Render.tried self md g 0).
    { unfold Render.tried. rewrite Hc. reflexivity. }
    split; [exact Hloc|]. split; [rewrite Hloc; exact Htest|].
    split; [intros i Hi; lia | exact Hg].
  - destruct (IH _ _ _ _ _ H) as [_ [k [Hk [Hc [Hloc [Hacc [Hrej Hg]]]]]]].
    exists (S k). rewrite drawn_S in Hc. rewrite tried_S in Hloc. rewrite skip_skip in Hg.
    replace (3 * S k + 3)%nat with (3 * S (S k))%nat in Hg by lia.
    split; [lia|]. split; [exact Hc|]. split; [exact Hloc|]. split; [exact Hacc|].
    split; [|exact Hg].
    intros [|i] Hi; [exact Htest|]. rewrite <- tried_S. apply Hrej. lia.
Qed.

(** A call that returns a pose has drawn the lens with a scale that is not
    negative. *)
Lemma random_camera_pose_scale (fuel : nat) (self s : Render.t) (g g' : Rng)
    (pose : Render.CameraPose) :
  Render.random_camera fuel self g = Some (inr pose, s, g') ->
  0 <= snd (Render.camera_lens (Render.opts self)).
Proof.
  intros H.
  destruct (Rlt_dec (snd (Render.camera_lens (Render.opts self))) 0) as [Hneg|Hscale];
    [|apply Rnot_lt_le, Hscale].
  rewrite (random_camera_negative _ _ _ Hneg) in H. discriminate.
Qed.

(** A call that returns a pose, in the terms of its loop. *)
Lemma random_camera_returns (fuel : nat) (self self' s : Render.t) (g g1 g' : Rng)
    (f md : R) (pose : Render.CameraPose) :
  Render.before_loop self g = (f, self', md, g1) ->
  Render.random_camera fuel self g = Some (inr pose, s, g') ->
  s = self' /\ Render.focal_length pose = f /\
  exists k,
    (k < fuel)%nat /\
    Render.location pose = Render.tried self' md g1 k /\
    Render.above_landscape self' (Render.location pose) = inr true /\
    (forall i, (i < k)%nat ->
       Render.above_landscape self' (Render.tried self' md g1 i) = inr false) /\
    g' = skip (3 * S k + 3) g1.
Proof.
  intros Hsetup H.
  pose proof (random_camera_pose_scale _ _ _ _ _ _ H) as Hlens.
  rewrite (random_camera_unfold _ _ _ _ _ _ _ Hlens Hsetup) in H.
  destruct (Render.sample_loop fuel self' md g1) as [[[e|[[theta phi] location]] g2]|] eqn:Hloop;
    try discriminate.
  inversion H; subst. split; [reflexivity|]. split; [reflexivity|].
  destruct (sample_loop_returns _ _ _ _ _ _ _ _ Hloop)
    as [_ [k [Hk [_ [Hloc [Hacc [Hrej ->]]]]]]].
  exists k. cbn [Render.location]. split; [exact Hk|]. split; [exact Hloc|].
  split; [exact Hacc|]. split; [exact Hrej|].
  unfold random_randn3, draw, skip. cbn. f_equal. lia.
Qed.

Lemma before_loop_eq (self : Render.t) (g : Rng) :
  Render.before_loop self g =
  (fst (Render.camera_lens (Render.opts self))
   * exp (0 + snd (Render.camera_lens (Render.opts self)) * raw g (pos g)),
   Render.mk (Render.opts self) (Render.landscape_tree self) (Render.sphere self)
     (Render.set_lens (Render.camera self)
        (fst (Render.camera_lens (Render.opts self))
         * exp (0 + snd (Render.camera_lens (Render.opts self)) * raw g (pos g)))),
   BoundingSphere.radius (Render.sphere self)
   / tan (Render.angle_y
            (Render.set_lens (Render.camera self)
               (fst (Render.camera_lens (Render.opts self))
                * exp (0 + snd (Render.camera_lens (Render.opts self)) * raw g (pos g))))
          / 2),
   skip 1 g).
Proof. reflexivity. Qed.

(** X18.  The focal length.  When the scale [camera_lens[1]] is negative,
    [random_camera] raises the [ValueError] of [np.random.normal] with the
    camera and the generator as they were.  When it is not, then whatever
    the outcome, once the call has ended the lens of the camera is the
    median of the options times the exponential of the first normal draw,
    which is positive for a positive median; a returned pose carries that
    focal length; and the options, the terrain index and the sphere are as
    they were. *)
Theorem random_camera_sets_lens (fuel : nat) (self self' : Render.t) (g g' : Rng)
    (r : Exc Render.CameraPose) :
  0 < fst (Render.camera_lens (Render.opts self)) ->
  Render.random_camera fuel self g = Some (r, self', g') ->
  (snd (Render.camera_lens (Render.opts self)) < 0 ->
   r = inl (ValueError "scale < 0") /\ self' = self /\ g' = g) /\
  (0 <= snd (Render.camera_lens (Render.opts self)) ->
   Render.lens (Render.camera self') =
     fst (Render.camera_lens (Render.opts self))
     * exp (snd (Render.camera_lens (Render.opts self)) * raw g (pos g)) /\
   0 < Render.lens (Render.camera self') /\
   (forall pose, r = inr pose ->
                 Render.focal_length pose = Render.lens (Render.camera self')) /\
   Render.opts self' = Render.opts self /\
   Render.landscape_tree self' = Render.landscape_tree self /\
   Render.sphere self' = Render.sphere self).
Proof.
  intros Hmedian H. split.
  - intros Hneg. rewrite (random_camera_negative _ _ _ Hneg) in H.
    inversion H. repeat split.
  - intros Hscale.
    rewrite (random_camera_unfold _ _ _ _ _ _ _ Hscale (before_loop_eq self g)) in H.
    rewrite Rplus_0_l in H.
    destruct (Render.sample_loop _ _ _ _) as [[[e|[[theta phi] location]] g2]|];
      try discriminate; inversion H; subst; cbn;
      (split; [reflexivity|]);
      (split; [apply Rmult_lt_0_compat; [exact Hmedian | apply exp_pos]|]);
      (split; [|repeat split]); intros pose Hp; inversion Hp; reflexivity.
Qed.

(** The theorem for X18 at [overhead 5]. *)
Lemma random_camera_sets_lens_witness :
  0 < fst (Render.camera_lens (Render.opts (overhead 5))) /\
  exists r self' g',
    Render.random_camera 1 (overhead 5) zero_source = Some (r, self', g') /\
    0 < Render.lens (Render.camera self').
Proof.
  assert (Hmedian : 0 < fst (Render.camera_lens (Render.opts (overhead 5)))) by (cbn; lra).
  split; [exact Hmedian|].
  destruct (Render.random_camera 1 (overhead 5) zero_source) as [[[r self'] g']|] eqn:Hrun.
  - exists r, self', g'. split; [reflexivity|].
    apply (proj2 (random_camera_sets_lens 1 (overhead 5) self' zero_source g' r
                    Hmedian Hrun)).
    apply overhead_lens_scale.
  - exfalso.
    rewrite (random_camera_unfold _ _ _ _ _ _ _ (overhead_lens_scale 5)
               (before_loop_overhead 5)) in Hrun.
    rewrite (sample_loop_S _ _ _ _ (overhead_distance_scale 5)) in Hrun.
    rewrite tried_overhead in Hrun by reflexivity.
    rewrite above_landscape_overhead in Hrun by lra.
    destruct (Rgt_dec 4 (5 - 4)) as [_|Hn]; [discriminate | apply Hn; lra].
Defined.

Lemma norm_vscale_unit (k a b c : R) :
  a * a + b * b + c * c = 1 -> norm (vscale k (mk3 a b c)) = Rabs k.
Proof.
  intros H. rewrite (norm_sq _ (Rsqr k)).
  - apply sqrt_Rsqr_abs.
  - cbn. unfold Rsqr.
    replace (k * a * (k * a) + k * b * (k * b) + k * c * (k * c))
      with (k * k * (a * a + b * b + c * c)) by ring.
    rewrite H. ring.
Qed.

Lemma direction_unit (theta phi : R) :
  sin theta * sin (- phi) * (sin theta * sin (- phi))
  + sin theta * cos phi * (sin theta * cos phi) + cos theta * cos theta = 1.
Proof.
  rewrite sin_neg.
  pose proof (sin2_cos2 theta) as Ht. pose proof (sin2_cos2 phi) as Hp.
  unfold Rsqr in Ht, Hp.
  replace (sin theta * - sin phi * (sin theta * - sin phi)
           + sin theta * cos phi * (sin theta * cos phi) + cos theta * cos theta)
    with (sin theta * sin theta * (sin phi * sin phi + cos phi * cos phi)
          + cos theta * cos theta) by ring.
  rewrite Hp. lra.
Qed.

(** The location tried by iteration [i] lies on the sphere about the
    centre whose radius is the absolute value of the distance drawn. *)
Lemma tried_distance (self : Render.t) (md : R) (g : Rng) (i : nat) :
  dist (Render.tried self md g i) (BoundingSphere.centre (Render.sphere self)) =
  Rabs (md * fst (Render.camera_distance_factor (Render.opts self))
        + md * snd (Render.camera_distance_factor (Render.opts self))
          * raw g (3 * i + pos g)).
Proof.
  unfold Render.tried, Render.drawn, dist.
  cbn [fst snd].
  match goal with
  | |- norm (vsub (vadd ?c (vscale ?k ?d)) ?c) = _ =>
      replace (vsub (vadd c (vscale k d)) c) with (vscale k d)
        by (unfold vsub, vadd, vscale; cbn; f_equal; ring)
  end.
  apply norm_vscale_unit, direction_unit.
Qed.

(** X19.  Where the camera is put.  A pose returned by [random_camera] has
    the location of the first candidate that passed the test, say that of
    iteration [k], all earlier ones having been rejected; it lies at the
    distance drawn for that candidate from the centre of the sphere, in
    absolute value, the distance being taken as drawn, negative or not; and
    the call has consumed one draw for the lens, three for every candidate
    and three for the noise. *)
Theorem random_camera_location (fuel : nat) (self self' s : Render.t) (g g1 g' : Rng)
    (f md : R) (pose : Render.CameraPose) :
  Render.before_loop self g = (f, self', md, g1) ->
  Render.random_camera fuel self g = Some (inr pose, s, g') ->
  exists k,
    (k < fuel)%nat /\
    Render.location pose = Render.tried self' md g1 k /\
    (forall i, (i < k)%nat ->
       Render.above_landscape self' (Render.tried self' md g1 i) = inr false) /\
    dist (Render.location pose) (BoundingSphere.centre (Render.sphere self)) =
      Rabs (md * fst (Render.camera_distance_factor (Render.opts self))
            + md * snd (Render.camera_distance_factor (Render.opts self))
              * raw g (3 * k + 1 + pos g)) /\
    g' = skip (3 * k + 7) g.
Proof.
  intros Hsetup H.
  destruct (random_camera_returns _ _ _ _ _ _ _ _ _ _ Hsetup H)
    as [_ [_ [k [Hk [Hloc [Hacc [Hrej Hg]]]]]]].
  exists k. split; [exact Hk|]. split; [exact Hloc|]. split; [exact Hrej|].
  pose proof (tried_distance self' md g1 k) as Hd. rewrite <- Hloc in Hd.
  rewrite before_loop_eq in Hsetup. inversion Hsetup; subst. split.
  - cbn [Render.sphere Render.opts skip raw pos] in Hd. rewrite Hd.
    replace (3 * k + 1 + pos g)%nat with (3 * k + (1 + pos g))%nat by lia. reflexivity.
  - rewrite skip_skip. f_equal. lia.
Qed.

(** The run of [random_camera] on [overhead 5] with the generator of
    zeros. *)
Lemma random_camera_overhead_5 :
  exists pose g',
    Render.random_camera 1 (overhead 5) zero_source = Some (inr pose, overhead_set 5, g') /\
    Render.location pose = mk3 0 0 4.
Proof.
  rewrite (random_camera_unfold _ _ _ _ _ _ _ (overhead_lens_scale 5)
             (before_loop_overhead 5)).
  rewrite (sample_loop_S _ _ _ _ (overhead_distance_scale 5)).
  rewrite tried_overhead by reflexivity.
  rewrite above_landscape_overhead by lra.
  destruct (Rgt_dec 4 (5 - 4)) as [_|H]; [|exfalso; apply H; lra].
  rewrite drawn_overhead by reflexivity.
  eexists; eexists. split; reflexivity.
Qed.

(** The theorem for X19 at [overhead 5]. *)
Lemma random_camera_location_witness :
  exists pose g',
    Render.random_camera 1 (overhead 5) zero_source = Some (inr pose, overhead_set 5, g') /\
    exists k,
      (k < 1)%nat /\
      Render.location pose = Render.tried (overhead_set 5) 12 (skip 1 zero_source) k /\
      g' = skip (3 * k + 7) zero_source.
Proof.
  destruct random_camera_overhead_5 as [pose [g' [Hrun _]]].
  exists pose, g'. split; [exact Hrun|].
  destruct (random_camera_location 1 (overhead 5) (overhead_set 5) (overhead_set 5)
              zero_source (skip 1 zero_source) g' 16 12 pose
              (before_loop_overhead 5) Hrun) as [k [Hk [Hloc [_ [_ Hg]]]]].
  exists k. split; [exact Hk|]. split; [exact Hloc | exact Hg].
Defined.

Lemma tree_find_some (tree : KDTree.t) (q : V3) (r : V3 * nat * R) :
  KDTree.find tree q = inr (Some r) -> nearest_of q (KDTree.items tree) r.
Proof.
  unfold KDTree.find.
  destruct (KDTree.count_balance tree =? List.length (KDTree.items tree))%nat;
    [|discriminate].
  destruct (KDTree.items tree) as [|item l]; [discriminate|].
  destruct (nearest_cons q item l) as [r' [Hn Hr']].
  cbn [ret]. rewrite Hn. intros H. inversion H; subst. exact Hr'.
Qed.

Lemma above_landscape_true (self : Render.t) (location : V3) :
  Render.above_landscape self location = inr true ->
  exists p i d,
    KDTree.find (Render.landscape_tree self) location = inr (Some (p, i, d)) /\
    d < vz location.
Proof.
  unfold Render.above_landscape.
  destruct (KDTree.find (Render.landscape_tree self) location) as [e|[[[p i] d]|]];
    cbn; try discriminate.
  destruct (Rgt_dec (vz location) d) as [Hgt|_]; [|discriminate].
  intros _. exists p, i, d. split; [reflexivity | lra].
Qed.

(** X20.  What the test of the loop ensures.  For a pose returned by
    [random_camera], the terrain index holds a vertex nearest to the
    location, and the height [z] of the location is greater than the
    distance from the location to that vertex; in particular the location
    has a positive height, whatever the height of the terrain. *)
Theorem random_camera_height (fuel : nat) (self self' : Render.t) (g g' : Rng)
    (pose : Render.CameraPose) :
  Render.random_camera fuel self g = Some (inr pose, self', g') ->
  exists p i d,
    KDTree.find (Render.landscape_tree self) (Render.location pose)
      = inr (Some (p, i, d)) /\
    In (p, i) (KDTree.items (Render.landscape_tree self)) /\
    d = dist p (Render.location pose) /\
    (forall p' i', In (p', i') (KDTree.items (Render.landscape_tree self)) ->
                   d <= dist p' (Render.location pose)) /\
    d < vz (Render.location pose) /\
    0 < vz (Render.location pose).
Proof.
  intros H.
  destruct (random_camera_returns _ _ _ _ _ _ _ _ _ _ (before_loop_eq self g) H)
    as [_ [_ [k [_ [_ [Hacc _]]]]]].
  destruct (above_landscape_true _ _ Hacc) as [p [i [d [Hfind Hlt]]]].
  cbn [Render.landscape_tree] in Hfind.
  exists p, i, d. split; [exact Hfind|].
  destruct (tree_find_some _ _ _ Hfind) as [Hin [Hd Hmin]].
  split; [exact Hin|]. split; [exact Hd|]. split; [exact Hmin|]. split; [exact Hlt|].
  pose proof (norm_nonneg (vsub p (Render.location pose))) as Hpos.
  unfold dist in Hd. lra.
Qed.

(** The theorem for X20 at [overhead 5]. *)
Lemma random_camera_height_witness :
  exists pose g',
    Render.random_camera 1 (overhead 5) zero_source = Some (inr pose, overhead_set 5, g') /\
    0 < vz (Render.location pose).
Proof.
  destruct random_camera_overhead_5 as [pose [g' [Hrun _]]].
  exists pose, g'. split; [exact Hrun|].
  destruct (random_camera_height 1 (overhead 5) (overhead_set 5) zero_source g' pose Hrun)
    as [p [i [d [_ [_ [_ [_ [_ Hz]]]]]]]].
  exact Hz.
Defined.

(** ** More on [BoundingSphere] *)

(** X21.  [BoundingSphere] fails exactly on an empty list of objects,
    with a centre supplied or not: there it raises the [ValueError] of
    [min] on an empty sequence, and for every other list it returns a
    sphere. *)
Theorem init_raises_iff_no_objects (objects : list Object) (centre : option V3) :
  (objects = [] ->
   BoundingSphere.init objects centre = inl (ValueError "min() arg is an empty sequence")) /\
  (objects <> [] -> exists s, BoundingSphere.init objects centre = inr s) /\
  ((exists e, BoundingSphere.init objects centre = inl e) <-> objects = []).
Proof.
  assert (Hsome : objects <> [] -> exists s, BoundingSphere.init objects centre = inr s).
  { destruct objects as [|x objects]; [intros H; contradiction H; reflexivity|].
    intros _. destruct (box_nonempty x objects) as [rows [Hbox Hlen]].
    unfold BoundingSphere.init. rewrite Hbox. cbn [bind].
    destruct rows as [|b0 rows]; [discriminate|].
    cbn [map BoundingSphere.np_max bind ret]. eexists. reflexivity. }
  split; [intros ->; reflexivity|]. split; [exact Hsome|]. split.
  - intros [e He]. destruct objects as [|x objects]; [reflexivity|].
    destruct Hsome as [s Hs]; [discriminate|]. rewrite Hs in He. discriminate.
  - intros ->. eexists. reflexivity.
Qed.

Lemma minmax_single (i j : nat) (v : R) : BoundingSphere.minmax i j [v] = inr v.
Proof.
  unfold BoundingSphere.minmax.
  match goal with |- context [if ?c then py_min else py_max] => destruct c end; reflexivity.
Qed.

Lemma box_row_single (x : Object) (i : nat) :
  BoundingSphere.box_row [x] i = inr (BoundingSphere.world_corner x i).
Proof.
  unfold BoundingSphere.box_row. cbn [map]. rewrite !minmax_single. reflexivity.
Qed.

Lemma mapM_inr {A B} (f : A -> Exc B) (h : A -> B) (l : list A) :
  (forall a, f a = inr (h a)) -> mapM f l = inr (map h l).
Proof.
  intros H. induction l as [|a l IH]; [reflexivity|].
  cbn. rewrite H, IH. reflexivity.
Qed.

(** For one object the composite corners are its own world corners. *)
Lemma box_single (x : Object) :
  BoundingSphere.box [x] = inr (map (BoundingSphere.world_corner x) (seq 0 8)).
Proof. apply mapM_inr, box_row_single. Qed.

(** The radius reaches every row it is the maximum over. *)
Lemma np_max_reaches (rows : list V3) (c : V3) (radius : R) :
  BoundingSphere.np_max (map (fun b => norm (vsub b c)) rows) = inr radius ->
  forall b, In b rows -> norm (vsub b c) <= radius.
Proof.
  destruct rows as [|b0 rows]; [discriminate|].
  cbn. intros H. inversion H. intros b [<-|Hin].
  - apply fold_Rmax_ge_init.
  - apply fold_Rmax_ge. apply in_map_iff. exists b. split; [reflexivity | exact Hin].
Qed.

(** X22.  Around a single object the sphere does enclose the object's
    bounding box, whatever its world matrix and the order of its corners,
    with the centre supplied or not: the radius is at least the distance
    from the centre to each of the 8 world corners, and without a supplied
    centre the centre is the mean of these corners. *)
Theorem init_single_object (x : Object) (centre : option V3) :
  exists s,
    BoundingSphere.init [x] centre = inr s /\
    BoundingSphere.centre s =
      match centre with
      | Some c => c
      | None =>
          vdivs (BoundingSphere.np_sum (map (BoundingSphere.world_corner x) (seq 0 8))) 8
      end /\
    forall i, (i < 8)%nat ->
      dist (BoundingSphere.world_corner x i) (BoundingSphere.centre s)
      <= BoundingSphere.radius s.
Proof.
  unfold BoundingSphere.init. rewrite box_single. cbn [bind].
  set (rows := map (BoundingSphere.world_corner x) (seq 0 8)).
  set (c := match centre with Some c => c | None => vdivs (BoundingSphere.np_sum rows) 8 end).
  destruct (BoundingSphere.np_max (map (fun b => norm (vsub b c)) rows)) as [e|radius] eqn:Hmax;
    [discriminate|].
  eexists. split; [reflexivity|]. split; [reflexivity|].
  intros i Hi. cbn [BoundingSphere.centre BoundingSphere.radius]. unfold dist.
  apply (np_max_reaches rows c radius Hmax).
  apply in_map. apply in_seq. lia.
Qed.

(** X23.  For every non-empty set of objects and no centre supplied, the
    sphere is built, its centre is the mean of the 8 composite corners,
    and its radius is the distance from the centre to one of them and at
    least the distance to each: the sphere encloses the composite corners
    (not, in general, the objects). *)
Theorem init_default_centre (x : Object) (objects : list Object) :
  exists rows s,
    BoundingSphere.box (x :: objects) = inr rows /\
    List.length rows = 8%nat /\
    BoundingSphere.init (x :: objects) None = inr s /\
    BoundingSphere.centre s = vdivs (BoundingSphere.np_sum rows) 8 /\
    (exists b, In b rows /\ BoundingSphere.radius s = dist b (BoundingSphere.centre s)) /\
    (forall b, In b rows -> dist b (BoundingSphere.centre s) <= BoundingSphere.radius s) /\
    0 <= BoundingSphere.radius s.
Proof.
  destruct (box_nonempty x objects) as [rows [Hbox Hlen]].
  unfold BoundingSphere.init. rewrite Hbox. cbn [bind].
  set (c := vdivs (BoundingSphere.np_sum rows) 8).
  destruct rows as [|b0 rows]; [discriminate|].
  cbn [map BoundingSphere.np_max bind ret].
  eexists; eexists. split; [reflexivity|]. split; [exact Hlen|].
  split; [reflexivity|]. cbn [BoundingSphere.centre BoundingSphere.radius].
  split; [reflexivity|]. unfold dist. split; [|split].
  - destruct (fold_Rmax_in (map (fun b => norm (vsub b c)) rows) (norm (vsub b0 c)))
      as [H|H].
    + exists b0. split; [left; reflexivity | exact H].
    + apply in_map_iff in H. destruct H as [b [Hb Hin]].
      exists b. split; [right; exact Hin | symmetry; exact Hb].
  - intros b [<-|Hin].
    + apply fold_Rmax_ge_init.
    + apply fold_Rmax_ge. apply in_map_iff. exists b. split; [reflexivity | exact Hin].
  - eapply Rle_trans; [apply (norm_nonneg (vsub b0 c)) | apply fold_Rmax_ge_init].
Qed.

(** ** The sun and the placement of the camera *)

Lemma uniform_range (low high u : R) :
  low <= high -> 0 <= u < 1 ->
  low <= low + (high - low) * u <= high /\ (low < high -> low + (high - low) * u < high).
Proof. intros Hlh [H0 H1]. repeat split; nra. Qed.

(** X24.  The angles of [random_sun].  With raw uniform draws in [0, 1) and
    a range of polar angles that is not reversed, the rotation returned is
    [theta, 0, phi] with [theta] in the range of the options and [phi] in
    [0, 2 pi), and two draws are consumed.  With the range of [_default]
    the sun stands at least 5 degrees (pi/36) above the horizon. *)
Theorem random_sun_range (sun_theta : R * R) (g : Rng) :
  (forall n, 0 <= raw g n < 1) ->
  fst sun_theta <= snd sun_theta ->
  let rotation := fst (Placement.random_sun sun_theta g) in
  fst sun_theta <= vx rotation <= snd sun_theta /\
  vy rotation = 0 /\
  0 <= vz rotation < 2 * PI /\
  snd (Placement.random_sun sun_theta g) = skip 2 g /\
  (sun_theta = Placement.default_sun_theta -> PI / 36 <= PI / 2 - vx rotation).
Proof.
  intros Hraw Hrange.
  unfold Placement.random_sun, random_uniform, draw. cbn.
  pose proof PI_RGT_0 as Hpi.
  destruct (uniform_range (fst sun_theta) (snd sun_theta) (raw g (pos g)) Hrange (Hraw _))
    as [Htheta _].
  destruct (uniform_range 0 (2 * PI) (raw g (S (pos g))) ltac:(lra) (Hraw _))
    as [Hphi Hphi'].
  split; [exact Htheta|]. split; [reflexivity|].
  split; [split; [apply Hphi | apply Hphi'; lra]|].
  split; [reflexivity|].
  intros ->. unfold Placement.default_sun_theta in *. cbn [fst snd] in *. lra.
Qed.

(** The theorem for X24 with the range of [_default] and draws of 1/2. *)
Lemma random_sun_range_witness :
  (forall n, 0 <= raw half_source n < 1) /\
  fst Placement.default_sun_theta <= snd Placement.default_sun_theta /\
  PI / 36 <= PI / 2 - vx (fst (Placement.random_sun Placement.default_sun_theta half_source)).
Proof.
  assert (Hraw : forall n, 0 <= raw half_source n < 1) by (intros n; cbn; lra).
  assert (Hrange : fst Placement.default_sun_theta <= snd Placement.default_sun_theta).
  { cbn. pose proof PI_RGT_0. lra. }
  split; [exact Hraw|]. split; [exact Hrange|].
  apply (random_sun_range Placement.default_sun_theta half_source Hraw Hrange).
  reflexivity.
Defined.

(** The height of a candidate over the centre of the sphere. *)
Lemma tried_height (self : Render.t) (md : R) (g : Rng) (i : nat) :
  vz (Render.tried self md g i) - vz (BoundingSphere.centre (Render.sphere self)) =
  (md * fst (Render.camera_distance_factor (Render.opts self))
   + md * snd (Render.camera_distance_factor (Render.opts self)) * raw g (3 * i + pos g))
  * cos (fst (Render.camera_theta (Render.opts self))
         + (snd (Render.camera_theta (Render.opts self))
            - fst (Render.camera_theta (Render.opts self)))
           * raw g (S (3 * i + pos g))).
Proof.
  unfold Render.tried, Render.drawn.
  cbn. ring.
Qed.

(** X25.  Above or below the centre.  When the range of polar angles lies
    within [0, pi/2), as that of [_default] does, a candidate of the loop
    of [random_camera] is higher than the centre of the sphere exactly
    when the distance drawn for it is positive: a negative draw of the
    normal distribution puts the candidate below the centre. *)
Theorem candidate_above_centre (self : Render.t) (md : R) (g : Rng) (i : nat) :
  0 <= fst (Render.camera_theta (Render.opts self)) ->
  fst (Render.camera_theta (Render.opts self))
    <= snd (Render.camera_theta (Render.opts self)) ->
  snd (Render.camera_theta (Render.opts self)) < PI / 2 ->
  0 <= raw g (S (3 * i + pos g)) < 1 ->
  (vz (BoundingSphere.centre (Render.sphere self)) < vz (Render.tried self md g i) <->
   0 < md * fst (Render.camera_distance_factor (Render.opts self))
       + md * snd (Render.camera_distance_factor (Render.opts self))
         * raw g (3 * i + pos g)).
Proof.
  intros Hlow Hrange Hhigh Hraw.
  pose proof (tried_height self md g i) as Hz.
  destruct (uniform_range _ _ _ Hrange Hraw) as [Htheta _].
  set (theta := fst (Render.camera_theta (Render.opts self)) + _) in *.
  set (distance := md * _ + _) in *.
  assert (Hcos : 0 < cos theta) by (apply cos_gt_0; lra).
  split; intros H.
  - assert (Hprod : 0 < distance * cos theta) by lra.
    destruct (Rlt_dec 0 distance) as [Hd|Hd]; [exact Hd|]. exfalso. nra.
  - assert (Hprod : 0 < distance * cos theta) by (apply Rmult_lt_0_compat; assumption).
    lra.
Qed.

(** The theorem for X25 on [lookout 5], with draws of 1/2. *)
Lemma candidate_above_centre_witness :
  snd (Render.camera_theta (Render.opts (lookout 5))) < PI / 2 /\
  (vz (BoundingSphere.centre (Render.sphere (lookout 5)))
   < vz (Render.tried (lookout 5) 12 half_source 0) <->
   0 < 12 * (4/12) + 12 * (1/12) * (1/2)).
Proof.
  pose proof PI_RGT_0 as Hpi.
  assert (Hhigh : snd (Render.camera_theta (Render.opts (lookout 5))) < PI / 2)
    by (cbn; lra).
  split; [exact Hhigh|].
  apply (candidate_above_centre (lookout 5) 12 half_source 0).
  - cbn. lra.
  - cbn. lra.
  - exact Hhigh.
  - cbn. lra.
Defined.

Lemma set_camera_lens_twice (self : Render.t) (f : R) :
  Placement.set_camera_lens (Placement.set_camera_lens self f) f
  = Placement.set_camera_lens self f.
Proof. reflexivity. Qed.

(** X26.  Replaying a pose.  When [random_camera] returns a pose,
    [place_camera] without a focal length places the camera at that pose,
    whatever location and rotation it was given, these being ignored; and
    [place_camera] with the focal length, location and rotation of the
    pose puts the camera into the very same state, without consuming a
    draw: poses generated beforehand can be placed later. *)
Theorem place_camera_replays (fuel : nat) (self : Placement.t) (g g' : Rng)
    (pose : Render.CameraPose) (renderer' : Render.t) :
  Render.random_camera fuel (Placement.renderer self) g = Some (inr pose, renderer', g') ->
  (forall location rotation,
      Placement.place_camera fuel None location rotation self g =
      Some (inr tt,
            Placement.mk renderer' (Render.location pose) (Render.rotation pose), g')) /\
  (forall fuel' g0,
      Placement.place_camera fuel' (Some (Render.focal_length pose))
        (Some (Render.location pose)) (Some (Render.rotation pose)) self g0 =
      Some (inr tt,
            Placement.mk renderer' (Render.location pose) (Render.rotation pose), g0)).
Proof.
  intros H.
  assert (Hr : renderer' =
               Placement.set_camera_lens (Placement.renderer self)
                 (Render.focal_length pose)).
  { pose proof (random_camera_pose_scale _ _ _ _ _ _ H) as Hscale.
    rewrite (random_camera_unfold _ _ _ _ _ _ _ Hscale (before_loop_eq _ g)) in H.
    destruct (Render.sample_loop _ _ _ _) as [[[e|[[theta phi] location]] g2]|];
      try discriminate.
    inversion H; subst. reflexivity. }
  split.
  - intros location rotation. unfold Placement.place_camera. rewrite H.
    unfold Placement.assign. cbn. rewrite Hr, set_camera_lens_twice. reflexivity.
  - intros fuel' g0. unfold Placement.place_camera, Placement.assign. cbn.
    rewrite Hr. reflexivity.
Qed.

(** The theorem for X26 on [overhead 5]. *)
Lemma place_camera_replays_witness :
  exists pose g',
    Render.random_camera 1 (overhead 5) zero_source = Some (inr pose, overhead_set 5, g') /\
    Placement.place_camera 0 (Some (Render.focal_length pose))
      (Some (Render.location pose)) (Some (Render.rotation pose))
      (Placement.mk (overhead 5) zero3 zero3) zero_source =
    Some (inr tt,
          Placement.mk (overhead_set 5) (Render.location pose) (Render.rotation pose),
          zero_source).
Proof.
  destruct random_camera_overhead_5 as [pose [g' [Hrun _]]].
  exists pose, g'. split; [exact Hrun|].
  apply (proj2 (place_camera_replays 1 (Placement.mk (overhead 5) zero3 zero3)
                  zero_source g' pose (overhead_set 5) Hrun)).
Defined.
